(** * Global symbol resolution of an XSD processor

    A shallow embedding of [xmlschema/namespaces.py]: the registration
    ledger ([XsdGlobals.register], [clear]), the global declaration loader
    ([create_load_function]), the lazy resolver ([create_lookup_function]),
    the build orchestrator ([XsdGlobals.build]) and the namespace-filtered
    view ([NamespaceView]).

    Python objects that the module mutates through shared references live
    in explicit stores: fan-out lists (the module appends to them and
    overwrites their head in place), components (the orchestrator assigns
    attributes of built-in types and items of model groups) and the error
    list of every schema.  Dictionaries are finite maps; their iteration
    order is the key order of the map. *)

From Stdlib Require Import Ascii String.
From stdpp Require Import gmap strings list fin_maps.

Open Scope string_scope.
Open Scope list_scope.

Set Warnings "-clear-no-such-hyp".

(** ** Data model *)

(** An ElementTree element. *)
#[warnings="-register-all"]
Inductive Element :=
  Elem { tag : string; attrib : list (string * string); children : list Element }.

Definition Element_eq_dec : ∀ x y : Element, {x = y} + {x ≠ y}.
Proof.
  fix IH 1. intros [t a c] [t' a' c'].
  destruct (decide (t = t')) as [->|Ht]; [|right; congruence].
  destruct (decide (a = a')) as [->|Ha]; [|right; congruence].
  destruct (List.list_eq_dec IH c c') as [->|Hc]; [left; reflexivity|right; congruence].
Defined.

#[global] Instance Element_eq : EqDecision Element := Element_eq_dec.

(** A schema document.  [s_id] stands for the identity of the Python
    object; [uri] is [None] for a schema without a resource.  The mutable
    attribute [errors] is kept in the store of the world. *)
Record XMLSchema := {
  s_id : nat;
  uri : option string;
  target_namespace : string;
  root : Element
}.

#[global] Instance XMLSchema_eq : EqDecision XMLSchema.
Proof. solve_decision. Defined.

(** The component classes of [components.py] that the module dispatches on. *)
Inductive XsdClass :=
  | XsdSimpleType | XsdComplexType | XsdAttribute | XsdAttributeGroup
  | XsdGroup | XsdElement | XsdNotation.

#[global] Instance XsdClass_eq : EqDecision XsdClass.
Proof. solve_decision. Defined.

(** What a table slot or a fan-out list holds: a component (by reference)
    or a raw [(elem, schema)] tuple. *)
Inductive item :=
  | IComp (c : nat)
  | IPair (e : Element) (s : XMLSchema).

#[global] Instance item_eq : EqDecision item.
Proof. solve_decision. Defined.

(** A table slot: one item, or a Python list (by reference). *)
Inductive slot :=
  | SItem (i : item)
  | SList (l : nat).

#[global] Instance slot_eq : EqDecision slot.
Proof. solve_decision. Defined.

(** The attributes of a component that the module reads or assigns.
    [content] is the item sequence of a model group. *)
Record XsdComponent := {
  cls : XsdClass;
  built : bool;
  elem : Element;
  schema : XMLSchema;
  comp_name : string;
  substitution_group : option string;
  comp_namespaces : list (string * string);
  comp_target_namespace : string;
  content : list item
}.

(** The seven tables that a lookup function can be created for. *)
Inductive MapName :=
  | Types | Attributes | AttributeGroups | Groups | Notations | Elements
  | BaseElements.

#[global] Instance MapName_eq : EqDecision MapName.
Proof. solve_decision. Defined.

(** The instance attributes of [XsdGlobals].  [namespaces] and
    [resources] are [URIDict]s, keyed by normalized URI. *)
Record XsdGlobals := {
  validation : string;
  namespaces : gmap string (list XMLSchema);
  resources : gmap string XMLSchema;
  types : gmap string slot;
  attributes : gmap string slot;
  attribute_groups : gmap string slot;
  groups : gmap string slot;
  notations : gmap string slot;
  elements : gmap string slot;
  substitution_groups : gmap string (gset nat);
  base_elements : gmap string slot
}.

(** The part of the Python heap the module works on. *)
Record World := {
  globals : XsdGlobals;
  comps : gmap nat XsdComponent;
  lists : gmap nat (list item);
  errors : gmap nat (list string)
}.

(** ** Exceptions and the state monad *)

(** The exceptions of [exceptions.py] carry what their message is
    formatted from: the description of the wanted classes and the name for
    the key and type errors, the message and the element for the parse
    error.  [ReferenceError] stands for the use of a component reference
    that the heap does not hold, which no Python run can do. *)
Inductive exn :=
  | XMLSchemaKeyError (types_desc : string) (qname : string)
  | XMLSchemaParseError (msg : string) (e : Element)
  | XMLSchemaValueError (msg : string)
  | XMLSchemaTypeError (types_desc : string) (qname : string)
  | KeyError (key : string)
  | AttributeError (attr : string)
  | TypeError (msg : string)
  | ValueError (msg : string)
  | IndexError
  | RuntimeError (msg : string)
  | ReferenceError (c : nat)
  | ExternalError (msg : string).

Inductive result (A : Type) :=
  | Ok (a : A)
  | Raise (e : exn).
Arguments Ok {A} a.
Arguments Raise {A} e.

Definition is_ok {A} (r : result A) : bool :=
  match r with Ok _ => true | Raise _ => false end.

(** A computation reads and writes the world and returns or raises; an
    exception leaves the mutations done so far in place. *)
Definition M (A : Type) : Type := World → result A * World.

#[global] Instance M_ret : MRet M := λ A a w, (Ok a, w).

#[global] Instance M_bind : MBind M := λ A B f m w,
  match m w with
  | (Ok a, w') => f a w'
  | (Raise e, w') => (Raise e, w')
  end.

Definition raise {A} (e : exn) : M A := λ w, (Raise e, w).
Definition get_world : M World := λ w, (Ok w, w).
Definition modify (f : World → World) : M unit := λ w, (Ok tt, f w).

(** [for x in l: body(x)] *)
Fixpoint mfor {A} (l : list A) (body : A → M unit) : M unit :=
  match l with
  | [] => mret tt
  | x :: l' => _ ← body x; mfor l' body
  end.

(** ** Access to the tables *)

Definition get_map (m : MapName) (g : XsdGlobals) : gmap string slot :=
  match m with
  | Types => types g
  | Attributes => attributes g
  | AttributeGroups => attribute_groups g
  | Groups => groups g
  | Notations => notations g
  | Elements => elements g
  | BaseElements => base_elements g
  end.

Definition set_map (m : MapName) (t : gmap string slot) (g : XsdGlobals) : XsdGlobals :=
  let mk ty at_ ag gr no el be :=
    {| validation := validation g; namespaces := namespaces g;
       resources := resources g; types := ty; attributes := at_;
       attribute_groups := ag; groups := gr; notations := no; elements := el;
       substitution_groups := substitution_groups g; base_elements := be |} in
  match m with
  | Types => mk t (attributes g) (attribute_groups g) (groups g) (notations g) (elements g) (base_elements g)
  | Attributes => mk (types g) t (attribute_groups g) (groups g) (notations g) (elements g) (base_elements g)
  | AttributeGroups => mk (types g) (attributes g) t (groups g) (notations g) (elements g) (base_elements g)
  | Groups => mk (types g) (attributes g) (attribute_groups g) t (notations g) (elements g) (base_elements g)
  | Notations => mk (types g) (attributes g) (attribute_groups g) (groups g) t (elements g) (base_elements g)
  | Elements => mk (types g) (attributes g) (attribute_groups g) (groups g) (notations g) t (base_elements g)
  | BaseElements => mk (types g) (attributes g) (attribute_groups g) (groups g) (notations g) (elements g) t
  end.

Definition with_globals (f : XsdGlobals → XsdGlobals) (w : World) : World :=
  {| globals := f (globals w); comps := comps w; lists := lists w; errors := errors w |}.

Definition with_lists (f : gmap nat (list item) → gmap nat (list item)) (w : World) : World :=
  {| globals := globals w; comps := comps w; lists := f (lists w); errors := errors w |}.

Definition with_comps (f : gmap nat XsdComponent → gmap nat XsdComponent) (w : World) : World :=
  {| globals := globals w; comps := f (comps w); lists := lists w; errors := errors w |}.

Definition with_errors (f : gmap nat (list string) → gmap nat (list string)) (w : World) : World :=
  {| globals := globals w; comps := comps w; lists := lists w; errors := f (errors w) |}.

(** [global_map[qname]] as an option, and [global_map[qname] = v]. *)
Definition table (m : MapName) (w : World) : gmap string slot := get_map m (globals w).

Definition set_slot (m : MapName) (qname : string) (v : slot) (w : World) : World :=
  with_globals (λ g, set_map m (<[qname := v]> (get_map m g)) g) w.

(** The items of a list object; [schema.errors]. *)
Definition read_list (w : World) (l : nat) : list item := default [] (lists w !! l).
Definition schema_errors (w : World) (s : XMLSchema) : list string :=
  default [] (errors w !! s_id s).

(** ** The global declaration loader ([create_load_function]) *)

Section Loader.
(** Collaborators from [qnames.py] and [components.py].  They are taken
    as total functions: a declaration without a [name] is the business of
    [get_xsd_attribute]. *)
Variable get_qname : string → string → string.
Variable get_xsd_attribute : Element → string → string.
Variable iterchildren_xsd_redefine : Element → list Element.
(** The argument of [create_load_function]. *)
Variable filter_function : Element → list Element.

(** The statement that both loops of the loader share:
    [try: xsd_globals[qname].append(obj)], with [KeyError] storing the
    object itself and [AttributeError] (the slot holds a tuple or a
    component, neither of which has [append]) storing a new list of the
    old slot and the object. *)
Definition append_or_create (xsd_globals : MapName) (qname : string) (obj : item) : M unit :=
  λ w,
    match table xsd_globals w !! qname with
    | Some (SList l) =>
        (Ok tt, with_lists (<[l := read_list w l ++ [obj]]>) w)
    | None =>
        (Ok tt, set_slot xsd_globals qname (SItem obj) w)
    | Some (SItem old) =>
        let l := fresh (dom (lists w)) in
        (Ok tt, set_slot xsd_globals qname (SList l) (with_lists (<[l := [old; obj]]>) w))
    end.

(** The children of the redefine blocks of one schema, as appended to
    [redefinitions]. *)
Definition schema_redefinitions (schema : XMLSchema) : list (string * (Element * XMLSchema)) :=
  let target_namespace := target_namespace schema in
  elem ← iterchildren_xsd_redefine (root schema);
  child ← filter_function elem;
  [(get_qname target_namespace (get_xsd_attribute child "name"), (child, schema))].

(** The body of the second inner loop: one direct declaration. *)
Definition load_declaration (xsd_globals : MapName) (schema : XMLSchema) (elem : Element) : M unit :=
  let qname := get_qname (target_namespace schema) (get_xsd_attribute elem "name") in
  append_or_create xsd_globals qname (IPair elem schema).

(** [for schema in schemas: ...], threading the local [redefinitions]. *)
Fixpoint scan_schemas (xsd_globals : MapName) (schemas : list XMLSchema)
    (redefinitions : list (string * (Element * XMLSchema)))
    : M (list (string * (Element * XMLSchema))) :=
  match schemas with
  | [] => mret redefinitions
  | schema :: schemas' =>
      let redefinitions := redefinitions ++ schema_redefinitions schema in
      _ ← mfor (filter_function (root schema)) (load_declaration xsd_globals schema);
      scan_schemas xsd_globals schemas' redefinitions
  end.

(** The body of [for qname, obj in redefinitions: ...]. *)
Definition apply_redefinition (xsd_globals : MapName)
    (r : string * (Element * XMLSchema)) : M unit :=
  let '(qname, obj) := r in
  w ← get_world;
  if decide (table xsd_globals w !! qname = None)
  then raise (XMLSchemaParseError "not a redefinition!" (fst obj))
  else append_or_create xsd_globals qname (IPair (fst obj) (snd obj)).

Definition load_xsd_globals (xsd_globals : MapName) (schemas : list XMLSchema) : M unit :=
  redefinitions ← scan_schemas xsd_globals schemas [];
  mfor redefinitions (apply_redefinition xsd_globals).

(** *** What the loader is given, as lists *)

(** The direct declarations of a list of schemas, in scan order, each
    under its qualified name. *)
Definition declared (schemas : list XMLSchema) : list (string * item) :=
  schema ← schemas;
  elem ← filter_function (root schema);
  [(get_qname (target_namespace schema) (get_xsd_attribute elem "name"), IPair elem schema)].

(** The pending redefinitions of a list of schemas, in scan order. *)
Definition pending (schemas : list XMLSchema) : list (string * (Element * XMLSchema)) :=
  schemas ≫= schema_redefinitions.

End Loader.

(** What a list of contributions holds for one name. *)
Definition contributions (ds : list (string * item)) (qname : string) : list item :=
  (filter (λ d, d.1 = qname) ds).*2.

(** The first loop of the loader without its bookkeeping of redefinitions. *)
Definition scan_declared (xsd_globals : MapName) (ds : list (string * item)) : M unit :=
  mfor ds (λ d, append_or_create xsd_globals d.1 d.2).

(** The items appended by a list of redefinitions. *)
Definition redefinition_items (rs : list (string * (Element * XMLSchema)))
    : list (string * item) :=
  (λ r, (r.1, IPair r.2.1 r.2.2)) <$> rs.

(** The items a slot stands for: none for a missing name, the item
    itself, or the items of the list. *)
Definition slot_items (w : World) (v : option slot) : list item :=
  match v with
  | None => []
  | Some (SItem i) => [i]
  | Some (SList l) => read_list w l
  end.

(** The list objects of a table are allocated and no two slots share one. *)
Definition lists_separate (m : MapName) (w : World) : Prop :=
  (∀ q l, table m w !! q = Some (SList l) → l ∈ dom (lists w))
  ∧ (∀ q q' l, table m w !! q = Some (SList l) → table m w !! q' = Some (SList l) → q = q').


(** ** The lazy resolver ([create_lookup_function]) *)

(** What a construction function can be handed as [elem] and as [schema]:
    an element and a schema, or, when a two-element list is unpacked by
    [elem, schema = obj], the two items of that list. *)
Inductive pyarg :=
  | AElem (e : Element)
  | ASchema (s : XMLSchema)
  | AItem (i : item).

(** A construction function, called as
    [factory_function(elem, schema, instance, is_global=..., **kwargs)];
    [None] stands for an argument that is not passed.  It returns a
    reference to the component it built, and may do to the world whatever
    it likes on the way, lookups included.  The keyword arguments it is
    handed are the table it was taken from and are not passed again here. *)
Definition factory : Type := pyarg → pyarg → option nat → option bool → M nat.

(** The second argument of [create_lookup_function]: one class or a tuple. *)
Inductive classes :=
  | OneClass (c : XsdClass)
  | ClassTuple (cs : list XsdClass).

Definition class_name (c : XsdClass) : string :=
  match c with
  | XsdSimpleType => "XsdSimpleType" | XsdComplexType => "XsdComplexType"
  | XsdAttribute => "XsdAttribute" | XsdAttributeGroup => "XsdAttributeGroup"
  | XsdGroup => "XsdGroup" | XsdElement => "XsdElement"
  | XsdNotation => "XsdNotation"
  end.

Fixpoint join (sep : string) (l : list string) : string :=
  match l with
  | [] => ""
  | [x] => x
  | x :: l' => (x ++ sep ++ join sep l')%string
  end.

Definition types_desc (xsd_classes : classes) : string :=
  match xsd_classes with
  | ClassTuple cs => join " or " (class_name <$> cs)
  | OneClass c => class_name c
  end.

Definition isinstance (o : XsdComponent) (xsd_classes : classes) : bool :=
  match xsd_classes with
  | OneClass c => bool_decide (cls o = c)
  | ClassTuple cs => bool_decide (cls o ∈ cs)
  end.

(** Dereferencing a component. *)
Definition deref (c : nat) : M XsdComponent :=
  λ w, match comps w !! c with
       | Some o => (Ok o, w)
       | None => (Raise (ReferenceError c), w)
       end.

(** [kwargs[key]] *)
Definition kwargs_get (kwargs : gmap string factory) (key : string) : M factory :=
  match kwargs !! key with
  | Some f => mret f
  | None => raise (KeyError key)
  end.

(** [elem.tag]; tuples and components have no such attribute. *)
Definition arg_tag (a : pyarg) : M string :=
  match a with
  | AElem e => mret (tag e)
  | _ => raise (AttributeError "tag")
  end.

(** [obj[0] = xsd_instance] on the list object [l]. *)
Definition set_head (l : nat) (xsd_instance : nat) : M unit :=
  λ w, match read_list w l with
       | [] => (Raise IndexError, w)
       | _ :: tl => (Ok tt, with_lists (<[l := IComp xsd_instance :: tl]>) w)
       end.

(** [obj[0]] on the list object [l]. *)
Definition get_head (l : nat) : M item :=
  λ w, match read_list w l with
       | [] => (Raise IndexError, w)
       | i :: _ => (Ok i, w)
       end.

(** [elem, schema = it]: a tuple unpacks; a component is taken not to. *)
Definition unpack_item (it : item) : M (pyarg * pyarg) :=
  match it with
  | IPair e s => mret (AElem e, ASchema s)
  | IComp _ => raise (TypeError "cannot unpack non-iterable object")
  end.

(** [elem, schema = obj[k]] on the list object [l]. *)
Definition unpack_at (l k : nat) : M (pyarg * pyarg) :=
  λ w, match read_list w l !! k with
       | None => (Raise IndexError, w)
       | Some it => unpack_item it w
       end.

Section Resolver.
(** Class attributes of the component classes ([components.py]). *)
Variable XSD_GLOBAL_TAG : XsdClass → string.
Variable FACTORY_KWARG : XsdClass → string.

(** The arguments of [create_lookup_function]. *)
Variable map_name : MapName.
Variable xsd_classes : classes.

(** The selection of the construction function by the tag of [elem]:
    the [for ... else] over a tuple of classes, or the single class. *)
Fixpoint factory_by_tag (kwargs : gmap string factory) (elem : pyarg)
    (cs : list XsdClass) : M factory :=
  match cs with
  | [] => raise (XMLSchemaValueError "Element not compatible!")
  | xsd_class :: cs' =>
      t ← arg_tag elem;
      if decide (t = XSD_GLOBAL_TAG xsd_class)
      then kwargs_get kwargs (FACTORY_KWARG xsd_class)
      else factory_by_tag kwargs elem cs'
  end.

Definition select_factory (kwargs : gmap string factory) (elem : pyarg) : M factory :=
  match xsd_classes with
  | ClassTuple cs => factory_by_tag kwargs elem cs
  | OneClass c => kwargs_get kwargs (FACTORY_KWARG c)
  end.

(** [for k in range(start, len(obj)): ...] of the redefine case; [ks]
    is the rest of the range. *)
Fixpoint redefine_loop (kwargs : gmap string factory) (l : nat) (ks : list nat)
    (xsd_instance : nat) : M nat :=
  match ks with
  | [] => mret xsd_instance
  | k :: ks' =>
      '(elem, schema) ← unpack_at l k;
      factory_function ← select_factory kwargs elem;
      xsd_instance ← factory_function elem schema (Some xsd_instance) (Some true);
      _ ← set_head l xsd_instance;
      redefine_loop kwargs l ks' xsd_instance
  end.

(** The body of the redefine case for the list object [l] whose head
    is the component [c]. *)
Definition lookup_redefine (kwargs : gmap string factory) (qname : string)
    (l : nat) (c : nat) (len : nat) : M item :=
  let start := 1 in
  xsd_instance ← redefine_loop kwargs l (seq start (len - start)) c;
  _ ← modify (set_slot map_name qname (SItem (IComp xsd_instance)));
  get_head l.

(** The last case: [elem, schema = obj], build as a global declaration. *)
Definition lookup_construct (kwargs : gmap string factory) (qname : string)
    (elem schema : pyarg) : M item :=
  factory_function ← select_factory kwargs elem;
  obj ← factory_function elem schema None (Some true);
  _ ← modify (set_slot map_name qname (SItem (IComp obj)));
  mret (IComp obj).

Definition wrong_type (qname : string) : exn :=
  XMLSchemaTypeError (types_desc xsd_classes) qname.

Definition lookup (qname : string) (kwargs : gmap string factory) : M item :=
  w ← get_world;
  match table map_name w !! qname with
  | None => raise (XMLSchemaKeyError (types_desc xsd_classes) qname)
  | Some (SItem (IComp c)) =>
      o ← deref c;
      if isinstance o xsd_classes then
        if built o then mret (IComp c)
        else
          factory_function ← kwargs_get kwargs (FACTORY_KWARG (cls o));
          obj2 ← factory_function (AElem (elem o)) (ASchema (schema o)) (Some c) (Some true);
          _ ← modify (set_slot map_name qname (SItem (IComp obj2)));
          mret (IComp obj2)
      else raise (wrong_type qname)
  | Some (SItem (IPair e s)) =>
      lookup_construct kwargs qname (AElem e) (ASchema s)
  | Some (SList l) =>
      let obj := read_list w l in
      head_built ←
        match obj with
        | IComp c :: _ => o ← deref c; mret (if isinstance o xsd_classes then Some c else None)
        | _ => mret None
        end;
      match head_built, obj with
      | Some c, _ => lookup_redefine kwargs qname l c (length obj)
      | None, [i0; i1] => lookup_construct kwargs qname (AItem i0) (AItem i1)
      | None, _ => raise (wrong_type qname)
      end
  end.

(** *** The redefine case as a fold

    The items behind the head of the list, folded from the head: each
    construction function is given the component built before it, and the
    head of the list object is overwritten after every step. *)
Fixpoint fold_chain (kwargs : gmap string factory) (l : nat) (rest : list item)
    (xsd_instance : nat) : M nat :=
  match rest with
  | [] => mret xsd_instance
  | it :: rest' =>
      '(elem, schema) ← unpack_item it;
      factory_function ← select_factory kwargs elem;
      xsd_instance ← factory_function elem schema (Some xsd_instance) (Some true);
      _ ← set_head l xsd_instance;
      fold_chain kwargs l rest' xsd_instance
  end.

End Resolver.

(** The construction functions of [kwargs] leave the items behind the
    head of the list object [l] as they are. *)
Definition chain_untouched (kwargs : gmap string factory) (l : nat) : Prop :=
  ∀ key f, kwargs !! key = Some f →
    ∀ a b i g u r u', f a b i g u = (r, u') → tail (read_list u' l) = tail (read_list u l).

(** ** The registration ledger ([XsdGlobals.register], [iter_schemas], [clear]) *)

Definition set_namespaces (ns : gmap string (list XMLSchema)) (g : XsdGlobals) : XsdGlobals :=
  {| validation := validation g; namespaces := ns; resources := resources g;
     types := types g; attributes := attributes g;
     attribute_groups := attribute_groups g; groups := groups g;
     notations := notations g; elements := elements g;
     substitution_groups := substitution_groups g;
     base_elements := base_elements g |}.

Definition set_resources (rs : gmap string XMLSchema) (g : XsdGlobals) : XsdGlobals :=
  {| validation := validation g; namespaces := namespaces g; resources := rs;
     types := types g; attributes := attributes g;
     attribute_groups := attribute_groups g; groups := groups g;
     notations := notations g; elements := elements g;
     substitution_groups := substitution_groups g;
     base_elements := base_elements g |}.

Definition set_substitution_groups (sg : gmap string (gset nat)) (g : XsdGlobals) : XsdGlobals :=
  {| validation := validation g; namespaces := namespaces g;
     resources := resources g; types := types g; attributes := attributes g;
     attribute_groups := attribute_groups g; groups := groups g;
     notations := notations g; elements := elements g;
     substitution_groups := sg; base_elements := base_elements g |}.

(** Truth value of [schema.uri]: [None] and the empty string are false. *)
Definition uri_given (schema : XMLSchema) : option string :=
  match uri schema with
  | Some u => if decide (u = "") then None else Some u
  | None => None
  end.

(** [for ns_schemas in self.namespaces.values(): for schema in ns_schemas] *)
Definition iter_schemas (g : XsdGlobals) : list XMLSchema :=
  ns_schemas ← (map_to_list (namespaces g)).*2; ns_schemas.

Section Ledger.
(** [URIDict.normalize] of [utils.py]. *)
Variable uri_normalize : string → string.

(** The second half of [register]: the target-namespace group. *)
Definition register_namespace (schema : XMLSchema) (g : XsdGlobals) : XsdGlobals :=
  let key := uri_normalize (target_namespace schema) in
  match namespaces g !! key with
  | None => set_namespaces (<[key := [schema]]> (namespaces g)) g
  | Some ns_schemas =>
      if decide (schema ∈ ns_schemas) then g
      else if existsb (λ obj, bool_decide (uri schema = uri obj)) ns_schemas then g
      else set_namespaces (<[key := ns_schemas ++ [schema]]> (namespaces g)) g
  end.

Definition register_globals (schema : XMLSchema) (g : XsdGlobals) : XsdGlobals :=
  match uri_given schema with
  | Some u =>
      match resources g !! uri_normalize u with
      | None =>
          register_namespace schema
            (set_resources (<[uri_normalize u := schema]> (resources g)) g)
      | Some known =>
          if decide (known ≠ schema) then g else register_namespace schema g
      end
  | None => register_namespace schema g
  end.

Definition register (schema : XMLSchema) : M unit :=
  modify (with_globals (register_globals schema)).

(** The invariant of the two registries: a schema indexed by its
    resource belongs to the group of its target namespace, and the
    resource of every grouped schema is indexed. *)
Definition ledger_consistent (g : XsdGlobals) : Prop :=
  (∀ k schema, resources g !! k = Some schema →
     ∃ ns_schemas,
       namespaces g !! uri_normalize (target_namespace schema) = Some ns_schemas
       ∧ schema ∈ ns_schemas)
  ∧ (∀ k ns_schemas obj u, namespaces g !! k = Some ns_schemas → obj ∈ ns_schemas →
       uri_given obj = Some u → is_Some (resources g !! uri_normalize u)).

End Ledger.

(** The shape of the groups that [register] builds: no group is empty,
    no two schemas of a group have the same resource, and every schema is
    in the group of its own target namespace. *)
Definition groups_well_formed (uri_normalize : string → string)
    (ns : gmap string (list XMLSchema)) : Prop :=
  ∀ k grp, ns !! k = Some grp →
    grp ≠ [] ∧ NoDup (uri <$> grp)
    ∧ ∀ s, s ∈ grp → uri_normalize (target_namespace s) = k.

(** [schema.errors = []] for every schema of the list. *)
Definition reset_errors (schemas : list XMLSchema) (es : gmap nat (list string))
    : gmap nat (list string) :=
  foldl (λ es schema, <[s_id schema := []]> es) es schemas.

Definition clear_globals (remove_schemas : bool) (g : XsdGlobals) : XsdGlobals :=
  {| validation := validation g;
     namespaces := if remove_schemas then ∅ else namespaces g;
     resources := if remove_schemas then ∅ else resources g;
     types := ∅; attributes := ∅; attribute_groups := ∅; groups := ∅;
     notations := ∅; elements := ∅;
     substitution_groups := ∅; base_elements := ∅ |}.

Definition clear (remove_schemas : bool) : M unit :=
  λ w,
    (Ok tt,
     {| globals := clear_globals remove_schemas (globals w);
        comps := comps w; lists := lists w;
        errors := reset_errors (iter_schemas (globals w)) (errors w) |}).


(** ** The build orchestrator ([XsdGlobals.build]) *)

Definition set_schema (s : XMLSchema) (o : XsdComponent) : XsdComponent :=
  {| cls := cls o; built := built o; elem := elem o; schema := s;
     comp_name := comp_name o; substitution_group := substitution_group o;
     comp_namespaces := comp_namespaces o;
     comp_target_namespace := comp_target_namespace o; content := content o |}.

Definition set_content (its : list item) (o : XsdComponent) : XsdComponent :=
  {| cls := cls o; built := built o; elem := elem o; schema := schema o;
     comp_name := comp_name o; substitution_group := substitution_group o;
     comp_namespaces := comp_namespaces o;
     comp_target_namespace := comp_target_namespace o; content := its |}.

(** [self.global_maps] *)
Definition global_maps : list MapName :=
  [Notations; Types; Attributes; AttributeGroups; Groups; Elements].

(** The keys and the values of a dictionary, in iteration order. *)
Definition keys {V} (d : gmap string V) : list string := (map_to_list d).*1.
Definition values {V} (d : gmap string V) : list V := (map_to_list d).*2.

(** A table value used as a component: tuples and lists have none of
    the attributes of a component. *)
Definition as_component (attr : string) (v : slot) : M nat :=
  match v with
  | SItem (IComp c) => mret c
  | _ => raise (AttributeError attr)
  end.

(** [for qname in d: body(qname)] over the table [m]: the iterator
    raises when the size of the dictionary has changed. *)
Definition for_each_key (m : MapName) (body : string → M unit) : M unit :=
  w ← get_world;
  let d := table m w in
  mfor (keys d) (λ qname,
    _ ← body qname;
    w' ← get_world;
    if decide (size (table m w') = size d) then mret tt
    else raise (RuntimeError "dictionary changed size during iteration")).

(** [for obj in d.values(): body(obj)], with the same check. *)
Definition for_each_value (m : MapName) (body : slot → M unit) : M unit :=
  w ← get_world;
  let d := table m w in
  mfor (values d) (λ obj,
    _ ← body obj;
    w' ← get_world;
    if decide (size (table m w') = size d) then mret tt
    else raise (RuntimeError "dictionary changed size during iteration")).

(** The conjunction that [build] tests before anything else. *)
Definition not_cleared (w : World) : bool :=
  existsb (λ schema, bool_decide (schema_errors w schema ≠ [])) (iter_schemas (globals w))
  || existsb (λ m, bool_decide (table m w ≠ ∅)) global_maps
  || bool_decide (base_elements (globals w) ≠ ∅)
  || bool_decide (substitution_groups (globals w) ≠ ∅).

Section Orchestrator.
(** Collaborators: [utils.py], [qnames.py], [components.py]. *)
Variable uri_normalize : string → string.
Variable get_qname : string → string → string.
Variable reference_to_qname : string → list (string * string) → string.
Variable get_xsd_attribute : Element → string → string.
Variable iterchildren_xsd_redefine : Element → list Element.
Variable iterchildren_by_tag : string → Element → list Element.
Variable XSD_GLOBAL_TAG : XsdClass → string.
Variable FACTORY_KWARG : XsdClass → string.
Variables XSD_NAMESPACE_PATH XSD_ANY_TYPE XSD_ANY_SIMPLE_TYPE XSD_ANY_ATOMIC_TYPE : string.
Variables XSD_SIMPLE_TYPE_TAG XSD_ATTRIBUTE_TAG XSD_ATTRIBUTE_GROUP_TAG
  XSD_COMPLEX_TYPE_TAG XSD_ELEMENT_TAG XSD_GROUP_TAG XSD_NOTATION_TAG : string.
(** Methods of components and schemas. *)
Variable iter_components : World → nat → XsdClass → list nat.
Variable iter_elements : World → nat → list nat.
Variable iter_errors : XMLSchema → Element → M (list string).
Variable schema_check : XMLSchema → M unit.
(** The validator: [self.validator.OPTIONS] and [BUILTIN_TYPES]. *)
Variable OPTIONS : gmap string factory.
Variable BUILTIN_TYPES : gmap string nat.

Definition load (tag : string) : MapName → list XMLSchema → M unit :=
  load_xsd_globals get_qname get_xsd_attribute iterchildren_xsd_redefine
    (iterchildren_by_tag tag).

Definition load_xsd_simple_types := load XSD_SIMPLE_TYPE_TAG.
Definition load_xsd_attributes := load XSD_ATTRIBUTE_TAG.
Definition load_xsd_attribute_groups := load XSD_ATTRIBUTE_GROUP_TAG.
Definition load_xsd_complex_types := load XSD_COMPLEX_TYPE_TAG.
Definition load_xsd_elements := load XSD_ELEMENT_TAG.
Definition load_xsd_groups := load XSD_GROUP_TAG.
Definition load_xsd_notations := load XSD_NOTATION_TAG.

Definition lookup_with := lookup XSD_GLOBAL_TAG FACTORY_KWARG.

Definition lookup_type := lookup_with Types (ClassTuple [XsdSimpleType; XsdComplexType]).
Definition lookup_attribute := lookup_with Attributes (OneClass XsdAttribute).
Definition lookup_attribute_group := lookup_with AttributeGroups (OneClass XsdAttributeGroup).
Definition lookup_group := lookup_with Groups (OneClass XsdGroup).
Definition lookup_notation := lookup_with Notations (OneClass XsdNotation).
Definition lookup_element := lookup_with Elements (OneClass XsdElement).
Definition lookup_base_element := lookup_with BaseElements (OneClass XsdElement).

(** [self.types[qname].schema = meta_schema] *)
Definition set_type_schema (qname : string) (meta_schema : XMLSchema) : M unit :=
  w ← get_world;
  match types (globals w) !! qname with
  | None => raise (KeyError qname)
  | Some v =>
      c ← as_component "schema" v;
      o ← deref c;
      modify (with_comps (<[c := set_schema meta_schema o]>))
  end.

(** Step 1: the built-in types. *)
Definition seed_builtins (meta_schema : XMLSchema) : M unit :=
  _ ← modify (with_globals (λ g,
        set_map Types ((SItem ∘ IComp <$> BUILTIN_TYPES) ∪ types g) g));
  _ ← set_type_schema XSD_ANY_TYPE meta_schema;
  _ ← set_type_schema XSD_ANY_SIMPLE_TYPE meta_schema;
  set_type_schema XSD_ANY_ATOMIC_TYPE meta_schema.

(** Step 2: in lax mode, the errors of every schema against the
    meta-schema are added to its error list. *)
Definition check_with_meta_schema : M unit :=
  w ← get_world;
  if decide (validation (globals w) = "lax") then
    mfor (iter_schemas (globals w)) (λ schema,
      es ← iter_errors schema (root schema);
      modify (λ w, with_errors (<[s_id schema := schema_errors w schema ++ es]>) w))
  else mret tt.

(** Step 3: the seven loads. *)
Definition load_phase : M unit :=
  let schemas := λ w : World, iter_schemas (globals w) in
  _ ← (w ← get_world; load_xsd_notations Notations (schemas w));
  _ ← (w ← get_world; load_xsd_simple_types Types (schemas w));
  _ ← (w ← get_world; load_xsd_attributes Attributes (schemas w));
  _ ← (w ← get_world; load_xsd_attribute_groups AttributeGroups (schemas w));
  _ ← (w ← get_world; load_xsd_complex_types Types (schemas w));
  _ ← (w ← get_world; load_xsd_elements Elements (schemas w));
  (w ← get_world; load_xsd_groups Groups (schemas w)).

(** Step 4: a lookup of every name of every table. *)
Definition resolve_phase (kwargs : gmap string factory) : M unit :=
  _ ← for_each_key Notations (λ qname, _ ← lookup_notation qname kwargs; mret tt);
  _ ← for_each_key Attributes (λ qname, _ ← lookup_attribute qname kwargs; mret tt);
  _ ← for_each_key AttributeGroups (λ qname, _ ← lookup_attribute_group qname kwargs; mret tt);
  _ ← for_each_key Types (λ qname, _ ← lookup_type qname kwargs; mret tt);
  _ ← for_each_key Elements (λ qname, _ ← lookup_element qname kwargs; mret tt);
  for_each_key Groups (λ qname, _ ← lookup_group qname kwargs; mret tt).

(** Step 5, for one model group [obj]: every item that is still a
    tuple is replaced by the element built from it. *)
Definition build_group_item (element_factory : option factory) (obj k : nat) : M unit :=
  o ← deref obj;
  match content o !! k with
  | None => raise IndexError
  | Some (IComp _) => mret tt
  | Some (IPair e s) =>
      f ← match element_factory with
          | Some f => mret f
          | None => raise (TypeError "'NoneType' object is not callable")
          end;
      c ← f (AElem e) (ASchema s) None None;
      o' ← deref obj;
      if decide (k < length (content o'))
      then modify (with_comps (<[obj := set_content (<[k := IComp c]> (content o')) o']>))
      else raise IndexError
  end.

Definition build_group_items (element_factory : option factory) (obj : nat) : M unit :=
  o ← deref obj;
  mfor (seq 0 (length (content o))) (build_group_item element_factory obj).

Definition build_nested_elements (kwargs : gmap string factory) : M unit :=
  let element_factory := kwargs !! "element_factory" in
  mfor global_maps (λ m,
    for_each_value m (λ xsd_global,
      c ← as_component "iter_components" xsd_global;
      w ← get_world;
      mfor (iter_components w c XsdGroup) (build_group_items element_factory))).

(** Step 6: the name under which an element joins a substitution group. *)
Definition head_name (o : XsdComponent) (ref : string) : M string :=
  let name := reference_to_qname ref (comp_namespaces o) in
  match name with
  | EmptyString => raise IndexError
  | String c _ =>
      if decide (c ≠ "{"%char)
      then mret (get_qname (comp_target_namespace o) name)
      else mret name
  end.

(** [try: self.substitution_groups[name].add(xsd_element)] with its
    [KeyError] handler. *)
Definition add_to_substitution_group (name : string) (xsd_element : nat)
    (sg : gmap string (gset nat)) : gmap string (gset nat) :=
  match sg !! name with
  | Some members => <[name := members ∪ {[xsd_element]}]> sg
  | None => <[name := {[xsd_element]}]> sg
  end.

Definition join_substitution_group (v : slot) : M unit :=
  xsd_element ← as_component "substitution_group" v;
  o ← deref xsd_element;
  match substitution_group o with
  | Some ref =>
      if decide (ref = "") then mret tt
      else
        name ← head_name o ref;
        modify (with_globals (λ g,
          set_substitution_groups
            (add_to_substitution_group name xsd_element (substitution_groups g)) g))
  | None => mret tt
  end.

Definition build_substitution_groups : M unit :=
  w ← get_world;
  mfor (values (elements (globals w))) join_substitution_group.

(** Step 7: [base_elements]. *)
Definition add_group_elements (v : slot) : M unit :=
  group ← as_component "iter_elements" v;
  w ← get_world;
  mfor (iter_elements w group) (λ e,
    o ← deref e;
    modify (set_slot BaseElements (comp_name o) (SItem (IComp e)))).

Definition update_base_elements : M unit :=
  _ ← modify (with_globals (λ g,
        set_map BaseElements (elements g ∪ base_elements g) g));
  w ← get_world;
  mfor (values (groups (globals w))) add_group_elements.

(** [XsdGlobals.check] *)
Definition check : M unit :=
  w ← get_world;
  mfor (iter_schemas (globals w)) schema_check.

(** Everything [build] does once its preconditions hold. *)
Definition build_steps (skip_check : bool) (meta_schema : XMLSchema)
    (kwargs : gmap string factory) : M unit :=
  _ ← seed_builtins meta_schema;
  _ ← check_with_meta_schema;
  _ ← load_phase;
  _ ← resolve_phase kwargs;
  _ ← build_nested_elements kwargs;
  _ ← build_substitution_groups;
  _ ← update_base_elements;
  if skip_check then mret tt else check.

Definition build (skip_check : bool) : M unit :=
  let kwargs := OPTIONS in
  w ← get_world;
  if not_cleared w then raise (XMLSchemaValueError "is not cleared.")
  else
    match namespaces (globals w) !! uri_normalize XSD_NAMESPACE_PATH with
    | None => raise (XMLSchemaValueError "namespace is not registered.")
    | Some [] => raise IndexError
    | Some (meta_schema :: _) => build_steps skip_check meta_schema kwargs
    end.

(** The qualified name of the head that a reference stands for: the
    resolved reference, expanded with the target namespace of the element
    when it is not in the [{uri}local] form. *)
Definition expanded_head (o : XsdComponent) (ref : string) : string :=
  let name := reference_to_qname ref (comp_namespaces o) in
  match name with
  | String c _ =>
      if decide (c = "{"%char) then name
      else get_qname (comp_target_namespace o) name
  | EmptyString => get_qname (comp_target_namespace o) name
  end.

(** The element [c] with attributes [o] is in the set of its head. *)
Definition joined (sg : gmap string (gset nat)) (c : nat) (o : XsdComponent) : Prop :=
  ∀ ref, substitution_group o = Some ref → ref ≠ "" →
    ∃ members, sg !! expanded_head o ref = Some members ∧ c ∈ members.

End Orchestrator.

(** What stays as it is while the base elements are derived and the
    schemas are checked. *)
Definition elements_frame (w w' : World) : Prop :=
  comps w' = comps w ∧ elements (globals w') = elements (globals w)
  ∧ substitution_groups (globals w') = substitution_groups (globals w).

(** ** The namespace-filtered view ([NamespaceView]) *)

(** Where the scan of a conversion specification stands after its [%]. *)
Inductive spec_pos := PStart | PFlags | PWidth | PDot | PPrec | PConv.

Definition is_flag (c : ascii) : bool :=
  bool_decide (c ∈ ["#"; "0"; "-"; " "; "+"]%char).
Definition is_digit (c : ascii) : bool :=
  bool_decide (c ∈ ["0"; "1"; "2"; "3"; "4"; "5"; "6"; "7"; "8"; "9"]%char).
Definition is_length_modifier (c : ascii) : bool :=
  bool_decide (c ∈ ["h"; "l"; "L"]%char).
Definition is_conversion (c : ascii) : bool :=
  bool_decide (c ∈ ["d"; "i"; "o"; "u"; "x"; "X"; "e"; "E"; "f"; "F"; "g"; "G";
                    "c"; "r"; "s"; "a"]%char).

Definition prepend (c : ascii) (r : result string) : result string :=
  match r with Ok s => Ok (String c s) | Raise e => Raise e end.

Definition prepend_string (a : string) (r : result string) : result string :=
  match r with Ok s => Ok (a ++ s)%string | Raise e => Raise e end.

(** [fmt % arg] for one string argument: printf-style formatting as far
    as a [key_fmt] needs it.  [pos] is [None] in literal text; [plain]
    says that the specification under scan has no flag, width, precision
    or length modifier so far; [arg] is [None] once the argument is used.
    A conversion that uses the argument is carried out only for a plain
    [%s].  For any other one Python formats the argument and goes on; in a
    format that ends with a further [%s], as every [key_fmt] does, it then
    finds no argument left and raises [TypeError], which is what is
    returned here at once. *)
Fixpoint percent_format_from (pos : option spec_pos) (plain : bool)
    (fmt : string) (arg : option string) : result string :=
  match fmt with
  | EmptyString =>
      match pos, arg with
      | Some _, _ => Raise (ValueError "incomplete format")
      | None, Some _ => Raise (TypeError "not all arguments converted during string formatting")
      | None, None => Ok ""
      end
  | String c fmt' =>
      let convert :=
        if decide (c = "%"%char) then prepend c (percent_format_from None true fmt' arg)
        else match arg with
             | None => Raise (TypeError "not enough arguments for format string")
             | Some a =>
                 if bool_decide (c = "s"%char) && plain
                 then prepend_string a (percent_format_from None true fmt' None)
                 else if is_conversion c
                 then Raise (TypeError "not enough arguments for format string")
                 else Raise (ValueError "unsupported format character")
             end in
      let star :=
        match arg with
        | Some _ => Raise (TypeError "* wants int")
        | None => Raise (TypeError "not enough arguments for format string")
        end in
      let after_digits :=
        if is_length_modifier c then percent_format_from (Some PConv) false fmt' arg
        else convert in
      let after_width :=
        if decide (c = "."%char) then percent_format_from (Some PDot) false fmt' arg
        else after_digits in
      let after_flags :=
        if is_flag c then percent_format_from (Some PFlags) false fmt' arg
        else if decide (c = "*"%char) then star
        else if is_digit c then percent_format_from (Some PWidth) false fmt' arg
        else after_width in
      match pos with
      | None =>
          if decide (c = "%"%char) then percent_format_from (Some PStart) true fmt' arg
          else prepend c (percent_format_from None true fmt' arg)
      | Some PStart =>
          if decide (c = "("%char) then Raise (TypeError "format requires a mapping")
          else after_flags
      | Some PFlags => after_flags
      | Some PWidth =>
          if is_digit c then percent_format_from (Some PWidth) false fmt' arg
          else after_width
      | Some PDot =>
          if decide (c = "*"%char) then star
          else if is_digit c then percent_format_from (Some PPrec) false fmt' arg
          else after_digits
      | Some PPrec =>
          if is_digit c then percent_format_from (Some PPrec) false fmt' arg
          else after_digits
      | Some PConv => convert
      end
  end.

Definition percent_format (fmt arg : string) : result string :=
  percent_format_from None true fmt (Some arg).

Record NamespaceView (V : Type) := {
  target_dict : gmap string V;
  namespace : string;
  key_fmt : string
}.
Arguments target_dict {V} _.
Arguments namespace {V} _.
Arguments key_fmt {V} _.

(** [NamespaceView.__init__] *)
Definition NamespaceView_init {V} (qname_dict : gmap string V) (namespace_uri : string)
    : NamespaceView V :=
  {| target_dict := qname_dict;
     namespace := namespace_uri;
     key_fmt := if decide (namespace_uri = "") then "%s"
                else ("{" ++ namespace_uri ++ "}%s")%string |}.

(** The probe key for a local name: the qualified form [{U}local] for a
    namespace [U], the local name itself for the empty namespace. *)
Definition promoted (namespace_uri key : string) : string :=
  if decide (namespace_uri = "") then key
  else ("{" ++ namespace_uri ++ "}" ++ key)%string.

Fixpoint has_percent (s : string) : bool :=
  match s with
  | EmptyString => false
  | String c s' => bool_decide (c = "%"%char) || has_percent s'
  end.

Section View.
Context {V : Type}.
(** Collaborators from [utils.py] and [qnames.py]. *)
Variable get_namespace : string → string.
Variable local_name : string → string.

(** [__getitem__] *)
Definition getitem (self : NamespaceView V) (key : string) : result V :=
  match percent_format (key_fmt self) key with
  | Raise e => Raise e
  | Ok k =>
      match target_dict self !! k with
      | Some v => Ok v
      | None => Raise (KeyError k)
      end
  end.

(** [__contains__] *)
Definition contains (self : NamespaceView V) (key : string) : result bool :=
  match percent_format (key_fmt self) key with
  | Raise e => Raise e
  | Ok k => Ok (bool_decide (is_Some (target_dict self !! k)))
  end.

(** The items of [target_dict] that pass the test of both comprehensions. *)
Definition own_items (self : NamespaceView V) : list (string * V) :=
  filter (λ kv, namespace self = get_namespace kv.1) (map_to_list (target_dict self)).

(** [as_dict]: a dictionary comprehension inserts item after item, a
    later item replacing an earlier one with the same key. *)
Definition as_dict (self : NamespaceView V) (fqn_keys : bool) : gmap string V :=
  if fqn_keys
  then foldl (λ d kv, <[kv.1 := kv.2]> d) ∅ (own_items self)
  else foldl (λ d kv, <[local_name kv.1 := kv.2]> d) ∅ (own_items self).

(** [__len__] and [__iter__] *)
Definition len (self : NamespaceView V) : nat := size (as_dict self false).
Definition iter (self : NamespaceView V) : list string := keys (as_dict self false).

End View.

(** ** Concrete collaborators and sample documents

    An instance of the collaborators, used to run the definitions above
    on sample schemas. *)
Module Sample.

Definition XSD_NAMESPACE_PATH : string := "http://www.w3.org/2001/XMLSchema".

(** Modelled from the spec: [get_qname] of [qnames.py], which is not
    part of the sources at hand.  A qualified name has the canonical
    form [{uri}local], or the bare [local] for an empty namespace. *)
Definition get_qname (uri name : string) : string :=
  if decide (uri = "") then name else ("{" ++ uri ++ "}" ++ name)%string.

(** The text before and after the first closing brace. *)
Fixpoint split_brace (s : string) : option (string * string) :=
  match s with
  | EmptyString => None
  | String c s' =>
      if decide (c = "}"%char) then Some ("", s')
      else match split_brace s' with
           | Some (before, after) => Some (String c before, after)
           | None => None
           end
  end.

(** Modelled from the spec: [get_namespace] of [utils.py] and
    [local_name] of [qnames.py], the two parts of the canonical form
    [{uri}local]; a name without a leading [{uri}] has the empty
    namespace and is its own local name. *)
Definition get_namespace (name : string) : string :=
  match name with
  | String "{"%char s =>
      match split_brace s with Some (ns, _) => ns | None => "" end
  | _ => ""
  end.

Definition local_name (qname : string) : string :=
  match qname with
  | String "{"%char s =>
      match split_brace s with Some (_, l) => l | None => qname end
  | _ => qname
  end.

Definition xsd (local : string) : string := get_qname XSD_NAMESPACE_PATH local.

Definition XSD_REDEFINE_TAG := xsd "redefine".
Definition XSD_SIMPLE_TYPE_TAG := xsd "simpleType".
Definition XSD_COMPLEX_TYPE_TAG := xsd "complexType".
Definition XSD_ATTRIBUTE_TAG := xsd "attribute".
Definition XSD_ATTRIBUTE_GROUP_TAG := xsd "attributeGroup".
Definition XSD_ELEMENT_TAG := xsd "element".
Definition XSD_GROUP_TAG := xsd "group".
Definition XSD_NOTATION_TAG := xsd "notation".
Definition XSD_ANY_TYPE := xsd "anyType".
Definition XSD_ANY_SIMPLE_TYPE := xsd "anySimpleType".
Definition XSD_ANY_ATOMIC_TYPE := xsd "anyAtomicType".

Definition XSD_GLOBAL_TAG (c : XsdClass) : string :=
  match c with
  | XsdSimpleType => XSD_SIMPLE_TYPE_TAG | XsdComplexType => XSD_COMPLEX_TYPE_TAG
  | XsdAttribute => XSD_ATTRIBUTE_TAG | XsdAttributeGroup => XSD_ATTRIBUTE_GROUP_TAG
  | XsdGroup => XSD_GROUP_TAG | XsdElement => XSD_ELEMENT_TAG
  | XsdNotation => XSD_NOTATION_TAG
  end.

Definition FACTORY_KWARG (c : XsdClass) : string :=
  match c with
  | XsdSimpleType => "simple_type_factory" | XsdComplexType => "complex_type_factory"
  | XsdAttribute => "attribute_factory" | XsdAttributeGroup => "attribute_group_factory"
  | XsdGroup => "group_factory" | XsdElement => "element_factory"
  | XsdNotation => "notation_factory"
  end.

(** [elem.attrib.get(attribute)], the empty string when it is absent. *)
Definition get_attribute (e : Element) (attribute : string) : option string :=
  (λ r, r.2.2) <$> list_find (λ kv, kv.1 = attribute) (attrib e).

Definition get_xsd_attribute (e : Element) (attribute : string) : string :=
  default "" (get_attribute e attribute).

Definition iterchildren_by_tag (t : string) (e : Element) : list Element :=
  filter (λ c, tag c = t) (children e).

Definition iterchildren_xsd_redefine : Element → list Element :=
  iterchildren_by_tag XSD_REDEFINE_TAG.

Definition uri_normalize (u : string) : string := u.

(** A reference is taken as already resolved when it has no prefix. *)
Definition reference_to_qname (ref : string) (nsmap : list (string * string)) : string := ref.

(** A construction function for the class [c]: it allocates a built
    component that keeps its source element and owning schema. *)
Definition make_component (c : XsdClass) : factory :=
  λ elem schema instance is_global w,
    match elem, schema with
    | AElem e, ASchema s =>
        let id := fresh (dom (comps w)) in
        (Ok id,
         with_comps (<[id := {| cls := c; built := true; elem := e; schema := s;
                                comp_name := get_qname (target_namespace s)
                                               (get_xsd_attribute e "name");
                                substitution_group := get_attribute e "substitutionGroup";
                                comp_namespaces := [];
                                comp_target_namespace := target_namespace s;
                                content := [] |}]>) w)
    | _, _ => (Raise (AttributeError "attrib"), w)
    end.

Definition OPTIONS : gmap string factory :=
  list_to_map ((λ c, (FACTORY_KWARG c, make_component c)) <$>
    [XsdSimpleType; XsdComplexType; XsdAttribute; XsdAttributeGroup;
     XsdGroup; XsdElement; XsdNotation]).

Definition iter_components (w : World) (c : nat) (k : XsdClass) : list nat :=
  match comps w !! c with
  | Some o => if decide (cls o = k) then [c] else []
  | None => []
  end.

Definition iter_elements (w : World) (c : nat) : list nat :=
  match comps w !! c with
  | Some o => omap (λ i, match i with IComp e => Some e | IPair _ _ => None end) (content o)
  | None => []
  end.

Definition iter_errors (s : XMLSchema) (e : Element) : M (list string) := mret [].
Definition schema_check (s : XMLSchema) : M unit := mret tt.

(** The empty registry of [XsdGlobals.__init__] and an empty heap. *)
Definition new_globals (validation : string) : XsdGlobals :=
  {| validation := validation; namespaces := ∅; resources := ∅;
     types := ∅; attributes := ∅; attribute_groups := ∅; groups := ∅;
     notations := ∅; elements := ∅; substitution_groups := ∅;
     base_elements := ∅ |}.

Definition new_world : World :=
  {| globals := new_globals "strict"; comps := ∅; lists := ∅; errors := ∅ |}.

(** Declarations and documents. *)
Definition declaration (t name : string) : Element :=
  Elem t [("name", name)] [].

Definition document (uri_ : string) (id : nat) (ns : string) (kids : list Element)
    : XMLSchema :=
  {| s_id := id; uri := Some uri_; target_namespace := ns;
     root := Elem (xsd "schema") [("targetNamespace", ns)] kids |}.

Definition redefine (kids : list Element) : Element :=
  Elem XSD_REDEFINE_TAG [] kids.

(** The world after running [m] from [w]. *)
Definition run {A} (m : M A) (w : World) : World := snd (m w).

(** A world whose types table holds one built simple type. *)
Definition age_type : XsdComponent :=
  {| cls := XsdSimpleType; built := true;
     elem := declaration XSD_SIMPLE_TYPE_TAG "Age";
     schema := document "a.xsd" 1 "urn:a" [declaration XSD_SIMPLE_TYPE_TAG "Age"];
     comp_name := "{urn:a}Age"; substitution_group := None;
     comp_namespaces := []; comp_target_namespace := "urn:a"; content := [] |}.

Definition built_world : World :=
  with_comps (<[0 := age_type]>) (set_slot Types "{urn:a}Age" (SItem (IComp 0)) new_world).

(** A document with one simple type, and the world after its
    registration. *)
Definition age_document : XMLSchema :=
  document "a.xsd" 1 "urn:a" [declaration XSD_SIMPLE_TYPE_TAG "Age"].

Definition registered_world : World :=
  run (register uri_normalize age_document) new_world.

(** The meta-schema, the three anchor types among the built-in types,
    and a heap that holds them. *)
Definition meta_document : XMLSchema := document "XMLSchema.xsd" 0 XSD_NAMESPACE_PATH [].

Definition builtin_type (name : string) : XsdComponent :=
  {| cls := XsdSimpleType; built := true;
     elem := declaration XSD_SIMPLE_TYPE_TAG name;
     schema := meta_document;
     comp_name := xsd name; substitution_group := None;
     comp_namespaces := []; comp_target_namespace := XSD_NAMESPACE_PATH;
     content := [] |}.

Definition BUILTIN_TYPES : gmap string nat :=
  list_to_map [(XSD_ANY_TYPE, 0); (XSD_ANY_SIMPLE_TYPE, 1); (XSD_ANY_ATOMIC_TYPE, 2);
               (xsd "string", 3)].

Definition builtin_world : World :=
  with_comps (λ _, list_to_map [(0, builtin_type "anyType"); (1, builtin_type "anySimpleType");
                                (2, builtin_type "anyAtomicType"); (3, builtin_type "string")])
    new_world.

(** A document with a head element and a member of its substitution
    group, named without a prefix. *)
Definition heads_document : XMLSchema :=
  document "heads.xsd" 1 "urn:a"
    [Elem XSD_ELEMENT_TAG [("name", "head")] [];
     Elem XSD_ELEMENT_TAG [("name", "member"); ("substitutionGroup", "head")] []].

Definition heads_world : World :=
  run (register uri_normalize heads_document)
    (run (register uri_normalize meta_document) builtin_world).

(** A base declaration of the simple type [N] and two documents that
    redefine it, one after the other. *)
Definition base_declaration : Element := Elem XSD_SIMPLE_TYPE_TAG [("name", "N")] [].
Definition first_rewrite : Element :=
  Elem XSD_SIMPLE_TYPE_TAG [("name", "N"); ("id", "first")] [].
Definition second_rewrite : Element :=
  Elem XSD_SIMPLE_TYPE_TAG [("name", "N"); ("id", "second")] [].

Definition base_document : XMLSchema := document "base.xsd" 1 "urn:a" [base_declaration].
Definition first_redefinition : XMLSchema :=
  document "first.xsd" 2 "urn:a" [redefine [first_rewrite]].
Definition second_redefinition : XMLSchema :=
  document "second.xsd" 3 "urn:a" [redefine [second_rewrite]].

Definition load_xsd_simple_types : MapName → list XMLSchema → M unit :=
  load_xsd_globals get_qname get_xsd_attribute iterchildren_xsd_redefine
    (iterchildren_by_tag XSD_SIMPLE_TYPE_TAG).

Definition lookup_type : string → gmap string factory → M item :=
  lookup XSD_GLOBAL_TAG FACTORY_KWARG Types (ClassTuple [XsdSimpleType; XsdComplexType]).

(** The world after loading the simple types of the three documents. *)
Definition chain_world : World :=
  run (load_xsd_simple_types Types
         [base_document; first_redefinition; second_redefinition]) new_world.

(** A table with one name in a namespace whose URI has an escaped
    space, and the view of that namespace. *)
Definition escaped_namespace : string := "http://example.com/a%20b".

Definition escaped_table : gmap string nat :=
  {[ "{http://example.com/a%20b}x" := 7 ]}.

Definition escaped_view : NamespaceView nat :=
  NamespaceView_init escaped_table escaped_namespace.

(** Two documents of the XSD namespace that each redefine the built-in
    type [string], and the two orders of registering them after the
    meta-schema. *)
Definition string_rewrite_a : Element :=
  Elem XSD_SIMPLE_TYPE_TAG [("name", "string"); ("id", "a")] [].
Definition string_rewrite_b : Element :=
  Elem XSD_SIMPLE_TYPE_TAG [("name", "string"); ("id", "b")] [].

Definition document_a : XMLSchema :=
  document "a.xsd" 1 XSD_NAMESPACE_PATH [redefine [string_rewrite_a]].
Definition document_b : XMLSchema :=
  document "b.xsd" 2 XSD_NAMESPACE_PATH [redefine [string_rewrite_b]].

Definition register_all (schemas : list XMLSchema) (w : World) : World :=
  foldl (λ w schema, run (register uri_normalize schema) w) w schemas.

Definition a_then_b_world : World :=
  register_all [meta_document; document_a; document_b] builtin_world.

(** The first order, with the built-in types in place as in step 1 of
    a build. *)
Definition seeded_world : World :=
  run (seed_builtins XSD_ANY_TYPE XSD_ANY_SIMPLE_TYPE XSD_ANY_ATOMIC_TYPE BUILTIN_TYPES
         meta_document) a_then_b_world.

(** The seeded world after the load of the simple types: the slot of
    [string] holds the built-in type and the two rewrites. *)
Definition loaded_world : World :=
  run (load_xsd_simple_types Types (iter_schemas (globals seeded_world))) seeded_world.

(** A table with one name in the namespace [urn:a], and the view of it. *)
Definition plain_table : gmap string nat := {[ "{urn:a}x" := 7 ]}.
Definition plain_view : NamespaceView nat := NamespaceView_init plain_table "urn:a".


(** The orchestrator over these collaborators, for a table of built-in
    types. *)
Definition build (BUILTIN_TYPES : gmap string nat) : bool → M unit :=
  build uri_normalize get_qname reference_to_qname get_xsd_attribute
    iterchildren_xsd_redefine iterchildren_by_tag XSD_GLOBAL_TAG FACTORY_KWARG
    XSD_NAMESPACE_PATH XSD_ANY_TYPE XSD_ANY_SIMPLE_TYPE XSD_ANY_ATOMIC_TYPE
    XSD_SIMPLE_TYPE_TAG XSD_ATTRIBUTE_TAG XSD_ATTRIBUTE_GROUP_TAG
    XSD_COMPLEX_TYPE_TAG XSD_ELEMENT_TAG XSD_GROUP_TAG XSD_NOTATION_TAG
    iter_components iter_elements iter_errors schema_check OPTIONS BUILTIN_TYPES.

(** The world after loading the simple types of the base document alone:
    the slot of [N] holds the raw declaration. *)
Definition declared_world : World :=
  run (load_xsd_simple_types Types [base_document]) new_world.

(** A built head element, and a model group that holds it beside the raw
    declaration of a local element. *)
Definition head_element : XsdComponent :=
  {| cls := XsdElement; built := true;
     elem := declaration XSD_ELEMENT_TAG "head"; schema := heads_document;
     comp_name := "{urn:a}head"; substitution_group := None;
     comp_namespaces := []; comp_target_namespace := "urn:a"; content := [] |}.

Definition local_element : Element := declaration XSD_ELEMENT_TAG "local".

Definition raw_group : XsdComponent :=
  {| cls := XsdGroup; built := true;
     elem := declaration XSD_GROUP_TAG "g"; schema := heads_document;
     comp_name := "{urn:a}g"; substitution_group := None;
     comp_namespaces := []; comp_target_namespace := "urn:a";
     content := [IPair local_element heads_document; IComp 0] |}.

Definition group_world : World :=
  with_comps (λ _, list_to_map [(0, head_element); (1, raw_group)]) new_world.

(** The world after a build of the document with the substitution group. *)
Definition built_heads_world : World := run (build BUILTIN_TYPES false) heads_world.

(** The same world before the derivation of the substitution groups. *)
Definition resolved_heads_world : World :=
  with_globals (set_substitution_groups ∅) built_heads_world.

End Sample.

(** * Properties *)

(** ** The monad *)

Lemma bind_unfold {A B} (m : M A) (f : A → M B) (w : World) :
  (m ≫= f) w =
  match m w with
  | (Ok a, w') => f a w'
  | (Raise e, w') => (Raise e, w')
  end.
Proof. reflexivity. Qed.

Lemma bind_ok {A B} (m : M A) (f : A → M B) (w w' : World) (a : A) :
  m w = (Ok a, w') → (m ≫= f) w = f a w'.
Proof. intros H. rewrite bind_unfold, H. reflexivity. Qed.

Lemma bind_raise {A B} (m : M A) (f : A → M B) (w w' : World) (e : exn) :
  m w = (Raise e, w') → (m ≫= f) w = (Raise e, w').
Proof. intros H. rewrite bind_unfold, H. reflexivity. Qed.

Lemma bind_inv_ok {A B} (m : M A) (f : A → M B) (w w' : World) (b : B) :
  (m ≫= f) w = (Ok b, w') →
  ∃ a w1, m w = (Ok a, w1) ∧ f a w1 = (Ok b, w').
Proof.
  rewrite bind_unfold. destruct (m w) as [[a|e] w1]; [eauto|discriminate].
Qed.

Lemma mfor_app {A} (l1 l2 : list A) (body : A → M unit) (w : World) :
  mfor (l1 ++ l2) body w = (_ ← mfor l1 body; mfor l2 body) w.
Proof.
  revert w. induction l1 as [|x l1 IH]; intros w; simpl.
  - reflexivity.
  - rewrite !bind_unfold. destruct (body x w) as [[[]|e] w1]; [|reflexivity].
    rewrite IH, bind_unfold. reflexivity.
Qed.

(** An invariant of the body of a loop is an invariant of the loop. *)
Lemma mfor_invariant {A} (P : World → Prop) (l : list A) (body : A → M unit) :
  (∀ x w r w', x ∈ l → P w → body x w = (r, w') → P w') →
  ∀ w r w', P w → mfor l body w = (r, w') → P w'.
Proof.
  induction l as [|x l IH]; intros Hbody w r w' HP Hrun; simpl in Hrun.
  - injection Hrun as <- <-. exact HP.
  - rewrite bind_unfold in Hrun.
    destruct (body x w) as [[[]|e] w1] eqn:Hx.
    + eapply IH; [|eapply Hbody; [left|exact HP|exact Hx]|exact Hrun].
      intros y v s v' Hy. apply Hbody. by right.
    + injection Hrun as <- <-. eapply Hbody; [left|exact HP|exact Hx].
Qed.

(** After a loop that returned, every element has been through the body:
    what the body establishes for its element, and later iterations
    keep, holds at the end. *)
Lemma mfor_each {A} (Q : A → World → Prop) (l : list A) (body : A → M unit) :
  (∀ x w w', body x w = (Ok tt, w') → Q x w') →
  (∀ x y w w', Q x w → body y w = (Ok tt, w') → Q x w') →
  ∀ w w', mfor l body w = (Ok tt, w') → ∀ x, x ∈ l → Q x w'.
Proof.
  intros Hest Hkeep.
  induction l as [|y l IH]; intros w w' Hrun x Hx; [by apply elem_of_nil in Hx|].
  simpl in Hrun. apply bind_inv_ok in Hrun as ([] & w1 & Hy & Hrest).
  apply elem_of_cons in Hx as [->|Hx]; [|by eapply IH].
  apply Hest in Hy. clear IH Hest.
  revert w1 Hy Hrest. induction l as [|z l IHl]; intros w1 Hy Hrest; simpl in Hrest.
  - by injection Hrest as <-.
  - apply bind_inv_ok in Hrest as ([] & w2 & Hz & Hrest). eauto.
Qed.

(** ** The lazy resolver *)

Section ResolverFacts.
Variables XSD_GLOBAL_TAG FACTORY_KWARG : XsdClass → string.
Variable map_name : MapName.
Variable xsd_classes : classes.

Abbreviation lookup_ := (lookup XSD_GLOBAL_TAG FACTORY_KWARG map_name xsd_classes).

(** C3.  A lookup of a name whose slot holds a component of the
    category with [built] set returns that component and leaves the
    world as it was, whatever construction functions are supplied, even
    none at all: no construction function is called.  Hence any number
    of successive lookups return that one component from an unchanged
    world. *)
Theorem lookup_built_is_identity (qname : string) (w : World) (c : nat) (o : XsdComponent) :
  table map_name w !! qname = Some (SItem (IComp c)) →
  comps w !! c = Some o →
  isinstance o xsd_classes = true →
  built o = true →
  (∀ kwargs, lookup_ qname kwargs w = (Ok (IComp c), w))
  ∧ lookup_ qname ∅ w = (Ok (IComp c), w)
  ∧ (∀ kwargs n,
       Nat.iter n (λ rw, lookup_ qname kwargs rw.2) (Ok (IComp c), w)
       = (Ok (IComp c), w)).
Proof.
  intros Hslot Hc Hinst Hbuilt.
  assert (Hone : ∀ kwargs, lookup_ qname kwargs w = (Ok (IComp c), w)).
  { intros kwargs. unfold lookup. rewrite bind_unfold. simpl.
    rewrite Hslot, bind_unfold. unfold deref. rewrite Hc, Hinst, Hbuilt.
    reflexivity. }
  split; [exact Hone|]. split; [apply Hone|].
  intros kwargs n. induction n as [|n IH]; simpl; [reflexivity|].
  rewrite IH. apply Hone.
Qed.

End ResolverFacts.

Lemma lookup_built_is_identity_witness :
  let lookup_type :=
    lookup Sample.XSD_GLOBAL_TAG Sample.FACTORY_KWARG Types
      (ClassTuple [XsdSimpleType; XsdComplexType]) in
  (∀ kwargs, lookup_type "{urn:a}Age" kwargs Sample.built_world
             = (Ok (IComp 0), Sample.built_world))
  ∧ lookup_type "{urn:a}Age" ∅ Sample.built_world = (Ok (IComp 0), Sample.built_world)
  ∧ (∀ kwargs n,
       Nat.iter n (λ rw, lookup_type "{urn:a}Age" kwargs rw.2)
         (Ok (IComp 0), Sample.built_world)
       = (Ok (IComp 0), Sample.built_world)).
Proof.
  apply (lookup_built_is_identity Sample.XSD_GLOBAL_TAG Sample.FACTORY_KWARG Types
           (ClassTuple [XsdSimpleType; XsdComplexType]) "{urn:a}Age"
           Sample.built_world 0 Sample.age_type); reflexivity.
Defined.

(** ** The build orchestrator: preconditions *)

Lemma existsb_elem_of {A} (f : A → bool) (l : list A) (x : A) :
  x ∈ l → f x = true → existsb f l = true.
Proof.
  intros Hx Hf. apply existsb_exists. exists x. split; [|exact Hf].
  by apply list_elem_of_In.
Qed.

Lemma not_cleared_intro (w : World) :
  (∃ schema, schema ∈ iter_schemas (globals w) ∧ schema_errors w schema ≠ [])
  ∨ (∃ m, m ∈ global_maps ∧ table m w ≠ ∅)
  ∨ base_elements (globals w) ≠ ∅
  ∨ substitution_groups (globals w) ≠ ∅ →
  not_cleared w = true.
Proof.
  unfold not_cleared. intros [(s & Hs & He)|[(m & Hm & Ht)|[Hb|Hg]]].
  - rewrite (existsb_elem_of _ _ s Hs); [reflexivity|]. by apply bool_decide_eq_true.
  - rewrite (existsb_elem_of _ _ m Hm), orb_true_r; [reflexivity|].
    by apply bool_decide_eq_true.
  - rewrite (bool_decide_eq_true_2 _ Hb), orb_true_r. reflexivity.
  - rewrite (bool_decide_eq_true_2 _ Hg), orb_true_r. reflexivity.
Qed.

Section OrchestratorFacts.
Variable uri_normalize : string → string.
Variable get_qname : string → string → string.
Variable reference_to_qname : string → list (string * string) → string.
Variable get_xsd_attribute : Element → string → string.
Variable iterchildren_xsd_redefine : Element → list Element.
Variable iterchildren_by_tag : string → Element → list Element.
Variable XSD_GLOBAL_TAG : XsdClass → string.
Variable FACTORY_KWARG : XsdClass → string.
Variables XSD_NAMESPACE_PATH XSD_ANY_TYPE XSD_ANY_SIMPLE_TYPE XSD_ANY_ATOMIC_TYPE : string.
Variables XSD_SIMPLE_TYPE_TAG XSD_ATTRIBUTE_TAG XSD_ATTRIBUTE_GROUP_TAG
  XSD_COMPLEX_TYPE_TAG XSD_ELEMENT_TAG XSD_GROUP_TAG XSD_NOTATION_TAG : string.
Variable iter_components : World → nat → XsdClass → list nat.
Variable iter_elements : World → nat → list nat.
Variable iter_errors : XMLSchema → Element → M (list string).
Variable schema_check : XMLSchema → M unit.
Variable OPTIONS : gmap string factory.
Variable BUILTIN_TYPES : gmap string nat.

Abbreviation build_ :=
  (build uri_normalize get_qname reference_to_qname get_xsd_attribute
     iterchildren_xsd_redefine iterchildren_by_tag XSD_GLOBAL_TAG FACTORY_KWARG
     XSD_NAMESPACE_PATH XSD_ANY_TYPE XSD_ANY_SIMPLE_TYPE XSD_ANY_ATOMIC_TYPE
     XSD_SIMPLE_TYPE_TAG XSD_ATTRIBUTE_TAG XSD_ATTRIBUTE_GROUP_TAG
     XSD_COMPLEX_TYPE_TAG XSD_ELEMENT_TAG XSD_GROUP_TAG XSD_NOTATION_TAG
     iter_components iter_elements iter_errors schema_check OPTIONS BUILTIN_TYPES).

(** C2.  When a registered schema carries errors, or one of the six
    global tables, the base-elements table or the substitution-group table
    is not empty, or the XSD namespace is not registered, [build] raises
    [XMLSchemaValueError] and the world it leaves is the world it was given:
    no table, registry, component, list or error list has changed. *)
Theorem build_refuses_unless_cleared (skip_check : bool) (w : World) :
  (∃ schema, schema ∈ iter_schemas (globals w) ∧ schema_errors w schema ≠ [])
  ∨ (∃ m, m ∈ global_maps ∧ table m w ≠ ∅)
  ∨ base_elements (globals w) ≠ ∅
  ∨ substitution_groups (globals w) ≠ ∅
  ∨ namespaces (globals w) !! uri_normalize XSD_NAMESPACE_PATH = None →
  ∃ msg, build_ skip_check w = (Raise (XMLSchemaValueError msg), w).
Proof.
  intros H. unfold build. rewrite bind_unfold. simpl.
  destruct (not_cleared w) eqn:Hnc; [by eexists|].
  destruct H as [H|[H|[H|[H|H]]]];
    try (rewrite not_cleared_intro in Hnc; [discriminate|by eauto 6]).
  rewrite H. by eexists.
Qed.

(** *** Substitution groups *)

Abbreviation head_name_ := (head_name get_qname reference_to_qname).
Abbreviation join_substitution_group_ := (join_substitution_group get_qname reference_to_qname).
Abbreviation build_substitution_groups_ :=
  (build_substitution_groups get_qname reference_to_qname).
Abbreviation expanded_head_ := (expanded_head get_qname reference_to_qname).
Abbreviation joined_ := (joined get_qname reference_to_qname).

Lemma elem_of_values {V} (d : gmap string V) (v : V) :
  v ∈ values d ↔ ∃ q, d !! q = Some v.
Proof.
  unfold values. rewrite list_elem_of_fmap. split.
  - intros ([q v'] & -> & H). exists q. by apply elem_of_map_to_list in H.
  - intros [q H]. exists (q, v). split; [done|]. by apply elem_of_map_to_list.
Qed.

Lemma head_name_ok (o : XsdComponent) (ref : string) (w w' : World) (n : string) :
  head_name_ o ref w = (Ok n, w') → n = expanded_head_ o ref ∧ w' = w.
Proof.
  unfold head_name, expanded_head_.
  destruct (reference_to_qname ref (comp_namespaces o)) as [|c name]; [discriminate|].
  destruct (decide (c ≠ "{"%char)) as [Hne|Heq].
  - rewrite decide_False by done. by intros [= <- <-].
  - apply dec_stable in Heq. rewrite decide_True by done. by intros [= <- <-].
Qed.

Lemma add_to_substitution_group_member (name : string) (x : nat) (sg : gmap string (gset nat)) :
  ∃ members, add_to_substitution_group name x sg !! name = Some members ∧ x ∈ members.
Proof.
  unfold add_to_substitution_group. destruct (sg !! name) as [ms|];
    rewrite lookup_insert_eq; eexists; (split; [done|set_solver]).
Qed.

Lemma add_to_substitution_group_grows (name : string) (x : nat)
    (sg : gmap string (gset nat)) (n : string) (ms : gset nat) :
  sg !! n = Some ms →
  ∃ ms', add_to_substitution_group name x sg !! n = Some ms' ∧ ms ⊆ ms'.
Proof.
  intros H. unfold add_to_substitution_group.
  destruct (decide (name = n)) as [->|Hne].
  - rewrite H, lookup_insert_eq. eexists. split; [done|set_solver].
  - destruct (sg !! name); rewrite lookup_insert_ne by done; eauto.
Qed.

(** What one iteration of the substitution-group loop does. *)
Lemma join_substitution_group_run (v : slot) (w : World) (r : result unit) (w' : World) :
  join_substitution_group_ v w = (r, w') →
  comps w' = comps w ∧ elements (globals w') = elements (globals w)
  ∧ (r = Ok tt →
     ∃ c o, v = SItem (IComp c) ∧ comps w !! c = Some o
       ∧ substitution_groups (globals w')
         = match substitution_group o with
           | Some ref =>
               if decide (ref = "") then substitution_groups (globals w)
               else add_to_substitution_group (expanded_head_ o ref) c
                      (substitution_groups (globals w))
           | None => substitution_groups (globals w)
           end).
Proof.
  unfold join_substitution_group. rewrite bind_unfold.
  destruct v as [[c|e s]|l]; simpl; try (intros [= <- <-]; by repeat split).
  rewrite bind_unfold. unfold deref.
  destruct (comps w !! c) as [o|] eqn:Hc; [|intros [= <- <-]; by repeat split].
  destruct (substitution_group o) as [ref|] eqn:Hs.
  - destruct (decide (ref = "")) as [->|Hne].
    + intros [= <- <-]. repeat split; try done. intros _. exists c, o.
      rewrite Hs. by rewrite decide_True.
    + rewrite bind_unfold.
      destruct (head_name_ o ref w) as [[n|e] w1] eqn:Hn.
      * apply head_name_ok in Hn as [-> ->]. intros [= <- <-].
        repeat split; try done. intros _. exists c, o.
        rewrite Hs. by rewrite decide_False.
      * assert (w1 = w) as ->.
        { unfold head_name in Hn.
          destruct (reference_to_qname _ _); [by injection Hn|].
          destruct (decide _); by injection Hn. }
        intros [= <- <-]. by repeat split.
  - intros [= <- <-]. repeat split; try done. intros _. exists c, o. by rewrite Hs.
Qed.

(** Step 6 puts every element of the elements table in the set of its
    head and changes neither the table nor the components. *)
Lemma build_substitution_groups_joins (w w' : World) :
  build_substitution_groups_ w = (Ok tt, w') →
  comps w' = comps w ∧ elements (globals w') = elements (globals w)
  ∧ ∀ q v, elements (globals w) !! q = Some v →
      ∃ c o, v = SItem (IComp c) ∧ comps w' !! c = Some o
             ∧ joined_ (substitution_groups (globals w')) c o.
Proof.
  unfold build_substitution_groups. rewrite bind_unfold. simpl. intros Hrun.
  assert (Hframe : comps w' = comps w ∧ elements (globals w') = elements (globals w)).
  { eapply (mfor_invariant (λ v, comps v = comps w ∧ elements (globals v) = elements (globals w)));
      [|done|exact Hrun].
    intros x v r v' _ [E1 E2] Hx.
    apply join_substitution_group_run in Hx as (E1' & E2' & _). split; congruence. }
  destruct Hframe as [Ec Ee]. split; [done|]. split; [done|].
  intros q v Hq.
  apply (mfor_each
           (λ v w, ∃ c o, v = SItem (IComp c) ∧ comps w !! c = Some o
                          ∧ joined_ (substitution_groups (globals w)) c o)
           _ _) with (x := v) in Hrun; [done| | |apply elem_of_values; eauto].
  - intros x u u' Hx. apply join_substitution_group_run in Hx as (E1 & _ & Hok).
    destruct (Hok eq_refl) as (c & o & -> & Hc & Hsg). exists c, o.
    split; [done|]. split; [by rewrite E1|].
    intros ref Href Hne. rewrite Hsg, Href, decide_False by done.
    apply add_to_substitution_group_member.
  - intros x y u u' (c & o & -> & Hc & Hj) Hy.
    apply join_substitution_group_run in Hy as (E1 & _ & Hok).
    destruct (Hok eq_refl) as (c' & o' & -> & Hc' & Hsg). exists c, o.
    split; [done|]. split; [by rewrite E1|].
    intros ref Href Hne. destruct (Hj ref Href Hne) as (ms & Hms & Hin).
    rewrite Hsg. destruct (substitution_group o') as [ref'|]; [|by eauto].
    destruct (decide (ref' = "")); [by eauto|].
    destruct (add_to_substitution_group_grows (expanded_head_ o' ref') c' _ _ _ Hms)
      as (ms' & Hms' & Hsub).
    exists ms'. split; [done|]. set_solver.
Qed.

Abbreviation update_base_elements_ := (update_base_elements iter_elements).
Abbreviation check_ := (check schema_check).

Lemma elements_frame_refl (w : World) : elements_frame w w.
Proof. by repeat split. Qed.

Lemma elements_frame_trans (w1 w2 w3 : World) :
  elements_frame w1 w2 → elements_frame w2 w3 → elements_frame w1 w3.
Proof. intros (?&?&?) (?&?&?). repeat split; congruence. Qed.

Lemma add_group_elements_frame (v : slot) (w : World) (r : result unit) (w' : World) :
  add_group_elements iter_elements v w = (r, w') → elements_frame w w'.
Proof.
  unfold add_group_elements. rewrite bind_unfold.
  destruct v as [[c|e s]|l]; simpl; try (intros [= <- <-]; apply elements_frame_refl).
  rewrite bind_unfold. simpl.
  apply (mfor_invariant (λ v, elements_frame w v)); [|apply elements_frame_refl].
  intros e u r' u' _ Hu. rewrite bind_unfold. unfold deref.
  destruct (comps u !! e) as [o|]; intros [= <- <-]; [|done].
  eapply elements_frame_trans; [exact Hu|]. by repeat split.
Qed.

Lemma update_base_elements_frame (w : World) (r : result unit) (w' : World) :
  update_base_elements_ w = (r, w') → elements_frame w w'.
Proof.
  unfold update_base_elements. rewrite !bind_unfold. simpl.
  apply (mfor_invariant (λ v, elements_frame w v)); [|by repeat split].
  intros v u r' u' _ Hu Hv. apply add_group_elements_frame in Hv.
  by eapply elements_frame_trans.
Qed.

Lemma check_frame (w : World) (r : result unit) (w' : World) :
  (∀ s u r u', schema_check s u = (r, u') → elements_frame u u') →
  check_ w = (r, w') → elements_frame w w'.
Proof.
  intros Hcheck. unfold check. rewrite bind_unfold. simpl.
  apply (mfor_invariant (λ v, elements_frame w v)); [|apply elements_frame_refl].
  intros s u r' u' _ Hu Hs. apply Hcheck in Hs. by eapply elements_frame_trans.
Qed.

(** C7.  Let [schema.check()] leave the components, the elements table
    and the substitution groups alone.  After a [build] that returned, every
    slot of the elements table holds a component, and when that element
    names a substitution-group head, the table of substitution groups has a
    set under the qualified name of the head (the resolved reference,
    expanded with the target namespace of the element when it carries no
    namespace) and the element is a member of it.  A first membership
    creates the set as a singleton; a later one adds to the set. *)
Theorem built_elements_join_their_heads (skip_check : bool) (w w' : World) :
  (∀ s u r u', schema_check s u = (r, u') → elements_frame u u') →
  build_ skip_check w = (Ok tt, w') →
  (∀ q v, elements (globals w') !! q = Some v →
     ∃ c o, v = SItem (IComp c) ∧ comps w' !! c = Some o
            ∧ joined_ (substitution_groups (globals w')) c o)
  ∧ (∀ name c sg, sg !! name = None →
       add_to_substitution_group name c sg !! name = Some {[c]})
  ∧ (∀ name c sg members, sg !! name = Some members →
       add_to_substitution_group name c sg !! name = Some (members ∪ {[c]})).
Proof.
  intros Hcheck Hbuild. split; [|split].
  - unfold build in Hbuild. rewrite bind_unfold in Hbuild. simpl in Hbuild.
    destruct (not_cleared w); [discriminate|].
    destruct (namespaces (globals w) !! _) as [[|meta_schema ?]|]; try discriminate.
    unfold build_steps in Hbuild.
    apply bind_inv_ok in Hbuild as ([] & w1 & _ & Hbuild).
    apply bind_inv_ok in Hbuild as ([] & w2 & _ & Hbuild).
    apply bind_inv_ok in Hbuild as ([] & w3 & _ & Hbuild).
    apply bind_inv_ok in Hbuild as ([] & w4 & _ & Hbuild).
    apply bind_inv_ok in Hbuild as ([] & w5 & _ & Hbuild).
    apply bind_inv_ok in Hbuild as ([] & w6 & H6 & Hbuild).
    apply bind_inv_ok in Hbuild as ([] & w7 & H7 & Hbuild).
    apply build_substitution_groups_joins in H6 as (Ec6 & Ee6 & Hj).
    apply update_base_elements_frame in H7.
    assert (H8 : elements_frame w7 w').
    { destruct skip_check; [injection Hbuild as <-; apply elements_frame_refl|].
      by eapply check_frame. }
    destruct (elements_frame_trans _ _ _ H7 H8) as (Ec & Ee & Es).
    intros q v Hv. rewrite Ee, Ee6 in Hv.
    destruct (Hj q v Hv) as (c & o & -> & Hc & Hjoined).
    exists c, o. by rewrite Ec, Es.
  - intros name c sg H. unfold add_to_substitution_group.
    by rewrite H, lookup_insert_eq.
  - intros name c sg members H. unfold add_to_substitution_group.
    by rewrite H, lookup_insert_eq.
Qed.

End OrchestratorFacts.

Lemma build_refuses_unless_cleared_witness :
  (∃ m, m ∈ global_maps ∧ table m Sample.built_world ≠ ∅)
  ∧ ∃ msg, Sample.build ∅ false Sample.built_world
           = (Raise (XMLSchemaValueError msg), Sample.built_world).
Proof.
  assert (H : ∃ m, m ∈ global_maps ∧ table m Sample.built_world ≠ ∅).
  { exists Types. split; [by vm_compute; set_solver|].
    intros E. apply (f_equal (λ t, t !! "{urn:a}Age")) in E. vm_compute in E.
    discriminate E. }
  split; [exact H|].
  apply build_refuses_unless_cleared. right. left. exact H.
Defined.

Lemma built_elements_join_their_heads_witness :
  let w' := (Sample.build Sample.BUILTIN_TYPES false Sample.heads_world).2 in
  (Sample.build Sample.BUILTIN_TYPES false Sample.heads_world).1 = Ok tt
  ∧ elements (globals w') !! "{urn:a}member" = Some (SItem (IComp 4))
  ∧ (substitution_group <$> comps w' !! 4) = Some (Some "head")
  ∧ substitution_groups (globals w') !! "{urn:a}head" = Some {[4]}
  ∧ (∀ q v, elements (globals w') !! q = Some v →
       ∃ c o, v = SItem (IComp c) ∧ comps w' !! c = Some o
              ∧ joined Sample.get_qname Sample.reference_to_qname
                  (substitution_groups (globals w')) c o).
Proof.
  intros w'.
  assert (Hok : (Sample.build Sample.BUILTIN_TYPES false Sample.heads_world).1 = Ok tt)
    by (vm_compute; reflexivity).
  split; [exact Hok|]. split; [vm_compute; reflexivity|].
  split; [vm_compute; reflexivity|]. split; [vm_compute; reflexivity|].
  refine (proj1 (built_elements_join_their_heads
    Sample.uri_normalize Sample.get_qname Sample.reference_to_qname
    Sample.get_xsd_attribute Sample.iterchildren_xsd_redefine Sample.iterchildren_by_tag
    Sample.XSD_GLOBAL_TAG Sample.FACTORY_KWARG
    Sample.XSD_NAMESPACE_PATH Sample.XSD_ANY_TYPE Sample.XSD_ANY_SIMPLE_TYPE
    Sample.XSD_ANY_ATOMIC_TYPE Sample.XSD_SIMPLE_TYPE_TAG Sample.XSD_ATTRIBUTE_TAG
    Sample.XSD_ATTRIBUTE_GROUP_TAG Sample.XSD_COMPLEX_TYPE_TAG Sample.XSD_ELEMENT_TAG
    Sample.XSD_GROUP_TAG Sample.XSD_NOTATION_TAG
    Sample.iter_components Sample.iter_elements Sample.iter_errors Sample.schema_check
    Sample.OPTIONS Sample.BUILTIN_TYPES false Sample.heads_world w' _ _)).
  - intros s u r u' [= <- <-]. apply elements_frame_refl.
  - subst w'. unfold Sample.build in *.
    destruct (build _ _ _ _ _ _ _ _ _ _ _ _ _ _ _ _ _ _ _ _ _ _ _ _ _ _ _) as [r0 w0].
    simpl in Hok. by rewrite Hok.
Defined.

(** ** The registration ledger *)

Lemma reset_errors_lookup (schemas : list XMLSchema) (es : gmap nat (list string)) (k : nat) :
  reset_errors schemas es !! k
  = if decide (k ∈ s_id <$> schemas) then Some [] else es !! k.
Proof.
  unfold reset_errors. revert es.
  induction schemas as [|s schemas IH]; intros es.
  - destruct (decide _) as [Hin|_]; [|reflexivity]. by apply elem_of_nil in Hin.
  - cbn [foldl]. rewrite IH.
    destruct (decide (k ∈ s_id <$> schemas)) as [Hin|Hout].
    + destruct (decide (k ∈ s_id <$> s :: schemas)) as [_|Hno]; [reflexivity|].
      exfalso. apply Hno. rewrite fmap_cons. by right.
    + destruct (decide (k = s_id s)) as [->|Hne].
      * destruct (decide (s_id s ∈ s_id <$> s :: schemas)) as [_|Hno].
        { apply lookup_insert_eq. }
        exfalso. apply Hno. rewrite fmap_cons. by left.
      * rewrite lookup_insert_ne by congruence.
        destruct (decide (k ∈ s_id <$> s :: schemas)) as [Hin|_]; [|reflexivity].
        rewrite fmap_cons in Hin. apply elem_of_cons in Hin as [?|?]; contradiction.
Qed.


Section LedgerFacts.
Variable uri_normalize : string → string.

Abbreviation register_namespace_ := (register_namespace uri_normalize).
Abbreviation register_globals_ := (register_globals uri_normalize).
Abbreviation register_ := (register uri_normalize).
Abbreviation ledger_consistent_ := (ledger_consistent uri_normalize).

Lemma register_namespace_resources (schema : XMLSchema) (g : XsdGlobals) :
  resources (register_namespace_ schema g) = resources g.
Proof.
  unfold register_namespace.
  destruct (namespaces g !! _) as [grp|]; [|reflexivity].
  destruct (decide _); [reflexivity|]. destruct (existsb _ _); reflexivity.
Qed.

(** What [register_namespace] does to the group of a key. *)
Lemma register_namespace_lookup (schema : XMLSchema) (g : XsdGlobals) (k : string) :
  namespaces (register_namespace_ schema g) !! k
  = if decide (k = uri_normalize (target_namespace schema)) then
      match namespaces g !! k with
      | None => Some [schema]
      | Some grp =>
          if decide (schema ∈ grp) then Some grp
          else if existsb (λ obj, bool_decide (uri schema = uri obj)) grp then Some grp
          else Some (grp ++ [schema])
      end
    else namespaces g !! k.
Proof.
  unfold register_namespace. destruct (decide _) as [->|Hne].
  - destruct (namespaces g !! _) as [grp|] eqn:E; simpl.
    + destruct (decide _); [done|]. destruct (existsb _ _); [done|].
      simpl. apply lookup_insert_eq.
    + apply lookup_insert_eq.
  - destruct (namespaces g !! uri_normalize _) as [grp|] eqn:E; simpl.
    + destruct (decide _); [done|]. destruct (existsb _ _); [done|].
      simpl. by apply lookup_insert_ne.
    + by apply lookup_insert_ne.
Qed.

Lemma register_namespace_member (schema : XMLSchema) (g : XsdGlobals) (grp : list XMLSchema) :
  namespaces g !! uri_normalize (target_namespace schema) = Some grp →
  schema ∈ grp → register_namespace_ schema g = g.
Proof.
  intros E Hin. unfold register_namespace. rewrite E, decide_True; done.
Qed.

Lemma register_namespace_idempotent (schema : XMLSchema) (g : XsdGlobals) :
  register_namespace_ schema (register_namespace_ schema g) = register_namespace_ schema g.
Proof.
  pose proof (register_namespace_lookup schema g
                (uri_normalize (target_namespace schema))) as L.
  rewrite decide_True in L by done.
  destruct (namespaces g !! uri_normalize (target_namespace schema)) as [grp|] eqn:E.
  - destruct (decide (schema ∈ grp)) as [Hin|Hout].
    { eapply register_namespace_member; [exact L|exact Hin]. }
    destruct (existsb _ grp) eqn:Ex.
    + unfold register_namespace at 2. rewrite E, decide_False, Ex by done.
      unfold register_namespace. rewrite E, decide_False, Ex by done. reflexivity.
    + eapply register_namespace_member; [exact L|]. apply elem_of_app. right. by left.
  - eapply register_namespace_member; [exact L|]. by left.
Qed.

Lemma register_globals_idempotent (schema : XMLSchema) (g : XsdGlobals) :
  register_globals_ schema (register_globals_ schema g) = register_globals_ schema g.
Proof.
  destruct (uri_given schema) as [u|] eqn:Hu.
  - destruct (resources g !! uri_normalize u) as [known|] eqn:Hr.
    + destruct (decide (known ≠ schema)) as [Hne|Heq].
      * assert (E : register_globals_ schema g = g).
        { unfold register_globals. rewrite Hu, Hr, decide_True; done. }
        by rewrite !E.
      * apply dec_stable in Heq as ->.
        assert (E : register_globals_ schema g = register_namespace_ schema g).
        { unfold register_globals. rewrite Hu, Hr, decide_False; [done|]. by intros ?. }
        rewrite E. unfold register_globals.
        rewrite Hu, register_namespace_resources, Hr, decide_False by (by intros ?).
        apply register_namespace_idempotent.
    + set (g1 := set_resources (<[uri_normalize u := schema]> (resources g)) g).
      assert (E : register_globals_ schema g = register_namespace_ schema g1).
      { unfold register_globals. by rewrite Hu, Hr. }
      rewrite E. unfold register_globals.
      rewrite Hu, register_namespace_resources. unfold g1 at 1. simpl.
      rewrite lookup_insert_eq, decide_False by (by intros ?).
      apply register_namespace_idempotent.
  - assert (E : register_globals_ schema g = register_namespace_ schema g).
    { unfold register_globals. by rewrite Hu. }
    rewrite E. unfold register_globals. rewrite Hu.
    apply register_namespace_idempotent.
Qed.

Lemma with_globals_id (w : World) (f : XsdGlobals → XsdGlobals) :
  f (globals w) = globals w → with_globals f w = w.
Proof. intros E. destruct w. unfold with_globals. simpl in *. by rewrite E. Qed.

Lemma ledger_consistent_empty (g : XsdGlobals) :
  namespaces g = ∅ → resources g = ∅ → ledger_consistent_ g.
Proof.
  intros En Er. split.
  - intros k schema H. rewrite Er in H. by apply lookup_empty_Some in H.
  - intros k grp obj u H. rewrite En in H. by apply lookup_empty_Some in H.
Qed.

Lemma register_namespace_consistent (schema : XMLSchema) (g : XsdGlobals) :
  (∀ k s, resources g !! k = Some s → s ≠ schema →
     ∃ grp, namespaces g !! uri_normalize (target_namespace s) = Some grp ∧ s ∈ grp) →
  (∀ k grp obj u, namespaces g !! k = Some grp → obj ∈ grp →
     uri_given obj = Some u → is_Some (resources g !! uri_normalize u)) →
  (∀ grp, namespaces g !! uri_normalize (target_namespace schema) = Some grp →
     schema ∉ grp → (∃ k, resources g !! k = Some schema) →
     existsb (λ obj, bool_decide (uri schema = uri obj)) grp = false) →
  (∀ u, uri_given schema = Some u → is_Some (resources g !! uri_normalize u)) →
  ledger_consistent_ (register_namespace_ schema g).
Proof.
  intros H1 H2 H3 H4. split.
  - intros k s Hs. rewrite register_namespace_resources in Hs.
    rewrite register_namespace_lookup.
    destruct (decide (s = schema)) as [->|Hne].
    + rewrite decide_True by done.
      destruct (namespaces g !! _) as [grp|] eqn:E.
      * destruct (decide (schema ∈ grp)) as [Hin|Hout]; [by eauto|].
        rewrite (H3 grp eq_refl Hout) by eauto.
        eexists. split; [done|]. apply elem_of_app. right. by left.
      * eexists. split; [done|]. by left.
    + destruct (H1 _ _ Hs Hne) as (grp & E & Hin).
      destruct (decide _) as [Ek|_]; [|by eauto].
      rewrite E. destruct (decide (schema ∈ grp)); [by eauto|].
      destruct (existsb _ grp); [by eauto|].
      eexists. split; [done|]. apply elem_of_app. by left.
  - intros k grp obj u Hk Hobj Hu. rewrite register_namespace_resources.
    rewrite register_namespace_lookup in Hk.
    destruct (decide _) as [->|_]; [|by eauto].
    destruct (namespaces g !! _) as [grp0|] eqn:E.
    + destruct (decide (schema ∈ grp0)); [injection Hk as <-; by eauto|].
      destruct (existsb _ grp0); injection Hk as <-; [by eauto|].
      apply elem_of_app in Hobj as [Hobj|Hobj]; [by eauto|].
      apply list_elem_of_singleton in Hobj as ->. by apply H4.
    + injection Hk as <-. apply list_elem_of_singleton in Hobj as ->. by apply H4.
Qed.

Lemma uri_given_eq (a b : XMLSchema) : uri a = uri b → uri_given a = uri_given b.
Proof. unfold uri_given. by intros ->. Qed.

(** Registration keeps the ledger consistent. *)
Lemma register_keeps_consistent (schema : XMLSchema) (g : XsdGlobals) :
  ledger_consistent_ g → ledger_consistent_ (register_globals_ schema g).
Proof.
  intros [I1 I2]. unfold register_globals.
  destruct (uri_given schema) as [u|] eqn:Hu.
  - destruct (resources g !! uri_normalize u) as [known|] eqn:Hr.
    + destruct (decide (known ≠ schema)) as [Hne|Heq]; [by split|].
      apply dec_stable in Heq as ->.
      destruct (I1 _ _ Hr) as (grp & E & Hin).
      rewrite (register_namespace_member _ _ _ E Hin). by split.
    + apply register_namespace_consistent; simpl.
      * intros k s Hs Hne. destruct (decide (k = uri_normalize u)) as [->|Hk].
        { rewrite lookup_insert_eq in Hs. congruence. }
        rewrite lookup_insert_ne in Hs by done. eauto.
      * intros k grp obj v Hk Hobj Hv.
        destruct (decide (uri_normalize u = uri_normalize v)) as [->|Hk'].
        { rewrite lookup_insert_eq. by eexists. }
        rewrite lookup_insert_ne by done. eauto.
      * intros grp E Hout _. apply not_true_is_false. intros Ex.
        apply existsb_exists in Ex as (obj & Hobj%list_elem_of_In & Huri%bool_decide_eq_true).
        assert (Hv : uri_given obj = Some u) by (by rewrite <- (uri_given_eq _ _ Huri)).
        destruct (I2 _ _ _ _ E Hobj Hv) as [x Hx]. congruence.
      * intros v Hv. assert (v = u) as -> by congruence.
        rewrite lookup_insert_eq. by eexists.
  - apply register_namespace_consistent.
    + eauto.
    + exact I2.
    + intros grp E Hout (k & Hk). destruct (I1 _ _ Hk) as (grp' & E' & Hin). congruence.
    + intros v Hv. congruence.
Qed.

(** C9.  In a consistent ledger, registering a schema whose resource is
    already indexed changes nothing.  In any ledger a second registration
    of a schema changes nothing after the first, so the length of every
    namespace group stays what the first registration made it; and a group
    that already holds the schema, or a schema of the same resource, is
    left as it is: only a group without one gets the schema appended. *)
Theorem register_is_idempotent (schema : XMLSchema) (w : World) :
  ledger_consistent_ (globals w) →
  (∀ u, uri_given schema = Some u →
        is_Some (resources (globals w) !! uri_normalize u) →
        register_ schema w = (Ok tt, w))
  ∧ register_ schema (register_ schema w).2 = (Ok tt, (register_ schema w).2)
  ∧ (∀ k, length <$> (namespaces (globals (register_ schema (register_ schema w).2).2) !! k)
          = length <$> (namespaces (globals (register_ schema w).2) !! k))
  ∧ (∀ grp,
       namespaces (globals w) !! uri_normalize (target_namespace schema) = Some grp →
       namespaces (globals (register_ schema w).2) !! uri_normalize (target_namespace schema)
         = Some grp
       ∨ namespaces (globals (register_ schema w).2) !! uri_normalize (target_namespace schema)
           = Some (grp ++ [schema])
         ∧ (schema ∉ grp) ∧ (∀ obj, obj ∈ grp → uri obj ≠ uri schema)).
Proof.
  intros [I1 I2].
  assert (Hidem : register_ schema (register_ schema w).2
                  = (Ok tt, (register_ schema w).2)).
  { unfold register, modify. simpl. f_equal. apply with_globals_id. simpl.
    apply register_globals_idempotent. }
  split; [|split; [exact Hidem|split]].
  - intros u Hu [known Hr]. unfold register, modify. f_equal.
    apply with_globals_id. unfold register_globals. rewrite Hu, Hr.
    destruct (decide (known ≠ schema)) as [Hne|Heq]; [reflexivity|].
    apply dec_stable in Heq as ->.
    destruct (I1 _ _ Hr) as (grp & E & Hin).
    by eapply register_namespace_member.
  - intros k. by rewrite Hidem.
  - intros grp E. unfold register, modify. simpl. unfold register_globals.
    assert (Hns : ∀ g', namespaces g' = namespaces (globals w) →
      namespaces (register_namespace_ schema g') !! uri_normalize (target_namespace schema)
        = Some grp
      ∨ namespaces (register_namespace_ schema g') !! uri_normalize (target_namespace schema)
          = Some (grp ++ [schema])
        ∧ (schema ∉ grp) ∧ (∀ obj, obj ∈ grp → uri obj ≠ uri schema)).
    { intros g' Eg. rewrite register_namespace_lookup, decide_True, Eg, E by done.
      destruct (decide (schema ∈ grp)) as [Hin|Hout]; [by left|].
      destruct (existsb _ grp) eqn:Ex; [by left|]. right. split; [done|]. split; [done|].
      intros obj Hobj Huri.
      assert (existsb (λ obj, bool_decide (uri schema = uri obj)) grp = true); [|congruence].
      eapply existsb_elem_of; [exact Hobj|]. by apply bool_decide_eq_true. }
    destruct (uri_given schema) as [u|]; [|by apply Hns].
    destruct (resources (globals w) !! uri_normalize u) as [known|]; [|by apply Hns].
    destruct (decide (known ≠ schema)); [by left|by apply Hns].
Qed.

End LedgerFacts.

Lemma register_is_idempotent_witness :
  ledger_consistent Sample.uri_normalize (globals Sample.registered_world)
  ∧ register Sample.uri_normalize Sample.age_document Sample.registered_world
    = (Ok tt, Sample.registered_world)
  ∧ (length <$> (namespaces (globals Sample.registered_world) !! "urn:a")) = Some 1.
Proof.
  assert (Hc : ledger_consistent Sample.uri_normalize (globals Sample.registered_world)).
  { apply (register_keeps_consistent Sample.uri_normalize Sample.age_document).
    by apply ledger_consistent_empty. }
  split; [exact Hc|]. split; [|reflexivity].
  apply (register_is_idempotent Sample.uri_normalize Sample.age_document
           Sample.registered_world Hc) with (u := "a.xsd").
  - reflexivity.
  - by eexists.
Defined.

(** ** The global declaration loader *)

Lemma get_set_map (m : MapName) (t : gmap string slot) (g : XsdGlobals) :
  get_map m (set_map m t g) = t.
Proof. by destruct m. Qed.

Lemma get_set_map_ne (m m' : MapName) (t : gmap string slot) (g : XsdGlobals) :
  m ≠ m' → get_map m' (set_map m t g) = get_map m' g.
Proof. by destruct m, m'. Qed.

Lemma table_set_slot (m : MapName) (q : string) (v : slot) (w : World) :
  table m (set_slot m q v w) = <[q := v]> (table m w).
Proof. unfold table, set_slot. simpl. apply get_set_map. Qed.

Lemma table_set_slot_ne (m m' : MapName) (q : string) (v : slot) (w : World) :
  m ≠ m' → table m' (set_slot m q v w) = table m' w.
Proof. intros H. unfold table, set_slot. simpl. by apply get_set_map_ne. Qed.

Lemma read_list_with_lists (w : World) (l l' : nat) (its : list item) :
  read_list (with_lists (<[l := its]>) w) l' = if decide (l = l') then its else read_list w l'.
Proof.
  unfold read_list. simpl. destruct (decide (l = l')) as [->|Hne].
  - by rewrite lookup_insert_eq.
  - by rewrite lookup_insert_ne.
Qed.

(** One [append_or_create] adds its object to the items of its name and
    leaves the items of every other name alone. *)
Lemma append_or_create_items (m : MapName) (q : string) (obj : item) (w : World) :
  lists_separate m w →
  lists_separate m (append_or_create m q obj w).2
  ∧ (∀ q', slot_items (append_or_create m q obj w).2
             (table m (append_or_create m q obj w).2 !! q')
           = slot_items w (table m w !! q') ++ (if decide (q' = q) then [obj] else []))
  ∧ dom (table m (append_or_create m q obj w).2) = {[q]} ∪ dom (table m w)
  ∧ (∀ (q' : string) (l : nat),
       table m (append_or_create m q obj w).2 !! q' = Some (SList l) →
       table m w !! q' = Some (SList l)
       ∨ (2 ≤ length (read_list (append_or_create m q obj w).2 l))%nat).
Proof.
  intros [Halloc Hsep]. unfold append_or_create.
  destruct (table m w !! q) as [[old|l]|] eqn:E; cbn [snd].
  - (* a single item: a new list *)
    set (l := fresh (dom (lists w))).
    assert (Hfresh : l ∉ dom (lists w)) by apply is_fresh.
    assert (Hother : ∀ q' l', table m w !! q' = Some (SList l') → l' ≠ l).
    { intros q' l' H ->. by apply Hfresh, (Halloc q'). }
    split; [split|split; [|split]].
    + intros q' l'. rewrite table_set_slot. unfold table. simpl. fold (table m w).
      destruct (decide (q = q')) as [->|Hne].
      * rewrite lookup_insert_eq. intros [= <-]. set_solver.
      * rewrite lookup_insert_ne by done. intros H%Halloc. set_solver.
    + intros q1 q2 l'. rewrite !table_set_slot. unfold table. simpl. fold (table m w).
      destruct (decide (q1 = q)) as [->|H1]; destruct (decide (q2 = q)) as [->|H2];
        rewrite ?lookup_insert_eq, ?lookup_insert_ne by done; try done.
      * intros [= <-] H. by apply Hother in H.
      * intros H [= <-]. by apply Hother in H.
      * apply Hsep.
    + intros q'. rewrite table_set_slot. unfold table. simpl. fold (table m w).
      destruct (decide (q' = q)) as [->|Hne].
      * rewrite lookup_insert_eq, E. simpl. unfold read_list. simpl.
        by rewrite lookup_insert_eq.
      * rewrite lookup_insert_ne, app_nil_r by done.
        destruct (table m w !! q') as [[i|l']|] eqn:E'; simpl; try done.
        unfold read_list. simpl. rewrite lookup_insert_ne; [done|].
        intros ->. by eapply Hother.
    + rewrite table_set_slot. unfold table. simpl. fold (table m w).
      by rewrite dom_insert_L.
    + intros q' l'. rewrite table_set_slot. unfold table. simpl. fold (table m w).
      destruct (decide (q = q')) as [->|Hne].
      * rewrite lookup_insert_eq. intros [= <-]. right. unfold read_list. simpl.
        rewrite lookup_insert_eq. simpl. lia.
      * rewrite lookup_insert_ne by done. by left.
  - (* a list: append *)
    split; [split|split; [|split]].
    + intros q' l' H. apply Halloc in H. simpl. set_solver.
    + exact Hsep.
    + intros q'. change (table m (with_lists _ w)) with (table m w).
      destruct (decide (q' = q)) as [->|Hne].
      * rewrite E. simpl. by rewrite read_list_with_lists, decide_True.
      * rewrite app_nil_r.
        destruct (table m w !! q') as [[i|l']|] eqn:E'; simpl; try done.
        rewrite read_list_with_lists, decide_False; [done|].
        intros ->. apply Hne. by eapply Hsep.
    + change (table m (with_lists _ w)) with (table m w).
      apply elem_of_dom_2 in E. set_solver.
    + intros q' l' H. by left.
  - (* no slot: the object itself *)
    split; [split|split; [|split]].
    + intros q' l'. rewrite table_set_slot.
      destruct (decide (q = q')) as [->|Hne].
      * by rewrite lookup_insert_eq.
      * rewrite lookup_insert_ne by done. apply Halloc.
    + intros q1 q2 l'. rewrite !table_set_slot.
      destruct (decide (q1 = q)) as [->|H1]; destruct (decide (q2 = q)) as [->|H2];
        rewrite ?lookup_insert_eq, ?lookup_insert_ne by done; try done.
      apply Hsep.
    + intros q'. rewrite table_set_slot.
      destruct (decide (q' = q)) as [->|Hne].
      * by rewrite lookup_insert_eq, E.
      * rewrite lookup_insert_ne, app_nil_r by done.
        by destruct (table m w !! q') as [[i|l']|].
    + by rewrite table_set_slot, dom_insert_L.
    + intros q' l'. rewrite table_set_slot.
      destruct (decide (q = q')) as [->|Hne].
      * by rewrite lookup_insert_eq.
      * rewrite lookup_insert_ne by done. by left.
Qed.

(** *** The loader does not look at the registries *)






(** A table without list objects has them separate. *)
Lemma lists_separate_items (m : MapName) (w : World) :
  forallb (λ kv, match kv.2 with SItem _ => true | SList _ => false end)
    (map_to_list (table m w)) = true →
  lists_separate m w.
Proof.
  intros H. rewrite forallb_forall in H.
  assert (Hno : ∀ q l, table m w !! q ≠ Some (SList l)).
  { intros q l E. apply elem_of_map_to_list, list_elem_of_In, H in E. discriminate. }
  split.
  - intros q l E. by apply Hno in E.
  - intros q q' l E. by apply Hno in E.
Qed.


Section LoaderFacts.
Variable get_qname : string → string → string.
Variable get_xsd_attribute : Element → string → string.
Variable iterchildren_xsd_redefine : Element → list Element.
Variable filter_function : Element → list Element.

Abbreviation schema_redefinitions_ :=
  (schema_redefinitions get_qname get_xsd_attribute iterchildren_xsd_redefine filter_function).
Abbreviation load_declaration_ := (load_declaration get_qname get_xsd_attribute).
Abbreviation scan_schemas_ :=
  (scan_schemas get_qname get_xsd_attribute iterchildren_xsd_redefine filter_function).
Abbreviation load_xsd_globals_ :=
  (load_xsd_globals get_qname get_xsd_attribute iterchildren_xsd_redefine filter_function).
Abbreviation declared_ := (declared get_qname get_xsd_attribute filter_function).
Abbreviation pending_ :=
  (pending get_qname get_xsd_attribute iterchildren_xsd_redefine filter_function).

Lemma append_or_create_ok (m : MapName) (q : string) (obj : item) (w : World) :
  (append_or_create m q obj w).1 = Ok tt.
Proof.
  unfold append_or_create. destruct (table m w !! q) as [[i|l]|]; reflexivity.
Qed.

Lemma scan_declared_ok (m : MapName) (ds : list (string * item)) (w : World) :
  (scan_declared m ds w).1 = Ok tt.
Proof.
  unfold scan_declared. revert w. induction ds as [|d ds IH]; intros w; [reflexivity|].
  simpl. rewrite bind_unfold.
  pose proof (append_or_create_ok m d.1 d.2 w) as H.
  destruct (append_or_create m d.1 d.2 w) as [[[]|e] w1]; [apply IH|discriminate].
Qed.

Lemma scan_declared_app (m : MapName) (ds1 ds2 : list (string * item)) (w : World) :
  scan_declared m (ds1 ++ ds2) w = scan_declared m ds2 (scan_declared m ds1 w).2.
Proof.
  unfold scan_declared. rewrite mfor_app, bind_unfold.
  pose proof (scan_declared_ok m ds1 w) as H. unfold scan_declared in H.
  destruct (mfor ds1 _ w) as [[[]|e] w1]; [reflexivity|discriminate].
Qed.

(** The scan of one schema is the scan of its declarations. *)
Lemma scan_one_schema (m : MapName) (schema : XMLSchema) (w : World) :
  mfor (filter_function (root schema)) (load_declaration_ m schema) w
  = scan_declared m (declared_ [schema]) w.
Proof.
  unfold declared_, scan_declared. simpl. rewrite app_nil_r.
  generalize (filter_function (root schema)) as es. intros es. revert w.
  induction es as [|e es IH]; intros w; [reflexivity|].
  simpl. rewrite !bind_unfold. unfold load_declaration at 1.
  destruct (append_or_create _ _ _ w) as [[[]|x] w1]; [apply IH|reflexivity].
Qed.

Lemma declared_cons (schema : XMLSchema) (schemas : list XMLSchema) :
  declared_ (schema :: schemas) = declared_ [schema] ++ declared_ schemas.
Proof. unfold declared_. simpl. by rewrite app_nil_r. Qed.

Lemma scan_schemas_eq (m : MapName) (schemas : list XMLSchema)
    (acc : list (string * (Element * XMLSchema))) (w : World) :
  scan_schemas_ m schemas acc w
  = (Ok (acc ++ pending_ schemas), (scan_declared m (declared_ schemas) w).2).
Proof.
  revert acc w. induction schemas as [|schema schemas IH]; intros acc w.
  - simpl. by rewrite app_nil_r.
  - cbn [scan_schemas]. rewrite bind_unfold, scan_one_schema.
    pose proof (scan_declared_ok m (declared_ [schema]) w) as H.
    rewrite (declared_cons schema schemas), scan_declared_app.
    destruct (scan_declared m (declared_ [schema]) w) as [[[]|e] w1] eqn:E; [|discriminate].
    rewrite IH. unfold pending_. cbn [mbind list_bind snd]. by rewrite <- app_assoc.
Qed.

Lemma contributions_cons (d : string * item) (ds : list (string * item)) (q : string) :
  contributions (d :: ds) q = (if decide (q = d.1) then [d.2] else []) ++ contributions ds q.
Proof.
  unfold contributions. rewrite filter_cons.
  destruct (decide (d.1 = q)) as [<-|Hne].
  - by rewrite decide_True.
  - rewrite decide_False; [done|]. by intros ->.
Qed.

(** The scan of a list of declarations adds to every name its
    contributions, in order. *)
Lemma scan_declared_items (m : MapName) (ds : list (string * item)) (w : World) :
  lists_separate m w →
  lists_separate m (scan_declared m ds w).2
  ∧ (∀ q, slot_items (scan_declared m ds w).2 (table m (scan_declared m ds w).2 !! q)
          = slot_items w (table m w !! q) ++ contributions ds q)
  ∧ dom (table m (scan_declared m ds w).2) = list_to_set ds.*1 ∪ dom (table m w)
  ∧ (∀ (q : string) (l : nat),
       table m (scan_declared m ds w).2 !! q = Some (SList l) →
       table m w !! q = Some (SList l)
       ∨ (2 ≤ length (read_list (scan_declared m ds w).2 l))%nat).
Proof.
  revert w. induction ds as [|d ds IH]; intros w Hw.
  - simpl. split; [done|]. split; [|split].
    + intros q. by rewrite app_nil_r.
    + set_solver.
    + intros q l H. by left.
  - change (d :: ds) with ([d] ++ ds). rewrite scan_declared_app.
    assert (E1 : (scan_declared m [d] w).2 = (append_or_create m d.1 d.2 w).2).
    { unfold scan_declared. simpl. rewrite bind_unfold.
      by destruct (append_or_create m d.1 d.2 w) as [[[]|e] w1]. }
    rewrite E1.
    destruct (append_or_create_items m d.1 d.2 w Hw) as (Hsep1 & Hit1 & Hdom1 & Hlen1).
    destruct (IH _ Hsep1) as (Hsep2 & Hit2 & Hdom2 & Hlen2).
    split; [done|]. split; [|split].
    + intros q. rewrite Hit2, Hit1, <- app_assoc. f_equal.
      change ([d] ++ ds) with (d :: ds). by rewrite contributions_cons.
    + rewrite Hdom2, Hdom1. set_solver.
    + intros q l H. destruct (Hlen2 q l H) as [H'|H']; [|by right].
      destruct (Hlen1 q l H') as [H''|H'']; [by left|]. right.
      pose proof (Hit2 q) as Hq. rewrite H, H' in Hq. simpl in Hq.
      rewrite Hq, length_app. lia.
Qed.


Lemma apply_redefinition_present (m : MapName) (r : string * (Element * XMLSchema)) (w : World) :
  is_Some (table m w !! r.1) →
  apply_redefinition m r w = append_or_create m r.1 (IPair r.2.1 r.2.2) w.
Proof.
  intros Hs. destruct r as [q obj]. unfold apply_redefinition. rewrite bind_unfold. simpl.
  destruct (decide _) as [E|_]; [|done]. simpl in Hs. rewrite E in Hs. by destruct Hs.
Qed.

Lemma apply_redefinition_orphan (m : MapName) (r : string * (Element * XMLSchema)) (w : World) :
  table m w !! r.1 = None →
  apply_redefinition m r w = (Raise (XMLSchemaParseError "not a redefinition!" r.2.1), w).
Proof.
  intros Hs. destruct r as [q obj]. unfold apply_redefinition. rewrite bind_unfold. simpl.
  by rewrite decide_True.
Qed.

Lemma append_or_create_present_dom (m : MapName) (q : string) (obj : item) (w : World) :
  is_Some (table m w !! q) →
  dom (table m (append_or_create m q obj w).2) = dom (table m w).
Proof.
  intros [v Hv]. unfold append_or_create. rewrite Hv. destruct v as [old|l]; simpl.
  - rewrite table_set_slot. unfold table. simpl. fold (table m w).
    rewrite dom_insert_L. apply elem_of_dom_2 in Hv. set_solver.
  - done.
Qed.

(** Redefinitions whose names are all present are applied like
    declarations, and the names of the table stay the same. *)
Lemma apply_redefinitions_present (m : MapName) (rs : list (string * (Element * XMLSchema)))
    (w : World) :
  (∀ r, r ∈ rs → is_Some (table m w !! r.1)) →
  mfor rs (apply_redefinition m) w = scan_declared m (redefinition_items rs) w
  ∧ dom (table m (scan_declared m (redefinition_items rs) w).2) = dom (table m w).
Proof.
  revert w. induction rs as [|r rs IH]; intros w Hall; [done|].
  assert (Hr : is_Some (table m w !! r.1)) by (apply Hall; by left).
  unfold scan_declared. simpl. rewrite !bind_unfold, (apply_redefinition_present m r w Hr).
  pose proof (append_or_create_ok m r.1 (IPair r.2.1 r.2.2) w) as Hok.
  pose proof (append_or_create_present_dom m r.1 (IPair r.2.1 r.2.2) w Hr) as Hdom.
  destruct (append_or_create m r.1 _ w) as [[[]|e] w1]; [|discriminate].
  simpl in Hdom. destruct (IH w1) as [E1 E2].
  - intros r' Hr'. apply elem_of_dom. rewrite Hdom. apply elem_of_dom, Hall. by right.
  - split; [exact E1|]. unfold scan_declared in E2. by rewrite E2.
Qed.

Lemma load_two_phases (m : MapName) (schemas : list XMLSchema) (w : World) :
  load_xsd_globals_ m schemas w
  = (_ ← scan_declared m (declared_ schemas);
     mfor (pending_ schemas) (apply_redefinition m)) w.
Proof.
  unfold load_xsd_globals. rewrite !bind_unfold, scan_schemas_eq.
  pose proof (scan_declared_ok m (declared_ schemas) w) as H.
  by destruct (scan_declared m (declared_ schemas) w) as [[[]|e] w1].
Qed.




(** *** Registration order *)


(** The pending redefinitions either all have a slot or there is a
    first one without. *)
Lemma first_orphan (m : MapName) (rs : list (string * (Element * XMLSchema))) (w : World) :
  (∀ r, r ∈ rs → is_Some (table m w !! r.1))
  ∨ (∃ pre r post, rs = pre ++ r :: post
       ∧ (∀ r', r' ∈ pre → is_Some (table m w !! r'.1))
       ∧ table m w !! r.1 = None).
Proof.
  induction rs as [|r rs IH]; [left; by intros r H%elem_of_nil|].
  destruct (table m w !! r.1) as [v|] eqn:E.
  - destruct IH as [Hall|(pre & r0 & post & -> & Hpre & Hr0)].
    + left. intros r' [->|H]%elem_of_cons; [by eexists|by apply Hall].
    + right. exists (r :: pre), r0, post. split; [done|]. split; [|done].
      intros r' [->|H]%elem_of_cons; [by eexists|by apply Hpre].
  - right. exists [], r, rs. split; [done|]. split; [|done]. by intros r' H%elem_of_nil.
Qed.

(** The outcome of a load, from the declarations and the pending_
    redefinitions of its schemas. *)
Lemma load_outcome (m : MapName) (schemas : list XMLSchema) (w : World) :
  lists_separate m w →
  let names : gset string := list_to_set (declared_ schemas).*1 ∪ dom (table m w) in
  if decide (Forall (λ r, r.1 ∈ names) (pending_ schemas)) then
    (load_xsd_globals_ m schemas w).1 = Ok tt
    ∧ dom (table m (load_xsd_globals_ m schemas w).2) = names
    ∧ ∀ q, slot_items (load_xsd_globals_ m schemas w).2
             (table m (load_xsd_globals_ m schemas w).2 !! q)
           = slot_items w (table m w !! q) ++ contributions (declared_ schemas) q
             ++ contributions (redefinition_items (pending_ schemas)) q
  else
    ∃ e, (load_xsd_globals_ m schemas w).1
         = Raise (XMLSchemaParseError "not a redefinition!" e).
Proof.
  intros Hw names.
  destruct (scan_declared_items m (declared_ schemas) w Hw) as (Hsep & Hit & Hdom & _).
  pose proof (scan_declared_ok m (declared_ schemas) w) as Hok.
  rewrite load_two_phases, bind_unfold.
  destruct (scan_declared m (declared_ schemas) w) as [[[]|e] w1]; [|discriminate].
  simpl in *. fold names in Hdom.
  destruct (first_orphan m (pending_ schemas) w1) as [Hall|(pre & r & post & E & Hpre & Hr)].
  - rewrite decide_True.
    2:{ apply Forall_forall. intros r Hr. rewrite <- Hdom. by apply elem_of_dom, Hall. }
    destruct (apply_redefinitions_present m _ w1 Hall) as [E1 E2]. rewrite E1.
    destruct (scan_declared_items m (redefinition_items (pending_ schemas)) w1 Hsep)
      as (_ & Hit2 & _ & _).
    split; [apply scan_declared_ok|]. split; [by rewrite E2|].
    intros q. by rewrite Hit2, Hit, <- app_assoc.
  - rewrite decide_False.
    2:{ intros Hall. apply not_elem_of_dom in Hr. apply Hr. rewrite Hdom.
        rewrite Forall_forall in Hall. apply Hall.
        rewrite E. apply elem_of_app. right. by left. }
    exists r.2.1. rewrite E, mfor_app, bind_unfold.
    destruct (apply_redefinitions_present m pre w1 Hpre) as [E1 E2]. rewrite E1.
    pose proof (scan_declared_ok m (redefinition_items pre) w1) as Hok2.
    destruct (scan_declared m (redefinition_items pre) w1) as [[[]|e] w2]; [|discriminate].
    simpl. rewrite bind_unfold, apply_redefinition_orphan; [done|].
    apply not_elem_of_dom. simpl in E2. rewrite E2. by apply not_elem_of_dom.
Qed.






End LoaderFacts.

(** ** The lazy resolver on redefinition chains *)

(** A list that starts with a raw pair and does not have exactly two
    items is of no use to a lookup: it raises [XMLSchemaTypeError] and
    calls no construction function. *)
Lemma lookup_raw_list_raises (XSD_GLOBAL_TAG FACTORY_KWARG : XsdClass → string)
    (map_name : MapName) (xsd_classes : classes) (qname : string)
    (kwargs : gmap string factory) (w : World) (l : nat) (e : Element) (s : XMLSchema)
    (rest : list item) :
  table map_name w !! qname = Some (SList l) →
  read_list w l = IPair e s :: rest →
  length rest ≠ 1 →
  lookup XSD_GLOBAL_TAG FACTORY_KWARG map_name xsd_classes qname kwargs w
  = (Raise (wrong_type xsd_classes qname), w).
Proof.
  intros Hslot Hlist Hlen. unfold lookup. rewrite bind_unfold. simpl.
  rewrite Hslot, Hlist, bind_unfold. simpl.
  by destruct rest as [|i1 [|i2 rest]].
Qed.

Section ChainFacts.
Variables XSD_GLOBAL_TAG FACTORY_KWARG : XsdClass → string.
Variable map_name : MapName.
Variable xsd_classes : classes.

Abbreviation select_factory_ := (select_factory XSD_GLOBAL_TAG FACTORY_KWARG xsd_classes).
Abbreviation redefine_loop_ := (redefine_loop XSD_GLOBAL_TAG FACTORY_KWARG xsd_classes).
Abbreviation fold_chain_ := (fold_chain XSD_GLOBAL_TAG FACTORY_KWARG xsd_classes).

Lemma kwargs_get_run (kwargs : gmap string factory) (key : string) (w : World)
    (r : result factory) (w' : World) :
  kwargs_get kwargs key w = (r, w') →
  w' = w ∧ ∀ f, r = Ok f → ∃ key, kwargs !! key = Some f.
Proof.
  unfold kwargs_get. destruct (kwargs !! key) as [f|] eqn:E; intros [= <- <-].
  - split; [done|]. intros f' [= <-]. eauto.
  - split; [done|]. discriminate.
Qed.

(** Selecting a construction function changes nothing and yields a
    function of [kwargs]. *)
Lemma select_factory_run (kwargs : gmap string factory) (elem : pyarg) (w : World)
    (r : result factory) (w' : World) :
  select_factory_ kwargs elem w = (r, w') →
  w' = w ∧ ∀ f, r = Ok f → ∃ key, kwargs !! key = Some f.
Proof.
  unfold select_factory. destruct xsd_classes as [c|cs]; [apply kwargs_get_run|].
  induction cs as [|c cs IH]; simpl.
  - intros [= <- <-]. split; [done|]. discriminate.
  - rewrite bind_unfold. destruct elem as [e|s|i]; simpl;
      try (intros [= <- <-]; split; [done|discriminate]).
    destruct (decide _); [apply kwargs_get_run|exact IH].
Qed.

Lemma set_head_run (l x : nat) (w : World) (r : result unit) (w' : World) :
  set_head l x w = (r, w') →
  tail (read_list w' l) = tail (read_list w l)
  ∧ (r = Ok tt → head (read_list w' l) = Some (IComp x)).
Proof.
  unfold set_head. destruct (read_list w l) as [|i tl] eqn:E; intros [= <- <-].
  - by rewrite E.
  - by rewrite read_list_with_lists, decide_True.
Qed.

Lemma drop_S_tail {A} (n : nat) (l : list A) : drop (S n) l = drop n (tail l).
Proof. by destruct l; [destruct n|]. Qed.

(** With the tail of the list left alone, the loop over the indices
    of the list is the fold over its items. *)
Lemma redefine_loop_is_fold (kwargs : gmap string factory) (l : nat) (rest : list item)
    (n c : nat) (w : World) :
  chain_untouched kwargs l →
  drop (S n) (read_list w l) = rest →
  redefine_loop_ kwargs l (seq (S n) (length rest)) c w = fold_chain_ kwargs l rest c w.
Proof.
  intros Hk. revert n c w. induction rest as [|it rest IH]; intros n c w Hd; [done|].
  cbn [length seq redefine_loop fold_chain]. rewrite !bind_unfold.
  assert (Hit : read_list w l !! S n = Some it).
  { rewrite <- (Nat.add_0_r (S n)), <- lookup_drop, Hd. done. }
  unfold unpack_at at 1. rewrite Hit.
  destruct (unpack_item it w) as [[[elem schema]|e] w1] eqn:Eu; [|done].
  assert (w1 = w) as -> by (destruct it; by injection Eu).
  rewrite !bind_unfold.
  destruct (select_factory_ kwargs elem w) as [[f|e] w2] eqn:Es; [|done].
  apply select_factory_run in Es as [-> Hf].
  destruct (Hf f eq_refl) as [key Hkey].
  rewrite !bind_unfold.
  destruct (f elem schema (Some c) (Some true) w) as [[x|e] w3] eqn:Ef; [|done].
  apply (Hk key f Hkey) in Ef.
  rewrite !bind_unfold.
  destruct (set_head l x w3) as [[[]|e] w4] eqn:Eh; [|done].
  apply set_head_run in Eh as [Et _].
  apply IH. rewrite drop_S_tail, Et, Ef, <- drop_S_tail.
  replace (S (S n)) with (S n + 1) by lia. by rewrite <- drop_drop, Hd.
Qed.

(** After the fold the head of the list object is the component that
    the fold returns. *)
Lemma fold_chain_head (kwargs : gmap string factory) (l : nat) (rest : list item)
    (c : nat) (w : World) (x : nat) (w' : World) :
  fold_chain_ kwargs l rest c w = (Ok x, w') →
  head (read_list w l) = Some (IComp c) →
  head (read_list w' l) = Some (IComp x).
Proof.
  revert c w. induction rest as [|it rest IH]; intros c w; simpl.
  - by intros [= <- <-].
  - intros Hrun _.
    apply bind_inv_ok in Hrun as ([elem schema] & w1 & _ & Hrun).
    apply bind_inv_ok in Hrun as (f & w2 & _ & Hrun).
    apply bind_inv_ok in Hrun as (y & w3 & _ & Hrun).
    apply bind_inv_ok in Hrun as ([] & w4 & Hh & Hrun).
    apply set_head_run in Hh as [_ Hh]. eapply IH; [exact Hrun|by apply Hh].
Qed.

(** X1.  A lookup of a name whose slot is a list with a built component
    of the category at its head, when the construction functions leave the
    rest of that list alone: the items behind the head are folded in order,
    each construction function receiving the component built just before;
    the result is stored in the slot and returned. *)
Lemma lookup_folds_chain (qname : string) (kwargs : gmap string factory) (w : World)
    (l c : nat) (o : XsdComponent) (rest : list item) :
  table map_name w !! qname = Some (SList l) →
  read_list w l = IComp c :: rest →
  comps w !! c = Some o →
  isinstance o xsd_classes = true →
  chain_untouched kwargs l →
  lookup XSD_GLOBAL_TAG FACTORY_KWARG map_name xsd_classes qname kwargs w
  = (xsd_instance ← fold_chain_ kwargs l rest c;
     _ ← modify (set_slot map_name qname (SItem (IComp xsd_instance)));
     mret (IComp xsd_instance)) w.
Proof.
  intros Hslot Hlist Hc Hinst Hk. unfold lookup. rewrite bind_unfold. simpl.
  rewrite Hslot, Hlist, bind_unfold. unfold deref at 1.
  rewrite bind_unfold, Hc. cbn [mret M_ret]. rewrite Hinst.
  unfold lookup_redefine. rewrite !bind_unfold.
  replace (length (IComp c :: rest) - 1) with (length rest) by (simpl; lia).
  rewrite redefine_loop_is_fold by (by rewrite ?Hlist).
  destruct (fold_chain_ kwargs l rest c w) as [[x|e] w1] eqn:Ef; [|done].
  rewrite !bind_unfold. cbn [modify].
  apply fold_chain_head in Ef; [|by rewrite Hlist].
  unfold get_head.
  change (read_list (set_slot map_name qname (SItem (IComp x)) w1) l) with (read_list w1 l).
  destruct (read_list w1 l) as [|i tl]; [discriminate|]. by injection Ef as ->.
Qed.

End ChainFacts.

(** C1.  The loader leaves a base declaration of [N] and two
    redefinitions of it as a list of three raw pairs, in document order.
    The lookup of [N] then takes neither the redefine case, which wants a
    built component at the head of the list, nor the construction case,
    which wants two items: it raises [XMLSchemaTypeError], from an
    unchanged world, and builds nothing. *)
Theorem lookup_of_loaded_chain_raises :
  table Types Sample.chain_world !! "{urn:a}N" = Some (SList 0)
  ∧ read_list Sample.chain_world 0
    = [IPair Sample.base_declaration Sample.base_document;
       IPair Sample.first_rewrite Sample.first_redefinition;
       IPair Sample.second_rewrite Sample.second_redefinition]
  ∧ Sample.lookup_type "{urn:a}N" Sample.OPTIONS Sample.chain_world
    = (Raise (XMLSchemaTypeError "XsdSimpleType or XsdComplexType" "{urn:a}N"),
       Sample.chain_world).
Proof.
  assert (H1 : table Types Sample.chain_world !! "{urn:a}N" = Some (SList 0))
    by (vm_compute; reflexivity).
  assert (H2 : read_list Sample.chain_world 0
    = [IPair Sample.base_declaration Sample.base_document;
       IPair Sample.first_rewrite Sample.first_redefinition;
       IPair Sample.second_rewrite Sample.second_redefinition])
    by (vm_compute; reflexivity).
  split; [exact H1|]. split; [exact H2|].
  unfold Sample.lookup_type.
  by rewrite (lookup_raw_list_raises _ _ _ _ _ _ _ _ _ _ _ H1 H2).
Qed.

(** ** The namespace-filtered view *)

Lemma string_app_cons (c : ascii) (a b : string) :
  (String c a ++ b)%string = String c (a ++ b)%string.
Proof. reflexivity. Qed.

Lemma string_app_nil_r (s : string) : (s ++ "")%string = s.
Proof.
  induction s as [|c s IH]; [reflexivity|]. by rewrite string_app_cons, IH.
Qed.

Lemma string_app_assoc (a b c : string) : ((a ++ b) ++ c)%string = (a ++ (b ++ c))%string.
Proof.
  induction a as [|x a IH]; [reflexivity|]. by rewrite !string_app_cons, IH.
Qed.

Lemma has_percent_app (a b : string) :
  has_percent (a ++ b)%string = has_percent a || has_percent b.
Proof.
  induction a as [|c a IH]; [reflexivity|].
  rewrite string_app_cons. simpl. by rewrite IH, orb_assoc.
Qed.

(** Text without a percent sign is copied. *)
Lemma percent_format_text (p rest : string) (arg : option string) :
  has_percent p = false →
  percent_format_from None true (p ++ rest)%string arg
  = prepend_string p (percent_format_from None true rest arg).
Proof.
  induction p as [|c p IH].
  - intros _. change ("" ++ rest)%string with rest.
    by destruct (percent_format_from None true rest arg).
  - simpl. intros [Hc Hp]%orb_false_elim. apply bool_decide_eq_false in Hc.
    rewrite decide_False by done. rewrite IH by done.
    by destruct (percent_format_from None true rest arg).
Qed.

Lemma percent_format_plain (p key : string) :
  has_percent p = false → percent_format (p ++ "%s")%string key = Ok (p ++ key)%string.
Proof.
  intros Hp. unfold percent_format. rewrite percent_format_text by done.
  simpl. by rewrite string_app_nil_r.
Qed.

(** The format of a view of a namespace without a percent sign turns a
    local name into the probe key. *)
Lemma key_fmt_promotes {V} (d : gmap string V) (U key : string) :
  has_percent U = false →
  percent_format (key_fmt (NamespaceView_init d U)) key = Ok (promoted U key).
Proof.
  intros HU. unfold NamespaceView_init, promoted. simpl.
  destruct (decide (U = "")) as [->|Hne]; [apply (percent_format_plain "" key HU)|].
  change "}%s" with ("}" ++ "%s")%string.
  rewrite <- (string_app_assoc U), <- (string_app_assoc "{").
  rewrite percent_format_plain.
  - by rewrite !string_app_assoc.
  - rewrite !has_percent_app, HU. done.
Qed.

Section ViewFacts.
Context {V : Type}.
Variable get_namespace : string → string.
Variable local_name : string → string.

Abbreviation as_dict_ := (as_dict get_namespace local_name).
Abbreviation own_items_ := (own_items get_namespace).

(** X2.  For a namespace [U] without a percent sign, the lookup and the
    membership test of a local name probe the backing table with the
    qualified form [{U}local] (the local name itself when [U] is empty). *)
Lemma view_lookup_promotes_key (d : gmap string V) (U : string) :
  has_percent U = false →
  ∀ key,
    getitem (NamespaceView_init d U) key
    = match d !! promoted U key with
      | Some v => Ok v
      | None => Raise (KeyError (promoted U key))
      end
    ∧ contains (NamespaceView_init d U) key
      = Ok (bool_decide (is_Some (d !! promoted U key))).
Proof.
  intros HU key. unfold getitem, contains. by rewrite key_fmt_promotes.
Qed.

Lemma own_items_elem (self : NamespaceView V) (k : string) (v : V) :
  (k, v) ∈ own_items_ self ↔ target_dict self !! k = Some v ∧ namespace self = get_namespace k.
Proof.
  unfold own_items. rewrite list_elem_of_filter, elem_of_map_to_list. simpl. tauto.
Qed.

(** What a dictionary comprehension holds: every value comes from an
    item, and an item whose key no other item maps to keeps its value. *)
Lemma comprehension_sound (f : string → string) (l : list (string * V))
    (d0 : gmap string V) (j : string) (v : V) :
  foldl (λ d kv, <[f kv.1 := kv.2]> d) d0 l !! j = Some v →
  (∃ k, (k, v) ∈ l ∧ f k = j) ∨ d0 !! j = Some v.
Proof.
  revert d0. induction l as [|[k x] l IH]; intros d0; simpl; [by right|].
  intros H. destruct (IH _ H) as [(k' & Hin & Hk')|H0].
  - left. exists k'. split; [by right|done].
  - destruct (decide (f k = j)) as [E|E].
    + rewrite E, lookup_insert_eq in H0. injection H0 as ->.
      left. exists k. split; [by left|done].
    + rewrite lookup_insert_ne in H0 by done. by right.
Qed.

Lemma comprehension_keeps (f : string → string) (l : list (string * V))
    (d0 : gmap string V) (j : string) (v : V) :
  d0 !! j = Some v →
  (∀ k' v', (k', v') ∈ l → f k' = j → v' = v) →
  foldl (λ d kv, <[f kv.1 := kv.2]> d) d0 l !! j = Some v.
Proof.
  revert d0. induction l as [|[k x] l IH]; intros d0 H0 Hl; simpl; [done|].
  apply IH.
  - destruct (decide (f k = j)) as [E|E].
    + rewrite E, lookup_insert_eq. f_equal. apply (Hl k x); [by left|done].
    + by rewrite lookup_insert_ne.
  - intros k' v' Hin. apply Hl. by right.
Qed.

Lemma comprehension_complete (f : string → string) (l : list (string * V))
    (d0 : gmap string V) (k : string) (v : V) :
  (k, v) ∈ l →
  (∀ k' v', (k', v') ∈ l → f k' = f k → v' = v) →
  foldl (λ d kv, <[f kv.1 := kv.2]> d) d0 l !! f k = Some v.
Proof.
  revert d0. induction l as [|[k0 x] l IH]; intros d0 Hin Hl; [by apply elem_of_nil in Hin|].
  simpl. apply elem_of_cons in Hin as [[= <- <-]|Hin].
  - apply comprehension_keeps; [apply lookup_insert_eq|].
    intros k' v' H. apply Hl. by right.
  - apply IH; [done|]. intros k' v' H. apply Hl. by right.
Qed.

(** X3.  The enumerations of a view.  Keyed by qualified name, the view is
    the backing table restricted to the names of its namespace.  Keyed by
    local name, every entry of the view is an entry of the table in the
    namespace, under the local name of its key; and when no two names of
    the namespace share a local name, every such entry of the table is in
    the view.  Length and iteration are those of the view keyed by local
    name. *)
Lemma view_enumerates_namespace (d : gmap string V) (U : string) :
  as_dict_ (NamespaceView_init d U) true = filter (λ kv, U = get_namespace kv.1) d
  ∧ (∀ l v, as_dict_ (NamespaceView_init d U) false !! l = Some v →
       ∃ k, d !! k = Some v ∧ U = get_namespace k ∧ local_name k = l)
  ∧ ((∀ k k', is_Some (d !! k) → is_Some (d !! k') →
        U = get_namespace k → U = get_namespace k' →
        local_name k = local_name k' → k = k') →
     ∀ k v, d !! k = Some v → U = get_namespace k →
       as_dict_ (NamespaceView_init d U) false !! local_name k = Some v)
  ∧ len get_namespace local_name (NamespaceView_init d U)
    = size (as_dict_ (NamespaceView_init d U) false)
  ∧ iter get_namespace local_name (NamespaceView_init d U)
    = keys (as_dict_ (NamespaceView_init d U) false).
Proof.
  set (self := NamespaceView_init d U).
  assert (Hown : ∀ k v, (k, v) ∈ own_items_ self ↔ d !! k = Some v ∧ U = get_namespace k)
    by apply own_items_elem.
  split; [|split; [|split; [|done]]].
  - apply map_eq. intros j. apply option_eq. intros v.
    rewrite map_lookup_filter_Some. simpl. unfold as_dict. split.
    + intros H. apply (comprehension_sound id) in H as [(k & Hin & <-)|H].
      * by apply Hown.
      * by rewrite lookup_empty in H.
    + intros [Hj HU]. apply (comprehension_complete id _ _ j v).
      * by apply Hown.
      * intros k' v' [Hk' _]%Hown E. unfold id in E. subst k'. congruence.
  - intros l v H. unfold as_dict in H.
    apply comprehension_sound in H as [(k & Hin & <-)|H].
    + exists k. apply Hown in Hin as [? ?]. done.
    + by rewrite lookup_empty in H.
  - intros Hinj k v Hk HU. unfold as_dict.
    apply comprehension_complete; [by apply Hown|].
    intros k' v' [Hk' HU']%Hown E.
    assert (k' = k) as -> by (apply Hinj; eauto). congruence.
Qed.

End ViewFacts.

(** C8.  For the namespace [http://example.com/a%20b] and a table with
    the one name [x] in it, both enumerations of the view list the entry,
    under [x] and under its qualified name, and the length is one; but the
    lookup of [x] and the membership test of [x] raise [ValueError]: the
    format string [key_fmt] is built by concatenation, so the [%20b] of the
    URI is read as a conversion specification. *)
Theorem view_lookup_fails_on_percent :
  as_dict Sample.get_namespace Sample.local_name Sample.escaped_view false = {[ "x" := 7 ]}
  ∧ as_dict Sample.get_namespace Sample.local_name Sample.escaped_view true
    = {[ "{http://example.com/a%20b}x" := 7 ]}
  ∧ len Sample.get_namespace Sample.local_name Sample.escaped_view = 1
  ∧ key_fmt Sample.escaped_view = "{http://example.com/a%20b}%s"
  ∧ getitem Sample.escaped_view "x" = Raise (ValueError "unsupported format character")
  ∧ contains Sample.escaped_view "x" = Raise (ValueError "unsupported format character").
Proof. repeat split; vm_compute; reflexivity. Qed.

(** ** Registration order *)



(** ** Runs of the positive cases *)

(** The construction functions of the sample only add components. *)
Lemma sample_options_leave_lists (l : nat) : chain_untouched Sample.OPTIONS l.
Proof.
  intros key f Hkey a b i g u r u' Hrun.
  apply elem_of_list_to_map_2, list_elem_of_fmap in Hkey as (c & [= -> ->] & _).
  unfold Sample.make_component in Hrun.
  destruct a as [e| |]; try (by injection Hrun as <- <-).
  destruct b as [|s|]; by injection Hrun as <- <-.
Qed.

Lemma lookup_folds_chain_witness :
  let w := Sample.loaded_world in
  let rest := [IPair Sample.string_rewrite_a Sample.document_a;
               IPair Sample.string_rewrite_b Sample.document_b] in
  table Types w !! Sample.xsd "string" = Some (SList 0)
  ∧ read_list w 0 = IComp 3 :: rest
  ∧ Sample.lookup_type (Sample.xsd "string") Sample.OPTIONS w
    = (xsd_instance ← fold_chain Sample.XSD_GLOBAL_TAG Sample.FACTORY_KWARG
                        (ClassTuple [XsdSimpleType; XsdComplexType])
                        Sample.OPTIONS 0 rest 3;
       _ ← modify (set_slot Types (Sample.xsd "string") (SItem (IComp xsd_instance)));
       mret (IComp xsd_instance)) w
  ∧ (Sample.lookup_type (Sample.xsd "string") Sample.OPTIONS w).1 = Ok (IComp 5).
Proof.
  intros w rest.
  assert (H1 : table Types w !! Sample.xsd "string" = Some (SList 0))
    by (vm_compute; reflexivity).
  assert (H2 : read_list w 0 = IComp 3 :: rest) by (vm_compute; reflexivity).
  split; [exact H1|]. split; [exact H2|]. split; [|vm_compute; reflexivity].
  apply (lookup_folds_chain Sample.XSD_GLOBAL_TAG Sample.FACTORY_KWARG Types
           (ClassTuple [XsdSimpleType; XsdComplexType]) (Sample.xsd "string")
           Sample.OPTIONS w 0 3 (Sample.builtin_type "string") rest H1 H2).
  - vm_compute. reflexivity.
  - reflexivity.
  - apply sample_options_leave_lists.
Defined.

Lemma view_lookup_promotes_key_witness :
  has_percent "urn:a" = false
  ∧ getitem Sample.plain_view "x" = Ok 7
  ∧ contains Sample.plain_view "x" = Ok true
  ∧ contains Sample.plain_view "y" = Ok false.
Proof.
  split; [reflexivity|].
  destruct (view_lookup_promotes_key Sample.plain_table "urn:a" eq_refl "x") as [H1 H2].
  destruct (view_lookup_promotes_key Sample.plain_table "urn:a" eq_refl "y") as [_ H3].
  unfold Sample.plain_view. rewrite H1, H2, H3. repeat split.
Defined.

(** ** Runs of the loader *)

(** A redefinition of a name that no schema declares: the load raises
    on its element and the table stays without the name. *)
Example orphan_redefinition_run :
  let r := Sample.load_xsd_simple_types Types [Sample.first_redefinition] Sample.new_world in
  r.1 = Raise (XMLSchemaParseError "not a redefinition!" Sample.first_rewrite)
  ∧ table Types r.2 !! "{urn:a}N" = None.
Proof. split; vm_compute; reflexivity. Qed.

(** The redefinitions are applied after the base declaration whether
    their documents come before or after the document that declares. *)
Example redefinition_before_base_run :
  let r := Sample.load_xsd_simple_types Types
             [Sample.first_redefinition; Sample.base_document] Sample.new_world in
  r.1 = Ok tt
  ∧ slot_items r.2 (table Types r.2 !! "{urn:a}N")
    = [IPair Sample.base_declaration Sample.base_document;
       IPair Sample.first_rewrite Sample.first_redefinition].
Proof. split; vm_compute; reflexivity. Qed.

(** * Further properties *)

(** ** The lazy resolver: results and errors *)

Section ResolverCache.
Variables XSD_GLOBAL_TAG FACTORY_KWARG : XsdClass → string.
Variable map_name : MapName.
Variable xsd_classes : classes.

Abbreviation lookup_ := (lookup XSD_GLOBAL_TAG FACTORY_KWARG map_name xsd_classes).
Abbreviation redefine_loop_ := (redefine_loop XSD_GLOBAL_TAG FACTORY_KWARG xsd_classes).

(** The loop of the redefine case leaves the component it returns at
    the head of the list. *)
Lemma redefine_loop_head (kwargs : gmap string factory) (l : nat) (ks : list nat)
    (c : nat) (w : World) (x : nat) (w' : World) :
  redefine_loop_ kwargs l ks c w = (Ok x, w') →
  head (read_list w l) = Some (IComp c) →
  head (read_list w' l) = Some (IComp x).
Proof.
  revert c w. induction ks as [|k ks IH]; intros c w; simpl.
  - by intros [= <- <-].
  - intros Hrun _.
    apply bind_inv_ok in Hrun as ([elem schema] & w1 & _ & Hrun).
    apply bind_inv_ok in Hrun as (f & w2 & _ & Hrun).
    apply bind_inv_ok in Hrun as (y & w3 & _ & Hrun).
    apply bind_inv_ok in Hrun as ([] & w4 & Hh & Hrun).
    apply set_head_run in Hh as [_ Hh]. eapply IH; [exact Hrun|by apply Hh].
Qed.

(** X4.  Whatever branch a lookup takes, when it returns, what it
    returns is a component and the slot of the name holds exactly that
    component: the result of a construction is stored before it is
    returned.  So once that component is built and of the category, every
    later lookup of the name returns it without a change of the world. *)
Theorem lookup_stores_what_it_returns (qname : string) (kwargs : gmap string factory)
    (w : World) (x : item) (w' : World) :
  lookup_ qname kwargs w = (Ok x, w') →
  ∃ c, x = IComp c
    ∧ table map_name w' !! qname = Some (SItem (IComp c))
    ∧ ∀ o kwargs', comps w' !! c = Some o → isinstance o xsd_classes = true →
        built o = true → lookup_ qname kwargs' w' = (Ok (IComp c), w').
Proof.
  intros Hrun.
  assert (Hfast : ∀ c, table map_name w' !! qname = Some (SItem (IComp c)) →
            ∀ o kwargs', comps w' !! c = Some o → isinstance o xsd_classes = true →
              built o = true → lookup_ qname kwargs' w' = (Ok (IComp c), w')).
  { intros c Hs o kwargs' Hc Hi Hb. unfold lookup. rewrite bind_unfold. simpl.
    rewrite Hs, bind_unfold. unfold deref. by rewrite Hc, Hi, Hb. }
  cut (∃ c, x = IComp c ∧ table map_name w' !! qname = Some (SItem (IComp c))).
  { intros (c & -> & Hs). exists c. eauto. }
  clear Hfast. unfold lookup in Hrun. rewrite bind_unfold in Hrun. simpl in Hrun.
  destruct (table map_name w !! qname) as [[[c|e s]|l]|] eqn:Hslot; [| | |done].
  - apply bind_inv_ok in Hrun as (o & w1 & Ho & Hrun).
    unfold deref in Ho. destruct (comps w !! c); [|done]. injection Ho as <- <-.
    destruct (isinstance _ _); [|done]. destruct (built _).
    + injection Hrun as <- <-. eauto.
    + apply bind_inv_ok in Hrun as (f & w2 & _ & Hrun).
      apply bind_inv_ok in Hrun as (y & w3 & _ & Hrun).
      injection Hrun as <- <-. exists y. split; [done|].
      by rewrite table_set_slot, lookup_insert_eq.
  - unfold lookup_construct in Hrun.
    apply bind_inv_ok in Hrun as (f & w2 & _ & Hrun).
    apply bind_inv_ok in Hrun as (y & w3 & _ & Hrun).
    injection Hrun as <- <-. exists y. split; [done|].
    by rewrite table_set_slot, lookup_insert_eq.
  - apply bind_inv_ok in Hrun as (hb & w1 & Hhb & Hrun).
    destruct hb as [c|].
    + assert (Hhead : head (read_list w1 l) = Some (IComp c)).
      { destruct (read_list w l) as [|[c'|] tl] eqn:Hl; [done| |done].
        apply bind_inv_ok in Hhb as (o & w2 & Ho & Hhb).
        unfold deref in Ho. destruct (comps w !! c'); [|done]. injection Ho as <- <-.
        destruct (isinstance _ _); [|done]. injection Hhb as <- <-. by rewrite Hl. }
      unfold lookup_redefine in Hrun.
      apply bind_inv_ok in Hrun as (y & w2 & Hloop & Hrun).
      apply redefine_loop_head in Hloop; [|done].
      apply bind_inv_ok in Hrun as ([] & w3 & Hm & Hrun).
      injection Hm as <-. unfold get_head in Hrun.
      change (read_list (set_slot map_name qname (SItem (IComp y)) w2) l)
        with (read_list w2 l) in Hrun.
      destruct (read_list w2 l) as [|i tl]; [done|]. injection Hloop as ->.
      injection Hrun as <- <-. exists y. split; [done|].
      by rewrite table_set_slot, lookup_insert_eq.
    + destruct (read_list w l) as [|i0 [|i1 [|]]]; try done.
      unfold lookup_construct in Hrun.
      apply bind_inv_ok in Hrun as (f & w2 & _ & Hrun).
      apply bind_inv_ok in Hrun as (y & w3 & _ & Hrun).
      injection Hrun as <- <-. exists y. split; [done|].
      by rewrite table_set_slot, lookup_insert_eq.
Qed.


(** X5.  The errors of a lookup that are raised before any construction
    function is called, each from the unchanged world: a missing name
    ([XMLSchemaKeyError]), a component of another category or an empty list
    ([XMLSchemaTypeError]), a raw declaration whose tag matches none of a
    tuple of classes ([XMLSchemaValueError]), a raw declaration whose
    construction function is not among the keyword arguments ([KeyError]),
    and a list of two raw declarations looked up for a tuple of classes,
    which is unpacked as [elem, schema] so that [elem.tag] is asked of a
    tuple ([AttributeError]). *)
Theorem lookup_rejects_without_effect (qname : string) (kwargs : gmap string factory)
    (w : World) :
  (table map_name w !! qname = None →
     lookup_ qname kwargs w
     = (Raise (XMLSchemaKeyError (types_desc xsd_classes) qname), w))
  ∧ (∀ c o, table map_name w !! qname = Some (SItem (IComp c)) →
       comps w !! c = Some o → isinstance o xsd_classes = false →
       lookup_ qname kwargs w
       = (Raise (XMLSchemaTypeError (types_desc xsd_classes) qname), w))
  ∧ (∀ l, table map_name w !! qname = Some (SList l) → read_list w l = [] →
       lookup_ qname kwargs w
       = (Raise (XMLSchemaTypeError (types_desc xsd_classes) qname), w))
  ∧ (∀ e s cs, xsd_classes = ClassTuple cs →
       table map_name w !! qname = Some (SItem (IPair e s)) →
       (∀ c, c ∈ cs → tag e ≠ XSD_GLOBAL_TAG c) →
       lookup_ qname kwargs w = (Raise (XMLSchemaValueError "Element not compatible!"), w))
  ∧ (∀ e s c, xsd_classes = OneClass c →
       table map_name w !! qname = Some (SItem (IPair e s)) →
       kwargs !! FACTORY_KWARG c = None →
       lookup_ qname kwargs w = (Raise (KeyError (FACTORY_KWARG c)), w))
  ∧ (∀ l e1 s1 e2 s2 c cs, xsd_classes = ClassTuple (c :: cs) →
       table map_name w !! qname = Some (SList l) →
       read_list w l = [IPair e1 s1; IPair e2 s2] →
       lookup_ qname kwargs w = (Raise (AttributeError "tag"), w)).
Proof.
  repeat split.
  - intros H. unfold lookup. rewrite bind_unfold. simpl. by rewrite H.
  - intros c o H Hc Hi. unfold lookup. rewrite bind_unfold. simpl.
    rewrite H, bind_unfold. unfold deref. by rewrite Hc, Hi.
  - intros l H Hl. unfold lookup. rewrite bind_unfold. simpl. by rewrite H, Hl.
  - intros e s cs Hcs H Htag. unfold lookup. rewrite bind_unfold. simpl. rewrite H.
    unfold lookup_construct, select_factory. rewrite bind_unfold, Hcs.
    assert (E : factory_by_tag XSD_GLOBAL_TAG FACTORY_KWARG kwargs (AElem e) cs w
                = (Raise (XMLSchemaValueError "Element not compatible!"), w)).
    { clear Hcs. induction cs as [|c cs IH]; [done|]. simpl. rewrite bind_unfold. simpl.
      rewrite decide_False by (apply Htag; left).
      apply IH. intros c' Hc'. apply Htag. by right. }
    by rewrite E.
  - intros e s c Hc H Hk. unfold lookup. rewrite bind_unfold. simpl. rewrite H.
    unfold lookup_construct, select_factory. rewrite bind_unfold, Hc.
    unfold kwargs_get. by rewrite Hk.
  - intros l e1 s1 e2 s2 c cs Hcs H Hl. unfold lookup. rewrite bind_unfold. simpl.
    rewrite H, Hl, bind_unfold. simpl.
    unfold lookup_construct, select_factory. by rewrite bind_unfold, Hcs.
Qed.

End ResolverCache.

(** ** The loader: frame, and load then lookup *)






(** An invariant of the steps that return is an invariant of a loop
    that returns. *)
Lemma mfor_invariant_ok {A} (P : World → Prop) (l : list A) (body : A → M unit) :
  (∀ x w w', x ∈ l → P w → body x w = (Ok tt, w') → P w') →
  ∀ w w', P w → mfor l body w = (Ok tt, w') → P w'.
Proof.
  induction l as [|x l IH]; intros Hstep w w' HP; simpl.
  - by intros [= <-].
  - intros Hrun. apply bind_inv_ok in Hrun as ([] & w1 & H1 & Hrun).
    eapply IH; [|eapply Hstep; [left|exact HP|exact H1]|exact Hrun].
    intros y u u' Hy. apply Hstep. by right.
Qed.

Section LoaderFrame.
Variable get_qname : string → string → string.
Variable get_xsd_attribute : Element → string → string.
Variable iterchildren_xsd_redefine : Element → list Element.
Variable filter_function : Element → list Element.

Abbreviation load_xsd_globals_ :=
  (load_xsd_globals get_qname get_xsd_attribute iterchildren_xsd_redefine filter_function).
Abbreviation declared_ := (declared get_qname get_xsd_attribute filter_function).
Abbreviation pending_ :=
  (pending get_qname get_xsd_attribute iterchildren_xsd_redefine filter_function).



End LoaderFrame.

Section LoadThenLookup.
Variable get_qname : string → string → string.
Variable get_xsd_attribute : Element → string → string.
Variable iterchildren_xsd_redefine : Element → list Element.
Variable filter_function : Element → list Element.
Variables XSD_GLOBAL_TAG FACTORY_KWARG : XsdClass → string.
Variable map_name : MapName.
Variable xsd_classes : classes.

Abbreviation load_xsd_globals_ :=
  (load_xsd_globals get_qname get_xsd_attribute iterchildren_xsd_redefine filter_function).
Abbreviation declared_ := (declared get_qname get_xsd_attribute filter_function).
Abbreviation pending_ :=
  (pending get_qname get_xsd_attribute iterchildren_xsd_redefine filter_function).
Abbreviation lookup_ := (lookup XSD_GLOBAL_TAG FACTORY_KWARG map_name xsd_classes).
Abbreviation lookup_construct_ :=
  (lookup_construct XSD_GLOBAL_TAG FACTORY_KWARG map_name xsd_classes).

Lemma contributions_none (ds : list (string * item)) (q : string) :
  (∀ d, d ∈ ds → d.1 ≠ q) → contributions ds q = [].
Proof.
  induction ds as [|d ds IH]; intros H; [done|].
  rewrite contributions_cons, decide_False, IH; [done| |].
  - intros d' Hd'. apply H. by right.
  - intros ->. by apply (H d); [left|].
Qed.

(** X7.  Load, then lookup.  For a name that the table does not hold,
    that the schemas declare exactly once and that no redefine block
    mentions, a load that returns leaves the raw declaration in the slot,
    and the lookup of the name is the construction from that declaration
    and its schema. *)
Theorem singly_declared_name_is_built_from_its_declaration
    (schemas : list XMLSchema) (w w1 : World) (qname : string) (e : Element)
    (s : XMLSchema) (kwargs : gmap string factory) :
  lists_separate map_name w →
  table map_name w !! qname = None →
  contributions (declared_ schemas) qname = [IPair e s] →
  (∀ r, r ∈ pending_ schemas → r.1 ≠ qname) →
  load_xsd_globals_ map_name schemas w = (Ok tt, w1) →
  table map_name w1 !! qname = Some (SItem (IPair e s))
  ∧ lookup_ qname kwargs w1 = lookup_construct_ kwargs qname (AElem e) (ASchema s) w1.
Proof.
  intros Hsep Hnone Hone Hpend Hload.
  assert (Hslot : table map_name w1 !! qname = Some (SItem (IPair e s))).
  { pose proof (load_outcome get_qname get_xsd_attribute iterchildren_xsd_redefine
                  filter_function map_name schemas w Hsep) as Hout.
    simpl in Hout. destruct (decide _) as [Hall|]; [|destruct Hout as [x Hx]; by rewrite Hload in Hx].
    clear Hout.
    destruct (scan_declared_items get_qname map_name (declared_ schemas) w Hsep) as (Hsep0 & _ & Hdom0 & _).
    set (w0 := (scan_declared map_name (declared_ schemas) w).2) in *.
    assert (Hpres : ∀ r, r ∈ pending_ schemas → is_Some (table map_name w0 !! r.1)).
    { intros r Hr. apply elem_of_dom. rewrite Hdom0.
      rewrite Forall_forall in Hall. by apply Hall. }
    destruct (apply_redefinitions_present get_qname map_name _ w0 Hpres) as [Hrun _].
    rewrite load_two_phases, bind_unfold in Hload.
    pose proof (scan_declared_ok map_name (declared_ schemas) w) as Hok.
    destruct (scan_declared map_name (declared_ schemas) w) as [[[]|x] w0'] eqn:E0; [|done].
    change w0 with w0' in *. clear Hok. rewrite Hrun in Hload.
    assert (E : scan_declared map_name
                  (declared_ schemas ++ redefinition_items (pending_ schemas)) w
                = (Ok tt, w1)).
    { by rewrite scan_declared_app, E0. }
    destruct (scan_declared_items get_qname map_name
                (declared_ schemas ++ redefinition_items (pending_ schemas)) w Hsep)
      as (_ & Hitems & _ & Hlen).
    rewrite E in Hitems, Hlen. simpl in Hitems, Hlen.
    specialize (Hitems qname). rewrite Hnone in Hitems. simpl in Hitems.
    assert (Hc : contributions (declared_ schemas ++ redefinition_items (pending_ schemas)) qname
                 = [IPair e s]).
    { assert (Happ : ∀ a b, contributions (a ++ b) qname
                            = contributions a qname ++ contributions b qname).
      { intros a b. unfold contributions. by rewrite filter_app, fmap_app. }
      rewrite Happ, Hone, contributions_none; [done|].
      intros d Hd. unfold redefinition_items in Hd.
      apply list_elem_of_fmap in Hd as (r & -> & Hr). by apply Hpend. }
    rewrite Hc in Hitems.
    destruct (table map_name w1 !! qname) as [[i|l]|] eqn:Hq; simpl in Hitems.
    - by injection Hitems as ->.
    - destruct (Hlen qname l Hq) as [H|H]; [by rewrite Hnone in H|].
      rewrite Hitems in H. simpl in H. lia.
    - done. }
  split; [done|]. unfold lookup. rewrite bind_unfold. simpl. by rewrite Hslot.
Qed.

End LoadThenLookup.

(** ** The ledger: shape of the groups *)

Section LedgerShape.
Variable uri_normalize : string → string.

Abbreviation register_namespace_ := (register_namespace uri_normalize).
Abbreviation register_globals_ := (register_globals uri_normalize).
Abbreviation register_ := (register uri_normalize).
Abbreviation groups_well_formed_ := (groups_well_formed uri_normalize).

Lemma existsb_false_not_elem (schema : XMLSchema) (grp : list XMLSchema) :
  existsb (λ obj, bool_decide (uri schema = uri obj)) grp = false →
  uri schema ∉ uri <$> grp.
Proof.
  intros H Hin. apply list_elem_of_fmap in Hin as (obj & Hu & Hobj).
  rewrite (existsb_elem_of _ grp obj Hobj) in H; [done|]. by apply bool_decide_eq_true.
Qed.

Lemma register_namespace_well_formed (schema : XMLSchema) (g : XsdGlobals) :
  groups_well_formed_ (namespaces g) →
  groups_well_formed_ (namespaces (register_namespace_ schema g)).
Proof.
  intros Hwf k grp. rewrite register_namespace_lookup.
  destruct (decide (k = _)) as [->|Hk]; [|apply Hwf].
  destruct (namespaces g !! _) as [old|] eqn:Hold.
  - destruct (Hwf _ _ Hold) as (Hne & Hnd & Hkey).
    destruct (decide (schema ∈ old)); [by intros [= <-]|].
    destruct (existsb _ old) eqn:Hex; [by intros [= <-]|].
    intros [= <-]. split; [by destruct old|]. split.
    + rewrite fmap_app. simpl. apply NoDup_app. split; [done|]. split.
      * intros u Hu [->|[]%elem_of_nil]%elem_of_cons.
        by apply existsb_false_not_elem in Hex.
      * apply NoDup_singleton.
    + intros s [Hs| ->%list_elem_of_singleton]%elem_of_app; [by apply Hkey|done].
  - intros [= <-]. split; [done|]. split; [apply NoDup_singleton|].
    by intros s ->%list_elem_of_singleton.
Qed.

Lemma register_globals_namespaces (schema : XMLSchema) (g : XsdGlobals) :
  namespaces (register_globals_ schema g) = namespaces g
  ∨ namespaces (register_globals_ schema g) = namespaces (register_namespace_ schema g).
Proof.
  unfold register_globals. destruct (uri_given schema) as [u|]; [|by right].
  destruct (resources g !! _); [destruct (decide _); [by left|by right]|].
  right. unfold register_namespace. simpl.
  destruct (namespaces g !! _); [|done].
  destruct (decide _); [done|]. by destruct (existsb _ _).
Qed.

Lemma register_globals_well_formed (schema : XMLSchema) (g : XsdGlobals) :
  groups_well_formed_ (namespaces g) →
  groups_well_formed_ (namespaces (register_globals_ schema g)).
Proof.
  intros Hwf. destruct (register_globals_namespaces schema g) as [-> | ->]; [done|].
  by apply register_namespace_well_formed.
Qed.

Lemma register_all_run (schemas : list XMLSchema) (w : World) :
  mfor schemas register_ w
  = (Ok tt, with_globals (λ g, foldl (λ g s, register_globals_ s g) g schemas) w).
Proof.
  revert w. induction schemas as [|s schemas IH]; intros w; simpl.
  - by destruct w.
  - rewrite bind_unfold. simpl. by rewrite IH.
Qed.

(** Well-formed groups are pairwise disjoint. *)
Lemma well_formed_iter_schemas (g : XsdGlobals) :
  groups_well_formed_ (namespaces g) → NoDup (iter_schemas g).
Proof.
  intros Hwf. unfold iter_schemas.
  assert (Hin : ∀ grp, grp ∈ (map_to_list (namespaces g)).*2 →
            ∃ k, namespaces g !! k = Some grp).
  { intros grp (kv & -> & Hkv)%list_elem_of_fmap. exists kv.1.
    apply elem_of_map_to_list. by destruct kv. }
  assert (Heq : ∀ k1 k2 grp1 grp2 s, namespaces g !! k1 = Some grp1 →
            namespaces g !! k2 = Some grp2 → s ∈ grp1 → s ∈ grp2 → k1 = k2).
  { intros k1 k2 grp1 grp2 s H1 H2 Hs1 Hs2.
    destruct (Hwf _ _ H1) as (_ & _ & E1). destruct (Hwf _ _ H2) as (_ & _ & E2).
    by rewrite <- (E1 s Hs1), <- (E2 s Hs2). }
  apply NoDup_bind.
  - intros grp1 grp2 s (k1 & H1)%Hin (k2 & H2)%Hin Hs1 Hs2.
    assert (k1 = k2) as -> by eauto. congruence.
  - intros grp (k & Hk)%Hin. destruct (Hwf _ _ Hk) as (_ & Hnd & _).
    by eapply NoDup_fmap_1.
  - apply NoDup_fmap_2_strong; [|apply NoDup_map_to_list].
    intros [k1 grp1] [k2 grp2] H1%elem_of_map_to_list H2%elem_of_map_to_list Hg.
    simpl in Hg. subst grp2.
    destruct (Hwf _ _ H1) as (Hne & _ & _). destruct grp1 as [|s grp1]; [done|].
    f_equal. eapply (Heq k1 k2 _ _ s); eauto; by left.
Qed.

Lemma register_globals_members (schema : XMLSchema) (g : XsdGlobals) (s : XMLSchema) :
  s ∈ iter_schemas (register_globals_ schema g) → s ∈ iter_schemas g ∨ s = schema.
Proof.
  intros (grp & Hs & (kv & -> & Hkv)%list_elem_of_fmap)%list_elem_of_bind.
  destruct kv as [k grp]. apply elem_of_map_to_list in Hkv. simpl in Hs.
  assert (Hold : ∀ grp', namespaces g !! k = Some grp' → s ∈ grp' → s ∈ iter_schemas g).
  { intros grp' H Hs'. apply list_elem_of_bind. exists grp'. split; [done|].
    apply list_elem_of_fmap. exists (k, grp'). split; [done|]. by apply elem_of_map_to_list. }
  destruct (register_globals_namespaces schema g) as [E|E]; rewrite E in Hkv.
  - left. by eapply Hold.
  - rewrite register_namespace_lookup in Hkv.
    destruct (decide (k = _)) as [->|Hk]; [|left; by eapply Hold].
    destruct (namespaces g !! _) as [old|] eqn:Ho.
    + destruct (decide (schema ∈ old)); [injection Hkv as <-; left; by eapply Hold|].
      destruct (existsb _ old); [injection Hkv as <-; left; by eapply Hold|].
      injection Hkv as <-. apply elem_of_app in Hs as [Hs|Hs%list_elem_of_singleton].
      * left. by eapply Hold.
      * by right.
    + injection Hkv as <-. apply list_elem_of_singleton in Hs. by right.
Qed.

(** X8.  From an empty namespace registry, after any sequence of
    registrations: no group is empty, no two schemas of a group have the
    same resource, every schema is in the group of its own target
    namespace, [iter_schemas] yields no schema twice, and it yields only
    schemas that were registered. *)
Theorem registered_schemas_are_listed_once (schemas : list XMLSchema) (w : World) :
  namespaces (globals w) = ∅ →
  (∀ k grp, namespaces (globals (mfor schemas register_ w).2) !! k = Some grp →
     grp ≠ [] ∧ NoDup (uri <$> grp)
     ∧ ∀ s, s ∈ grp → uri_normalize (target_namespace s) = k)
  ∧ NoDup (iter_schemas (globals (mfor schemas register_ w).2))
  ∧ (∀ s, s ∈ iter_schemas (globals (mfor schemas register_ w).2) → s ∈ schemas).
Proof.
  intros Hempty. rewrite register_all_run. simpl.
  assert (Hwf : ∀ g, groups_well_formed_ (namespaces g) →
            groups_well_formed_ (namespaces (foldl (λ g s, register_globals_ s g) g schemas))).
  { induction schemas as [|s l IH]; intros g Hg; [done|]. simpl.
    apply IH. by apply register_globals_well_formed. }
  assert (H0 : groups_well_formed_ (namespaces (globals w))).
  { intros k grp. by rewrite Hempty, lookup_empty. }
  split; [exact (Hwf _ H0)|]. split; [apply well_formed_iter_schemas, Hwf, H0|].
  assert (Hmem : ∀ g s, s ∈ iter_schemas (foldl (λ g s, register_globals_ s g) g schemas) →
            s ∈ iter_schemas g ∨ s ∈ schemas).
  { clear. induction schemas as [|x l IH]; intros g s; simpl; [by left|].
    intros [H|H]%IH; [|right; by right].
    apply register_globals_members in H as [H| ->]; [by left|right; left]. }
  intros s [H|H]%Hmem; [|done].
  unfold iter_schemas in H. rewrite Hempty, map_to_list_empty in H. by apply elem_of_nil in H.
Qed.


Lemma register_globals_tables (schema : XMLSchema) (g : XsdGlobals) :
  (∀ m, get_map m (register_globals_ schema g) = get_map m g)
  ∧ substitution_groups (register_globals_ schema g) = substitution_groups g
  ∧ validation (register_globals_ schema g) = validation g.
Proof.
  unfold register_globals, register_namespace.
  repeat split; [intros m|..];
    repeat (match goal with
            | |- context [match ?x with _ => _ end] => destruct x
            | |- context [if ?x then _ else _] => destruct x
            end; simpl); try done; by destruct m.
Qed.

(** X9.  A registration returns and touches the two registries only.
    No resource entry is overwritten or removed; every other group is as
    before; the group of the target namespace is as before or has the
    schema appended at its end (a new group when there was none); and a
    schema whose resource equals that of a member of the group, a second
    schema without a resource included, is not added. *)
Theorem register_only_appends (schema : XMLSchema) (w : World) :
  (register_ schema w).1 = Ok tt
  ∧ comps (register_ schema w).2 = comps w
  ∧ lists (register_ schema w).2 = lists w
  ∧ errors (register_ schema w).2 = errors w
  ∧ (∀ m, table m (register_ schema w).2 = table m w)
  ∧ substitution_groups (globals (register_ schema w).2) = substitution_groups (globals w)
  ∧ resources (globals w) ⊆ resources (globals (register_ schema w).2)
  ∧ (∀ k, k ≠ uri_normalize (target_namespace schema) →
       namespaces (globals (register_ schema w).2) !! k = namespaces (globals w) !! k)
  ∧ (namespaces (globals (register_ schema w).2) !! uri_normalize (target_namespace schema)
     = namespaces (globals w) !! uri_normalize (target_namespace schema)
     ∨ namespaces (globals (register_ schema w).2) !! uri_normalize (target_namespace schema)
       = Some (default [] (namespaces (globals w) !! uri_normalize (target_namespace schema))
               ++ [schema]))
  ∧ (∀ grp obj,
       namespaces (globals w) !! uri_normalize (target_namespace schema) = Some grp →
       obj ∈ grp → uri obj = uri schema →
       namespaces (globals (register_ schema w).2) = namespaces (globals w)).
Proof.
  destruct (register_globals_tables schema (globals w)) as (Ht & Hs & _).
  simpl. do 4 (split; [done|]). split; [intros m; apply Ht|]. split; [done|].
  set (g := globals w). set (key := uri_normalize (target_namespace schema)).
  split; [|split; [|split]].
  - unfold register_globals. destruct (uri_given schema) as [u|].
    + destruct (resources g !! uri_normalize u) eqn:Hu.
      * destruct (decide _); [done|]. by rewrite register_namespace_resources.
      * rewrite register_namespace_resources. simpl. by apply insert_subseteq.
    + by rewrite register_namespace_resources.
  - intros k Hk. destruct (register_globals_namespaces schema g) as [-> | ->]; [done|].
    by rewrite register_namespace_lookup, decide_False.
  - destruct (register_globals_namespaces schema g) as [-> | ->]; [by left|].
    rewrite register_namespace_lookup, decide_True by done. fold key.
    destruct (namespaces g !! key) as [grp|]; simpl; [|by right].
    destruct (decide _); [by left|]. destruct (existsb _ _); [by left|by right].
  - intros grp obj Hgrp Hobj Hu.
    destruct (register_globals_namespaces schema g) as [-> | ->]; [done|].
    unfold register_namespace. fold key. rewrite Hgrp.
    destruct (decide _); [done|].
    by rewrite (existsb_elem_of _ grp obj Hobj) by (by apply bool_decide_eq_true).
Qed.

End LedgerShape.

(** ** Clear and build *)

Lemma iter_schemas_cleared (g : XsdGlobals) :
  iter_schemas (clear_globals true g) = [].
Proof. unfold iter_schemas. simpl. by rewrite map_to_list_empty. Qed.

Lemma reset_errors_idempotent (schemas : list XMLSchema) (es : gmap nat (list string)) :
  reset_errors schemas (reset_errors schemas es) = reset_errors schemas es.
Proof.
  apply map_eq. intros k. rewrite !reset_errors_lookup. by destruct (decide _).
Qed.

(** X10.  Two clears in a row are one clear that removes the schemas
    when either of them does; in particular [clear] is idempotent. *)
Theorem clear_composes (first second : bool) (w : World) :
  clear second (clear first w).2 = clear (first || second) w.
Proof.
  unfold clear. simpl. f_equal. f_equal.
  - by destruct first, second.
  - destruct first; simpl.
    + by rewrite iter_schemas_cleared.
    + change (iter_schemas (clear_globals false (globals w))) with (iter_schemas (globals w)).
      apply reset_errors_idempotent.
Qed.

Lemma cleared_is_not_not_cleared (remove_schemas : bool) (w : World) :
  not_cleared (clear remove_schemas w).2 = false.
Proof.
  unfold not_cleared. simpl.
  replace (existsb _ (iter_schemas (clear_globals remove_schemas (globals w)))) with false; [done|].
  symmetry. destruct remove_schemas; [by rewrite iter_schemas_cleared|].
  change (iter_schemas (clear_globals false (globals w))) with (iter_schemas (globals w)).
  apply not_true_is_false. intros (s & Hs & H)%existsb_exists.
  apply bool_decide_eq_true in H. apply H. unfold schema_errors. simpl.
  rewrite reset_errors_lookup, decide_True; [done|].
  apply list_elem_of_fmap. exists s. split; [done|]. by apply list_elem_of_In.
Qed.

Section BuildFacts.
Variable uri_normalize : string → string.
Variable get_qname : string → string → string.
Variable reference_to_qname : string → list (string * string) → string.
Variable get_xsd_attribute : Element → string → string.
Variable iterchildren_xsd_redefine : Element → list Element.
Variable iterchildren_by_tag : string → Element → list Element.
Variable XSD_GLOBAL_TAG : XsdClass → string.
Variable FACTORY_KWARG : XsdClass → string.
Variables XSD_NAMESPACE_PATH XSD_ANY_TYPE XSD_ANY_SIMPLE_TYPE XSD_ANY_ATOMIC_TYPE : string.
Variables XSD_SIMPLE_TYPE_TAG XSD_ATTRIBUTE_TAG XSD_ATTRIBUTE_GROUP_TAG
  XSD_COMPLEX_TYPE_TAG XSD_ELEMENT_TAG XSD_GROUP_TAG XSD_NOTATION_TAG : string.
Variable iter_components : World → nat → XsdClass → list nat.
Variable iter_elements : World → nat → list nat.
Variable iter_errors : XMLSchema → Element → M (list string).
Variable schema_check : XMLSchema → M unit.
Variable OPTIONS : gmap string factory.
Variable BUILTIN_TYPES : gmap string nat.

Abbreviation build_ :=
  (build uri_normalize get_qname reference_to_qname get_xsd_attribute
     iterchildren_xsd_redefine iterchildren_by_tag XSD_GLOBAL_TAG FACTORY_KWARG
     XSD_NAMESPACE_PATH XSD_ANY_TYPE XSD_ANY_SIMPLE_TYPE XSD_ANY_ATOMIC_TYPE
     XSD_SIMPLE_TYPE_TAG XSD_ATTRIBUTE_TAG XSD_ATTRIBUTE_GROUP_TAG
     XSD_COMPLEX_TYPE_TAG XSD_ELEMENT_TAG XSD_GROUP_TAG XSD_NOTATION_TAG
     iter_components iter_elements iter_errors schema_check OPTIONS BUILTIN_TYPES).
Abbreviation build_steps_ :=
  (build_steps get_qname reference_to_qname get_xsd_attribute
     iterchildren_xsd_redefine iterchildren_by_tag XSD_GLOBAL_TAG FACTORY_KWARG
     XSD_ANY_TYPE XSD_ANY_SIMPLE_TYPE XSD_ANY_ATOMIC_TYPE
     XSD_SIMPLE_TYPE_TAG XSD_ATTRIBUTE_TAG XSD_ATTRIBUTE_GROUP_TAG
     XSD_COMPLEX_TYPE_TAG XSD_ELEMENT_TAG XSD_GROUP_TAG XSD_NOTATION_TAG
     iter_components iter_elements iter_errors schema_check BUILTIN_TYPES).

(** X11.  Clear, then build.  After a clear the test of [build] for
    a registry that is not cleared passes.  After [clear(remove_schemas=True)]
    the build raises for the XSD namespace that is no longer registered;
    after a plain clear it raises so exactly when that namespace was not
    registered, and otherwise goes on with the steps of the build, the first
    schema of that namespace being the meta-schema. *)
Theorem clear_makes_build_ready (skip_check : bool) (w : World) :
  (∀ remove_schemas, not_cleared (clear remove_schemas w).2 = false)
  ∧ build_ skip_check (clear true w).2
    = (Raise (XMLSchemaValueError "namespace is not registered."), (clear true w).2)
  ∧ (namespaces (globals w) !! uri_normalize XSD_NAMESPACE_PATH = None →
     build_ skip_check (clear false w).2
     = (Raise (XMLSchemaValueError "namespace is not registered."), (clear false w).2))
  ∧ (∀ meta_schema rest,
       namespaces (globals w) !! uri_normalize XSD_NAMESPACE_PATH = Some (meta_schema :: rest) →
       build_ skip_check (clear false w).2
       = build_steps_ skip_check meta_schema OPTIONS (clear false w).2).
Proof.
  split; [intros b; apply cleared_is_not_not_cleared|].
  unfold build. rewrite !bind_unfold. cbn [get_world].
  rewrite !cleared_is_not_not_cleared. split; [|split].
  - simpl. by rewrite lookup_empty.
  - intros H. simpl. by rewrite H.
  - intros meta_schema rest H. simpl. by rewrite H.
Qed.


Abbreviation expanded_head_ := (expanded_head get_qname reference_to_qname).
Abbreviation join_substitution_group_ := (join_substitution_group get_qname reference_to_qname).
Abbreviation build_substitution_groups_ :=
  (build_substitution_groups get_qname reference_to_qname).
Abbreviation update_base_elements_ := (update_base_elements iter_elements).

Lemma add_to_substitution_group_only (name : string) (x : nat)
    (sg : gmap string (gset nat)) (n : string) (members : gset nat) (c : nat) :
  add_to_substitution_group name x sg !! n = Some members → c ∈ members →
  (∃ old, sg !! n = Some old ∧ c ∈ old) ∨ (n = name ∧ c = x).
Proof.
  unfold add_to_substitution_group.
  destruct (sg !! name) as [old|] eqn:Hold.
  - destruct (decide (n = name)) as [->|Hn].
    + rewrite lookup_insert_eq. intros [= <-] [H|H%elem_of_singleton]%elem_of_union.
      * left. eauto.
      * by right.
    + rewrite lookup_insert_ne by done. left. eauto.
  - destruct (decide (n = name)) as [->|Hn].
    + rewrite lookup_insert_eq. intros [= <-] H%elem_of_singleton. by right.
    + rewrite lookup_insert_ne by done. left. eauto.
Qed.

(** X12.  The derivation of the substitution groups adds nothing but
    what is declared: a member of a set after the step was a member of that
    set before, or is a component of the elements table whose
    [substitution_group] is a non-empty reference that expands to the name
    of the set. *)
Theorem substitution_groups_gain_only_declared_members (w w' : World) :
  build_substitution_groups_ w = (Ok tt, w') →
  ∀ name members c,
    substitution_groups (globals w') !! name = Some members → c ∈ members →
    (∃ old, substitution_groups (globals w) !! name = Some old ∧ c ∈ old)
    ∨ (∃ q o ref,
         elements (globals w) !! q = Some (SItem (IComp c)) ∧ comps w !! c = Some o
         ∧ substitution_group o = Some ref ∧ ref ≠ ""
         ∧ expanded_head_ o ref = name).
Proof.
  unfold build_substitution_groups. rewrite bind_unfold. cbn [get_world].
  intros Hrun.
  set (P := λ u : World, comps u = comps w
    ∧ ∀ name members c,
        substitution_groups (globals u) !! name = Some members → c ∈ members →
        (∃ old, substitution_groups (globals w) !! name = Some old ∧ c ∈ old)
        ∨ (∃ q o ref,
             elements (globals w) !! q = Some (SItem (IComp c)) ∧ comps w !! c = Some o
             ∧ substitution_group o = Some ref ∧ ref ≠ ""
             ∧ expanded_head_ o ref = name)).
  cut (P w'); [by intros [_ H]|].
  eapply (mfor_invariant_ok P); [|shelve|exact Hrun].
  Unshelve. 2: { split; [done|]. intros name members c H Hc. left. eauto. }
  intros v u u' Hv [Hcu HP] Hstep.
  apply elem_of_values in Hv as [q Hq].
  destruct (join_substitution_group_run get_qname reference_to_qname v u (Ok tt) u' Hstep)
    as (Hc & _ & Hsg).
  destruct (Hsg eq_refl) as (c0 & o & -> & Ho & Esg).
  split; [congruence|]. intros name members c. rewrite Esg.
  destruct (substitution_group o) as [ref|] eqn:Href; [|apply HP].
  destruct (decide (ref = "")); [apply HP|].
  intros H Hin. apply add_to_substitution_group_only with (c := c) in H as [(old & H & Hc')|[-> ->]];
    [by eapply HP| |done].
  right. exists q, o, ref. rewrite <- Hcu. by repeat split.
Qed.

(** X13.  Let [schema.check()] leave the registry and the components
    alone.  After a build that returned, every name of the elements table is
    a name of [base_elements], where it holds the global element itself or
    an element of a model group that has the same name and was written over
    it. *)
Theorem base_elements_cover_elements (skip_check : bool) (w w' : World) :
  (∀ s u r u', schema_check s u = (r, u') → globals u' = globals u ∧ comps u' = comps u) →
  build_ skip_check w = (Ok tt, w') →
  ∀ q v, elements (globals w') !! q = Some v →
    ∃ v', base_elements (globals w') !! q = Some v'
      ∧ (v' = v
         ∨ ∃ e o, v' = SItem (IComp e) ∧ comps w' !! e = Some o ∧ comp_name o = q).
Proof.
  intros Hcheck Hbuild.
  set (P := λ u : World, ∀ q v, elements (globals u) !! q = Some v →
    ∃ v', base_elements (globals u) !! q = Some v'
      ∧ (v' = v
         ∨ ∃ e o, v' = SItem (IComp e) ∧ comps u !! e = Some o ∧ comp_name o = q)).
  change (P w').
  unfold build in Hbuild. rewrite bind_unfold in Hbuild. simpl in Hbuild.
  destruct (not_cleared w); [discriminate|].
  destruct (namespaces (globals w) !! _) as [[|meta_schema ?]|]; try discriminate.
  unfold build_steps in Hbuild.
  apply bind_inv_ok in Hbuild as ([] & w1 & _ & Hbuild).
  apply bind_inv_ok in Hbuild as ([] & w2 & _ & Hbuild).
  apply bind_inv_ok in Hbuild as ([] & w3 & _ & Hbuild).
  apply bind_inv_ok in Hbuild as ([] & w4 & _ & Hbuild).
  apply bind_inv_ok in Hbuild as ([] & w5 & _ & Hbuild).
  apply bind_inv_ok in Hbuild as ([] & w6 & _ & Hbuild).
  apply bind_inv_ok in Hbuild as ([] & w7 & H7 & Hbuild).
  assert (P7 : P w7).
  { unfold update_base_elements in H7.
    apply bind_inv_ok in H7 as ([] & u0 & H0 & H7). injection H0 as <-.
    rewrite bind_unfold in H7. cbn [get_world] in H7.
    eapply (mfor_invariant_ok P); [|shelve|exact H7].
    Unshelve.
    2: { intros q v Hv. exists v. split; [|by left]. simpl in *.
         change (base_elements (set_map BaseElements ?t ?g)) with t.
         by apply lookup_union_Some_l. }
    intros g u u' _ HP Hstep. unfold add_group_elements in Hstep.
    apply bind_inv_ok in Hstep as (grp & u1 & Hg & Hstep).
    assert (u1 = u) as ->.
    { unfold as_component in Hg. destruct g as [[]|]; by injection Hg. }
    rewrite bind_unfold in Hstep. cbn [get_world] in Hstep.
    eapply (mfor_invariant_ok P); [|exact HP|exact Hstep].
    intros e x x' _ HPx He.
    apply bind_inv_ok in He as (o & x1 & Ho & He).
    unfold deref in Ho. destruct (comps x !! e) eqn:Hce; [|done]. injection Ho as -> <-.
    injection He as <-. intros q v Hv.
    change (elements (globals (set_slot BaseElements (comp_name o) (SItem (IComp e)) x)))
      with (elements (globals x)) in Hv.
    change (base_elements (globals (set_slot BaseElements (comp_name o) (SItem (IComp e)) x)))
      with (<[comp_name o := SItem (IComp e)]> (base_elements (globals x))).
    change (comps (set_slot BaseElements (comp_name o) (SItem (IComp e)) x)) with (comps x).
    destruct (decide (comp_name o = q)) as [<-|Hq].
    - rewrite lookup_insert_eq. eexists. split; [done|]. right. eauto.
    - rewrite lookup_insert_ne by done. by apply HPx. }
  destruct skip_check; [by injection Hbuild as <-|].
  unfold check in Hbuild. rewrite bind_unfold in Hbuild. cbn [get_world] in Hbuild.
  eapply (mfor_invariant_ok P); [|exact P7|exact Hbuild].
  intros s u u' _ HP Hs. destruct (Hcheck _ _ _ _ Hs) as [Eg Ec].
  intros q v. rewrite Eg, Ec. apply HP.
Qed.

End BuildFacts.

(** ** Model groups *)

(** One step of the loop: [obj[k]] is a component afterwards, the one
    it was when it was one. *)
Lemma build_group_item_step (element_factory : option factory) (obj k : nat)
    (w w' : World) (o : XsdComponent) :
  (∀ f, element_factory = Some f →
     ∀ a b i g u r u' o0, comps u !! obj = Some o0 → f a b i g u = (r, u') →
       comps u' !! obj = Some o0) →
  comps w !! obj = Some o →
  build_group_item element_factory obj k w = (Ok tt, w') →
  ∃ c, comps w' !! obj = Some (set_content (<[k := IComp c]> (content o)) o)
       ∧ (k < length (content o))%nat
       ∧ ∀ c', content o !! k = Some (IComp c') → c = c'.
Proof.
  intros Hf Ho. unfold build_group_item. rewrite bind_unfold. unfold deref at 1.
  rewrite Ho. destruct (content o !! k) as [[c|e s]|] eqn:Hk; [| |done].
  - intros [= <-]. exists c. rewrite list_insert_id by done. split.
    + rewrite Ho. by destruct o.
    + split; [by eapply lookup_lt_Some|]. by intros c' [= ->].
  - destruct element_factory as [f|]; rewrite bind_unfold; simpl; [|done].
    rewrite bind_unfold.
    destruct (f (AElem e) (ASchema s) None None w) as [[c|x] w1] eqn:Ef; [|done].
    rewrite bind_unfold. unfold deref.
    rewrite (Hf f eq_refl _ _ _ _ _ _ _ _ Ho Ef).
    destruct (decide _) as [Hlt|]; [|done]. intros [= <-]. exists c. simpl.
    rewrite lookup_insert_eq. split; [done|]. split; [done|]. by intros c'.
Qed.

(** X16.  The items of a model group after step 5.  Let the element
    construction function leave an allocated group as it is.  When the loop
    over the items of a group returns, the group has as many items as
    before, every item is a component, and the components it held are where
    they were: only the raw tuples have been replaced. *)
Theorem group_items_are_built (element_factory : option factory) (obj : nat)
    (w w' : World) (o : XsdComponent) :
  (∀ f, element_factory = Some f →
     ∀ a b i g u r u' o0, comps u !! obj = Some o0 → f a b i g u = (r, u') →
       comps u' !! obj = Some o0) →
  comps w !! obj = Some o →
  build_group_items element_factory obj w = (Ok tt, w') →
  ∃ items, comps w' !! obj = Some (set_content items o)
    ∧ length items = length (content o)
    ∧ (∀ k it, items !! k = Some it → ∃ c, it = IComp c)
    ∧ (∀ k c, content o !! k = Some (IComp c) → items !! k = Some (IComp c)).
Proof.
  intros Hf Ho. unfold build_group_items. rewrite bind_unfold. unfold deref at 1.
  rewrite Ho.
  set (I := λ (j : nat) (u : World), ∃ items,
         comps u !! obj = Some (set_content items o)
         ∧ length items = length (content o)
         ∧ (∀ k it, (k < j)%nat → items !! k = Some it → ∃ c, it = IComp c)
         ∧ (∀ k, (j ≤ k)%nat → items !! k = content o !! k)
         ∧ (∀ k c, content o !! k = Some (IComp c) → items !! k = Some (IComp c))).
  assert (Hloop : ∀ n j u u', (j + n = length (content o))%nat → I j u →
            mfor (seq j n) (build_group_item element_factory obj) u = (Ok tt, u') →
            I (j + n)%nat u').
  { induction n as [|n IH]; intros j u u' Hn HI; simpl.
    - intros [= <-]. by rewrite Nat.add_0_r.
    - intros Hrun. apply bind_inv_ok in Hrun as ([] & u1 & H1 & Hrun).
      replace (j + S n)%nat with (S j + n)%nat by lia.
      apply (IH (S j) u1 u'); [lia| |exact Hrun].
      destruct HI as (items & Hc & Hlen & Hdone & Hrest & Hkeep).
      destruct (build_group_item_step _ _ _ _ _ _ Hf Hc H1) as (c & Hc1 & Hlt & Hsame).
      simpl in Hc1, Hlt, Hsame.
      exists (<[j := IComp c]> items). split; [by rewrite Hc1|].
      split; [by rewrite length_insert|]. split; [|split].
      + intros k it Hk. destruct (decide (k = j)) as [->|Hkj].
        * rewrite list_lookup_insert_eq by done. intros [= <-]. eauto.
        * rewrite list_lookup_insert_ne by done. apply Hdone. lia.
      + intros k Hk. rewrite list_lookup_insert_ne by lia. apply Hrest. lia.
      + intros k c' Hk. destruct (decide (k = j)) as [->|Hkj].
        * rewrite list_lookup_insert_eq by done. f_equal. f_equal. apply Hsame.
          by rewrite Hrest, Hk by lia.
        * rewrite list_lookup_insert_ne by done. by apply Hkeep. }
  intros Hrun. apply (Hloop _ 0 w w') in Hrun; [|done|].
  - destruct Hrun as (items & Hc & Hlen & Hdone & _ & Hkeep). exists items.
    repeat split; try done. intros k it Hk. apply (Hdone k); [|done].
    apply lookup_lt_Some in Hk. simpl. lia.
  - exists (content o). split; [rewrite Ho; by destruct o|]. repeat split; try done.
    intros k it Hk. lia.
Qed.

(** ** The view: probe keys and enumeration *)

Lemma is_ok_prepend (c : ascii) (r : result string) : is_ok (prepend c r) = is_ok r.
Proof. by destruct r. Qed.

Lemma string_length_app (a b : string) :
  String.length (a ++ b)%string = (String.length a + String.length b)%nat.
Proof.
  induction a as [|c a IH]; [done|]. rewrite string_app_cons. simpl. by rewrite IH.
Qed.

Ltac format_cases :=
  repeat match goal with
    | |- context [decide ?P] => destruct (decide P)
    | |- context [is_flag ?c] => destruct (is_flag c)
    | |- context [is_digit ?c] => destruct (is_digit c)
    | |- context [is_length_modifier ?c] => destruct (is_length_modifier c)
    | |- context [is_conversion ?c] => destruct (is_conversion c)
    | |- context [bool_decide ?P] => destruct (bool_decide P)
    end.

(** Once the argument is used, a format that ends with [}%s] cannot be
    completed. *)
Lemma no_argument_left (x : string) (pos : option spec_pos) (plain : bool) :
  is_ok (percent_format_from pos plain (x ++ "}%s")%string None) = false.
Proof.
  revert pos plain. induction x as [|c x IH]; intros pos plain.
  - destruct pos as [[]|], plain; reflexivity.
  - rewrite string_app_cons.
    destruct pos as [[]|]; cbn [percent_format_from]; format_cases;
      rewrite ?is_ok_prepend; first [apply IH|reflexivity].
Qed.

(** The length of what a format produces. *)
Lemma percent_format_length (fmt : string) (pos : option spec_pos) (plain : bool)
    (arg : option string) (s : string) :
  percent_format_from pos plain fmt arg = Ok s →
  match arg, pos with
  | None, _ => (String.length s ≤ String.length fmt)%nat
  | Some a, None => (String.length s + 2 ≤ String.length fmt + String.length a)%nat
  | Some a, Some _ => (String.length s + 1 ≤ String.length fmt + String.length a)%nat
  end.
Proof.
  revert pos plain arg s. induction fmt as [|c fmt IH]; intros pos plain arg s.
  - destruct pos as [[]|], arg; simpl; try done. intros [= <-]. simpl. lia.
  - assert (Hp : ∀ r s, prepend c r = Ok s → ∃ s', r = Ok s' ∧ s = String c s').
    { intros [s'|] s0; simpl; [|done]. intros [= <-]. eauto. }
    assert (Hps : ∀ a r s, prepend_string a r = Ok s → ∃ s', r = Ok s' ∧ s = (a ++ s')%string).
    { intros a [s'|] s0; simpl; [|done]. intros [= <-]. eauto. }
    destruct pos as [[]|], arg as [a|], plain; cbn [percent_format_from]; format_cases;
      simpl; try discriminate;
      try (intros H%IH; simpl in *; lia);
      try (intros (s' & H%IH & ->)%Hp; simpl in *; lia);
      try (intros (s' & H%IH & ->)%Hps; rewrite string_length_app; simpl in *; lia).
Qed.

(** Inside a conversion specification, with the argument still unused
    and [}%s] to come, what is produced is shorter by one more character. *)
Lemma percent_format_length_in_spec (x : string) (p : spec_pos) (plain : bool)
    (a s : string) :
  percent_format_from (Some p) plain (x ++ "}%s")%string (Some a) = Ok s →
  (String.length s + 2 ≤ String.length (x ++ "}%s")%string + String.length a)%nat.
Proof.
  revert p plain s. induction x as [|c x IH]; intros p plain s.
  - destruct p, plain; discriminate.
  - rewrite string_app_cons.
    assert (Hp : ∀ r s, prepend c r = Ok s → ∃ s', r = Ok s' ∧ s = String c s').
    { intros [s'|] s0; simpl; [|done]. intros [= <-]. eauto. }
    assert (Hno : ∀ s, prepend_string a (percent_format_from None true (x ++ "}%s")%string None)
                       ≠ Ok s).
    { intros s0 H. pose proof (no_argument_left x None true) as E.
      destruct (percent_format_from None true _ None); [done|discriminate]. }
    destruct p, plain; cbn [percent_format_from]; format_cases;
      simpl; try discriminate;
      try (intros H%IH; simpl in *; lia);
      try (intros (s' & H%percent_format_length & ->)%Hp; simpl in *; lia);
      try (intros H; by apply Hno in H).
Qed.

Lemma has_percent_split (U : string) :
  has_percent U = true →
  ∃ y x, U = (y ++ String "%" x)%string ∧ has_percent y = false.
Proof.
  induction U as [|c U IH]; simpl; [done|].
  destruct (bool_decide (c = "%"%char)) eqn:Hc; simpl.
  - intros _. apply bool_decide_eq_true in Hc as ->. by exists "", U.
  - intros (y & x & -> & Hy)%IH. exists (String c y), x. split; [done|].
    simpl. by rewrite Hc.
Qed.

(** With a percent sign in the namespace, what [key_fmt % key] gives,
    if anything, is shorter than the promoted key. *)
Lemma key_fmt_with_percent {V} (d : gmap string V) (U key s : string) :
  has_percent U = true →
  percent_format (key_fmt (NamespaceView_init d U)) key = Ok s →
  (String.length s < String.length (promoted U key))%nat.
Proof.
  intros HU. destruct (has_percent_split U HU) as (y & x & -> & Hy).
  unfold NamespaceView_init, promoted, percent_format. simpl.
  assert (Hne : (y ++ String "%" x)%string ≠ "") by (by destruct y).
  rewrite !decide_False by done.
  replace ("{" ++ (y ++ String "%" x) ++ "}%s")%string
    with (("{" ++ y) ++ String "%" (x ++ "}%s"))%string.
  2: { change ("{" ++ y)%string with (String "{" y).
       change ("{" ++ (y ++ String "%" x) ++ "}%s")%string
         with (String "{" ((y ++ String "%" x) ++ "}%s")).
       rewrite string_app_cons. f_equal. by rewrite string_app_assoc, string_app_cons. }
  rewrite percent_format_text by (by rewrite has_percent_app, Hy).
  cbn [percent_format_from]. rewrite decide_True by done.
  destruct (percent_format_from (Some PStart) true (x ++ "}%s") (Some key)) as [s1|] eqn:E;
    [|done].
  simpl. intros [= <-]. apply percent_format_length_in_spec in E.
  rewrite !string_length_app in E. rewrite !string_length_app. simpl in *. lia.
Qed.

Section ViewProbe.
Context {V : Type}.
Variable get_namespace : string → string.
Variable local_name : string → string.

Abbreviation as_dict_ := (as_dict get_namespace local_name).
Abbreviation own_items_ := (own_items get_namespace).
Abbreviation iter_ := (iter get_namespace local_name).

(** X14.  The probe key [key_fmt % key] of a view is the promoted form
    [{U}key] for every key when the namespace [U] has no percent sign, and
    for no key when it has one. *)
Theorem view_promotes_exactly_without_percent (d : gmap string V) (U : string) :
  (has_percent U = false →
     ∀ key, percent_format (key_fmt (NamespaceView_init d U)) key = Ok (promoted U key))
  ∧ (has_percent U = true →
     ∀ key, percent_format (key_fmt (NamespaceView_init d U)) key ≠ Ok (promoted U key)).
Proof.
  split; [intros HU key; by apply key_fmt_promotes|].
  intros HU key H. pose proof (key_fmt_with_percent d U key _ HU H). lia.
Qed.

Lemma elem_of_keys (m : gmap string V) (l : string) : l ∈ keys m ↔ is_Some (m !! l).
Proof.
  unfold keys. rewrite list_elem_of_fmap. split.
  - intros ([k v] & -> & H%elem_of_map_to_list). eauto.
  - intros [v H]. exists (l, v). split; [done|]. by apply elem_of_map_to_list.
Qed.

(** X15.  Lookup and enumeration of a view agree on canonical names.
    Let [U] have no percent sign, let every name of the table in the
    namespace [U] be the promoted form of its local name, and let every
    promoted name of the table be in the namespace [U] with the local name
    it was promoted from.  Then [view[l]] is the value of [as_dict()] under
    [l], or a [KeyError] when there is none, and [l in view] holds exactly
    when [l] is among the names that the view iterates over. *)
Theorem view_lookup_agrees_with_enumeration (d : gmap string V) (U : string) :
  has_percent U = false →
  (∀ k, is_Some (d !! k) → U = get_namespace k → k = promoted U (local_name k)) →
  (∀ l, is_Some (d !! promoted U l) →
        U = get_namespace (promoted U l) ∧ local_name (promoted U l) = l) →
  ∀ l,
    getitem (NamespaceView_init d U) l
    = match as_dict_ (NamespaceView_init d U) false !! l with
      | Some v => Ok v
      | None => Raise (KeyError (promoted U l))
      end
    ∧ contains (NamespaceView_init d U) l
      = Ok (bool_decide (l ∈ iter_ (NamespaceView_init d U))).
Proof.
  intros HU Hcanon Hback l.
  set (self := NamespaceView_init d U).
  assert (Hown : ∀ k v, (k, v) ∈ own_items_ self ↔ d !! k = Some v ∧ U = get_namespace k).
  { intros k v. apply (own_items_elem get_namespace local_name self). }
  assert (E : as_dict_ self false !! l = d !! promoted U l).
  { unfold as_dict. destruct (foldl _ ∅ (own_items_ self) !! l) as [v|] eqn:Hl.
    - apply comprehension_sound in Hl as [(k & [Hk Hns]%Hown & <-)|Hl]; [|done].
      by rewrite <- (Hcanon k) by eauto.
    - destruct (d !! promoted U l) as [v|] eqn:Hd; [|done].
      destruct (Hback l) as [Hns Hloc]; [by rewrite Hd|].
      assert (Hin : (promoted U l, v) ∈ own_items_ self) by (by apply Hown).
      apply (comprehension_complete local_name _ ∅) in Hin.
      + rewrite Hloc in Hin. congruence.
      + intros k' v' [Hk' Hns']%Hown Heq. rewrite Hloc in Heq.
        rewrite (Hcanon k') in Hk' by eauto. rewrite Heq in Hk'. congruence. }
  unfold getitem, contains. subst self. rewrite key_fmt_promotes by done.
  change (target_dict (NamespaceView_init d U)) with d. rewrite <- E. split; [done|].
  f_equal. apply bool_decide_ext. unfold iter. by rewrite elem_of_keys.
Qed.

End ViewProbe.

(** ** The loader: when it fails *)



Section LoadFailure.
Variable get_qname : string → string → string.
Variable get_xsd_attribute : Element → string → string.
Variable iterchildren_xsd_redefine : Element → list Element.
Variable filter_function : Element → list Element.

Abbreviation load_xsd_globals_ :=
  (load_xsd_globals get_qname get_xsd_attribute iterchildren_xsd_redefine filter_function).
Abbreviation declared_ := (declared get_qname get_xsd_attribute filter_function).
Abbreviation pending_ :=
  (pending get_qname get_xsd_attribute iterchildren_xsd_redefine filter_function).


End LoadFailure.

(** ** The ledger: settled schemas *)

Section LedgerSettled.
Variable uri_normalize : string → string.

Abbreviation register_namespace_ := (register_namespace uri_normalize).
Abbreviation register_globals_ := (register_globals uri_normalize).
Abbreviation register_ := (register uri_normalize).

(** A schema that the namespace half of [register] has nothing to do
    for: its group is there, and it is a member or one of the members has
    its resource. *)
Lemma register_namespace_fixed (s : XMLSchema) (g : XsdGlobals) :
  register_namespace_ s g = g
  ↔ ∃ grp, namespaces g !! uri_normalize (target_namespace s) = Some grp
      ∧ (s ∈ grp ∨ existsb (λ obj, bool_decide (uri s = uri obj)) grp = true).
Proof.
  split.
  - intros E. apply (f_equal namespaces) in E.
    apply (f_equal (λ ns, ns !! uri_normalize (target_namespace s))) in E.
    rewrite register_namespace_lookup, decide_True in E by done.
    destruct (namespaces g !! _) as [grp|]; [|done]. exists grp. split; [done|].
    destruct (decide (s ∈ grp)); [by left|].
    destruct (existsb _ grp); [by right|].
    injection E as E. apply (f_equal length) in E. rewrite length_app in E. simpl in E. lia.
  - intros (grp & Hg & H). unfold register_namespace. rewrite Hg.
    destruct (decide (s ∈ grp)); [done|]. destruct H as [H|H]; [done|]. by rewrite H.
Qed.

Lemma register_globals_group (t : XMLSchema) (g : XsdGlobals) (k : string)
    (grp : list XMLSchema) :
  namespaces g !! k = Some grp →
  namespaces (register_globals_ t g) !! k = Some grp
  ∨ namespaces (register_globals_ t g) !! k = Some (grp ++ [t]).
Proof.
  intros Hg. destruct (register_globals_namespaces uri_normalize t g) as [-> | ->]; [by left|].
  rewrite register_namespace_lookup. destruct (decide _) as [->|]; [|by left].
  rewrite Hg. destruct (decide _); [by left|]. destruct (existsb _ _); [by left|by right].
Qed.

Lemma register_namespace_stays_fixed (s t : XMLSchema) (g : XsdGlobals) :
  register_namespace_ s g = g →
  register_namespace_ s (register_globals_ t g) = register_globals_ t g.
Proof.
  intros (grp & Hg & H)%register_namespace_fixed. apply register_namespace_fixed.
  destruct (register_globals_group t g _ grp Hg) as [E|E].
  - exists grp. by split.
  - exists (grp ++ [t]). split; [done|]. destruct H as [H|H].
    + left. apply elem_of_app. by left.
    + right. rewrite existsb_app, H. done.
Qed.

Lemma register_globals_resources (t : XMLSchema) (g : XsdGlobals) :
  resources g ⊆ resources (register_globals_ t g).
Proof.
  unfold register_globals. destruct (uri_given t) as [u|].
  - destruct (resources g !! uri_normalize u) eqn:Hu.
    + destruct (decide _); [done|]. by rewrite register_namespace_resources.
    + rewrite register_namespace_resources. simpl. by apply insert_subseteq.
  - by rewrite register_namespace_resources.
Qed.

(** A schema for which [register] has nothing to do stays so when
    another schema is registered. *)
Lemma register_globals_stays_fixed (s t : XMLSchema) (g : XsdGlobals) :
  register_globals_ s g = g →
  register_globals_ s (register_globals_ t g) = register_globals_ t g.
Proof.
  intros Hs. pose proof (register_globals_resources t g) as Hres.
  unfold register_globals at 1. unfold register_globals in Hs.
  destruct (uri_given s) as [u|]; [|by apply register_namespace_stays_fixed].
  destruct (resources g !! uri_normalize u) as [known|] eqn:Hu.
  - rewrite (lookup_weaken _ _ _ _ Hu Hres).
    destruct (decide (known ≠ s)); [done|]. by apply register_namespace_stays_fixed.
  - exfalso. apply (f_equal resources) in Hs.
    rewrite register_namespace_resources in Hs. simpl in Hs.
    apply (f_equal (λ rs, rs !! uri_normalize u)) in Hs.
    by rewrite lookup_insert_eq, Hu in Hs.
Qed.

(** X18.  After any sequence of registrations, from any registry,
    registering one of the schemas of the sequence again changes nothing,
    whether the schema was added to its group or passed over. *)
Theorem registered_schema_stays_registered (schemas : list XMLSchema) (w : World) :
  ∀ s, s ∈ schemas →
    register_ s (mfor schemas register_ w).2 = (Ok tt, (mfor schemas register_ w).2).
Proof.
  intros s Hs. rewrite register_all_run. cbn [snd]. unfold register, modify. f_equal.
  apply with_globals_id. cbn [globals with_globals].
  generalize (globals w). clear w. revert s Hs.
  induction schemas as [|t schemas IH]; intros s Hs g; [by apply elem_of_nil in Hs|].
  simpl. apply elem_of_cons in Hs as [->|Hs]; [|by apply IH].
  assert (Hfix : ∀ l g0, register_globals_ t g0 = g0 →
            register_globals_ t (foldl (λ g s, register_globals_ s g) g0 l)
            = foldl (λ g s, register_globals_ s g) g0 l).
  { clear. induction l as [|x l IH]; intros g0 H0; [done|]. simpl.
    apply IH. by apply register_globals_stays_fixed. }
  apply Hfix. apply register_globals_idempotent.
Qed.

End LedgerSettled.

(** ** Runs of the further properties *)

(** A run whose result is known, as an equation with its final world. *)
Lemma run_ok {A} (m : M A) (w : World) (a : A) :
  (m w).1 = Ok a → m w = (Ok a, (m w).2).
Proof. destruct (m w) as [r w']. simpl. by intros ->. Qed.

Lemma lookup_stores_what_it_returns_witness :
  let r := Sample.lookup_type "{urn:a}N" Sample.OPTIONS Sample.declared_world in
  table Types Sample.declared_world !! "{urn:a}N"
    = Some (SItem (IPair Sample.base_declaration Sample.base_document))
  ∧ r.1 = Ok (IComp 0)
  ∧ table Types r.2 !! "{urn:a}N" = Some (SItem (IComp 0))
  ∧ Sample.lookup_type "{urn:a}N" ∅ r.2 = (Ok (IComp 0), r.2).
Proof.
  intros r. subst r.
  assert (Hok : (Sample.lookup_type "{urn:a}N" Sample.OPTIONS Sample.declared_world).1
                = Ok (IComp 0)) by (vm_compute; reflexivity).
  pose proof (run_ok (Sample.lookup_type "{urn:a}N" Sample.OPTIONS)
                Sample.declared_world _ Hok) as Hr.
  destruct (lookup_stores_what_it_returns Sample.XSD_GLOBAL_TAG Sample.FACTORY_KWARG Types
              (ClassTuple [XsdSimpleType; XsdComplexType]) _ _ _ _ _ Hr)
    as (c & Hc & Hslot & Hmemo).
  injection Hc as <-.
  split; [vm_compute; reflexivity|]. split; [exact Hok|]. split; [exact Hslot|].
  eapply Hmemo; vm_compute; reflexivity.
Defined.

Lemma singly_declared_name_is_built_from_its_declaration_witness :
  let e := Sample.declaration Sample.XSD_SIMPLE_TYPE_TAG "Age" in
  let r := Sample.load_xsd_simple_types Types [Sample.age_document] Sample.new_world in
  r.1 = Ok tt
  ∧ table Types r.2 !! "{urn:a}Age" = Some (SItem (IPair e Sample.age_document))
  ∧ Sample.lookup_type "{urn:a}Age" Sample.OPTIONS r.2
    = lookup_construct Sample.XSD_GLOBAL_TAG Sample.FACTORY_KWARG Types
        (ClassTuple [XsdSimpleType; XsdComplexType]) Sample.OPTIONS "{urn:a}Age"
        (AElem e) (ASchema Sample.age_document) r.2
  ∧ (Sample.lookup_type "{urn:a}Age" Sample.OPTIONS r.2).1 = Ok (IComp 0).
Proof.
  intros e r. subst r.
  assert (Hok : (Sample.load_xsd_simple_types Types [Sample.age_document]
                   Sample.new_world).1 = Ok tt) by (vm_compute; reflexivity).
  pose proof (run_ok (Sample.load_xsd_simple_types Types [Sample.age_document])
                Sample.new_world _ Hok) as Hr.
  assert (Hp : pending Sample.get_qname Sample.get_xsd_attribute
                 Sample.iterchildren_xsd_redefine
                 (Sample.iterchildren_by_tag Sample.XSD_SIMPLE_TYPE_TAG)
                 [Sample.age_document] = []) by (vm_compute; reflexivity).
  destruct (singly_declared_name_is_built_from_its_declaration
              Sample.get_qname Sample.get_xsd_attribute Sample.iterchildren_xsd_redefine
              (Sample.iterchildren_by_tag Sample.XSD_SIMPLE_TYPE_TAG)
              Sample.XSD_GLOBAL_TAG Sample.FACTORY_KWARG Types
              (ClassTuple [XsdSimpleType; XsdComplexType])
              [Sample.age_document] Sample.new_world
              (Sample.load_xsd_simple_types Types [Sample.age_document] Sample.new_world).2
              "{urn:a}Age" e
              Sample.age_document Sample.OPTIONS) as [H1 H2].
  - apply lists_separate_items. vm_compute. reflexivity.
  - vm_compute. reflexivity.
  - vm_compute. reflexivity.
  - intros x Hx. rewrite Hp in Hx. by apply elem_of_nil in Hx.
  - exact Hr.
  - split; [exact Hok|]. split; [exact H1|]. split; [exact H2|].
    vm_compute. reflexivity.
Defined.

Lemma registered_schemas_are_listed_once_witness :
  let schemas := [Sample.meta_document; Sample.document_a; Sample.document_a;
                  Sample.document_b] in
  let g := globals (mfor schemas (register Sample.uri_normalize) Sample.builtin_world).2 in
  namespaces (globals Sample.builtin_world) = ∅
  ∧ iter_schemas g = [Sample.meta_document; Sample.document_a; Sample.document_b]
  ∧ (∀ k grp, namespaces g !! k = Some grp →
       grp ≠ [] ∧ NoDup (uri <$> grp)
       ∧ ∀ s, s ∈ grp → Sample.uri_normalize (target_namespace s) = k)
  ∧ NoDup (iter_schemas g)
  ∧ (∀ s, s ∈ iter_schemas g → s ∈ schemas).
Proof.
  intros schemas g. subst g.
  assert (H0 : namespaces (globals Sample.builtin_world) = ∅) by reflexivity.
  split; [exact H0|]. split; [vm_compute; reflexivity|].
  exact (registered_schemas_are_listed_once Sample.uri_normalize schemas
           Sample.builtin_world H0).
Defined.

Lemma substitution_groups_gain_only_declared_members_witness :
  let step := build_substitution_groups Sample.get_qname Sample.reference_to_qname in
  let w := Sample.resolved_heads_world in
  substitution_groups (globals w) = ∅
  ∧ (step w).1 = Ok tt
  ∧ substitution_groups (globals (step w).2) !! "{urn:a}head" = Some {[4]}
  ∧ (∀ name members c,
       substitution_groups (globals (step w).2) !! name = Some members → c ∈ members →
       (∃ old, substitution_groups (globals w) !! name = Some old ∧ c ∈ old)
       ∨ (∃ q o ref,
            elements (globals w) !! q = Some (SItem (IComp c)) ∧ comps w !! c = Some o
            ∧ substitution_group o = Some ref ∧ ref ≠ ""
            ∧ expanded_head Sample.get_qname Sample.reference_to_qname o ref = name)).
Proof.
  intros step w. subst step w.
  assert (Hok : (build_substitution_groups Sample.get_qname Sample.reference_to_qname
                   Sample.resolved_heads_world).1 = Ok tt) by (vm_compute; reflexivity).
  pose proof (run_ok (build_substitution_groups Sample.get_qname Sample.reference_to_qname)
                Sample.resolved_heads_world _ Hok) as Hr.
  split; [vm_compute; reflexivity|]. split; [exact Hok|].
  split; [vm_compute; reflexivity|].
  exact (substitution_groups_gain_only_declared_members Sample.get_qname
           Sample.reference_to_qname _ _ Hr).
Defined.

Lemma base_elements_cover_elements_witness :
  let r := Sample.build Sample.BUILTIN_TYPES false Sample.heads_world in
  r.1 = Ok tt
  ∧ elements (globals r.2) !! "{urn:a}member" = Some (SItem (IComp 4))
  ∧ base_elements (globals r.2) !! "{urn:a}member" = Some (SItem (IComp 4))
  ∧ (∀ q v, elements (globals r.2) !! q = Some v →
       ∃ v', base_elements (globals r.2) !! q = Some v'
         ∧ (v' = v
            ∨ ∃ e o, v' = SItem (IComp e) ∧ comps r.2 !! e = Some o ∧ comp_name o = q)).
Proof.
  intros r. subst r.
  assert (Hok : (Sample.build Sample.BUILTIN_TYPES false Sample.heads_world).1 = Ok tt)
    by (vm_compute; reflexivity).
  pose proof (run_ok (Sample.build Sample.BUILTIN_TYPES false) Sample.heads_world _ Hok)
    as Hr.
  split; [exact Hok|]. split; [vm_compute; reflexivity|].
  split; [vm_compute; reflexivity|].
  refine (base_elements_cover_elements
    Sample.uri_normalize Sample.get_qname Sample.reference_to_qname
    Sample.get_xsd_attribute Sample.iterchildren_xsd_redefine Sample.iterchildren_by_tag
    Sample.XSD_GLOBAL_TAG Sample.FACTORY_KWARG
    Sample.XSD_NAMESPACE_PATH Sample.XSD_ANY_TYPE Sample.XSD_ANY_SIMPLE_TYPE
    Sample.XSD_ANY_ATOMIC_TYPE Sample.XSD_SIMPLE_TYPE_TAG Sample.XSD_ATTRIBUTE_TAG
    Sample.XSD_ATTRIBUTE_GROUP_TAG Sample.XSD_COMPLEX_TYPE_TAG Sample.XSD_ELEMENT_TAG
    Sample.XSD_GROUP_TAG Sample.XSD_NOTATION_TAG
    Sample.iter_components Sample.iter_elements Sample.iter_errors Sample.schema_check
    Sample.OPTIONS Sample.BUILTIN_TYPES false Sample.heads_world _ _ Hr).
  intros s u x u' [= _ <-]. by split.
Defined.

Lemma group_items_are_built_witness :
  let r := build_group_items (Some (Sample.make_component XsdElement)) 1
             Sample.group_world in
  (content <$> comps Sample.group_world !! 1)
    = Some [IPair Sample.local_element Sample.heads_document; IComp 0]
  ∧ r.1 = Ok tt
  ∧ (content <$> comps r.2 !! 1) = Some [IComp 2; IComp 0]
  ∧ ∃ items, comps r.2 !! 1 = Some (set_content items Sample.raw_group)
      ∧ length items = length (content Sample.raw_group)
      ∧ (∀ k it, items !! k = Some it → ∃ c, it = IComp c)
      ∧ (∀ k c, content Sample.raw_group !! k = Some (IComp c) →
           items !! k = Some (IComp c)).
Proof.
  intros r. subst r.
  assert (Hok : (build_group_items (Some (Sample.make_component XsdElement)) 1
                   Sample.group_world).1 = Ok tt) by (vm_compute; reflexivity).
  pose proof (run_ok (build_group_items (Some (Sample.make_component XsdElement)) 1)
                Sample.group_world _ Hok) as Hr.
  split; [vm_compute; reflexivity|]. split; [exact Hok|].
  split; [vm_compute; reflexivity|].
  apply (group_items_are_built (Some (Sample.make_component XsdElement)) 1
           Sample.group_world _ Sample.raw_group); [|vm_compute; reflexivity|exact Hr].
  intros f [= <-] a b i g u x u' o0 Ho Hrun. unfold Sample.make_component in Hrun.
  destruct a as [e| |]; try (by injection Hrun as _ <-).
  destruct b as [|s|]; try (by injection Hrun as _ <-).
  injection Hrun as _ <-. simpl. rewrite lookup_insert_ne; [exact Ho|].
  intros E. apply (is_fresh (dom (comps u))). rewrite E. apply elem_of_dom. eauto.
Defined.

Lemma view_lookup_agrees_with_enumeration_witness :
  has_percent "urn:a" = false
  ∧ as_dict Sample.get_namespace Sample.local_name Sample.plain_view false = {[ "x" := 7 ]}
  ∧ getitem Sample.plain_view "x" = Ok 7
  ∧ (∀ l, getitem Sample.plain_view l
          = match as_dict Sample.get_namespace Sample.local_name Sample.plain_view false !! l with
            | Some v => Ok v
            | None => Raise (KeyError (promoted "urn:a" l))
            end
          ∧ contains Sample.plain_view l
            = Ok (bool_decide (l ∈ iter Sample.get_namespace Sample.local_name
                                      Sample.plain_view))).
Proof.
  split; [reflexivity|]. split; [vm_compute; reflexivity|].
  split; [vm_compute; reflexivity|].
  apply (view_lookup_agrees_with_enumeration Sample.get_namespace Sample.local_name
           Sample.plain_table "urn:a"); [reflexivity| |].
  - intros k [v Hk] _. unfold Sample.plain_table in Hk.
    apply lookup_singleton_Some in Hk as [<- _]. reflexivity.
  - intros l _. split; vm_compute; reflexivity.
Defined.

Lemma registered_schema_stays_registered_witness :
  let schemas := [Sample.meta_document; Sample.document_a; Sample.document_b] in
  let w := (mfor schemas (register Sample.uri_normalize) Sample.builtin_world).2 in
  Sample.document_a ∈ schemas
  ∧ iter_schemas (globals w) = schemas
  ∧ register Sample.uri_normalize Sample.document_a w = (Ok tt, w).
Proof.
  intros schemas w. subst w.
  assert (Hin : Sample.document_a ∈ schemas) by (right; left).
  split; [exact Hin|]. split; [vm_compute; reflexivity|].
  exact (registered_schema_stays_registered Sample.uri_normalize schemas
           Sample.builtin_world Sample.document_a Hin).
Defined.
